(** * A shallow embedding of the Monkey front end (scanner, AST, Pratt parser)

    The Go packages [token], [lexer], [ast] and [parser] are embedded as Rocq
    modules of the same names.  Go strings are byte sequences and are
    modelled by [string] (a list of 8-bit [ascii]); a [byte] is an [ascii].
    Go [int] cursors are modelled by [nat]: they start at 0 and grow by one
    per read, so the 64-bit range is never left in any run a machine can
    perform.  Loops and recursion of the parser are driven by a fuel
    argument; running out of fuel is the distinguished outcome [Timeout]. *)

From Stdlib Require Import Bool Arith Lia List ZArith.
From Stdlib Require Import Strings.Ascii Strings.String.
Import ListNotations.

Local Open Scope list_scope.
Local Open Scope string_scope.
Local Open Scope nat_scope.

Set Warnings "-register-all".

(* ================================================================= *)
(** ** Package token (the snapshot the lexer and parser compile against:
       it is the one that declares EQ, NEQ, BANG, RETURN, TRUE, ...)   *)

Module token.

(** [type Type string] *)
Definition TokenType := string.

(** [type Token struct { Type Type; Literal string }] *)
Record Token : Set := mkToken { Typ : TokenType; Literal : string }.

Definition EOF : TokenType := "EOF".
Definition ILLEGAL : TokenType := "ILLEGAL".
Definition IDENT : TokenType := "IDENT".
Definition INT : TokenType := "INT".
Definition ASSIGN : TokenType := "=".
Definition ASTERISK : TokenType := "*".
Definition BANG : TokenType := "!".
Definition EQ : TokenType := "==".
Definition GT : TokenType := ">".
Definition LT : TokenType := "<".
Definition MINUS : TokenType := "-".
Definition NEQ : TokenType := "!=".
Definition PLUS : TokenType := "+".
Definition SLASH : TokenType := "/".
Definition COMMA : TokenType := ",".
Definition LBRACE : TokenType := "{".
Definition LPAREN : TokenType := "(".
Definition RBRACE : TokenType := "}".
Definition RPAREN : TokenType := ")".
Definition SEMICOLON : TokenType := ";".
Definition ELSE : TokenType := "ELSE".
Definition FALSE : TokenType := "FALSE".
Definition FUNCTION : TokenType := "FUNCTION".
Definition IF : TokenType := "IF".
Definition LET : TokenType := "LET".
Definition RETURN : TokenType := "RETURN".
Definition TRUE : TokenType := "TRUE".

(** A Go [map[string]V] that is only written while it is built: an
    association list, looked up from the front. *)
Fixpoint lookup {V : Type} (m : list (string * V)) (k : string) : option V :=
  match m with
  | [] => None
  | (k', v) :: m' => if String.eqb k k' then Some v else lookup m' k
  end.

Definition keywords : list (string * TokenType) :=
  [ ("else", ELSE); ("false", FALSE); ("fn", FUNCTION); ("if", IF);
    ("let", LET); ("return", RETURN); ("true", TRUE) ].

Definition LookupIdent (ident : string) : TokenType :=
  match lookup keywords ident with
  | Some tok => tok
  | None => IDENT
  end.

End token.

(* ================================================================= *)
(** ** Package lexer *)

Module lexer.
Import token.

Record Lexer : Set := mkLexer {
  input : string;
  position : nat;      (* current position in input (points to current char) *)
  readPosition : nat;  (* current reading position in input (after current char) *)
  ch : ascii           (* current char under examination *)
}.

(** [l.input[i]] guarded by [i >= len(l.input)]: the sentinel 0 past the end. *)
Definition byteAt (s : string) (i : nat) : ascii :=
  match String.get i s with
  | Some c => c
  | None => Ascii.zero
  end.

Definition readChar (l : Lexer) : Lexer :=
  {| input := input l;
     position := readPosition l;
     readPosition := S (readPosition l);
     ch := if String.length (input l) <=? readPosition l
           then Ascii.zero
           else byteAt (input l) (readPosition l) |}.

Definition New (inp : string) : Lexer :=
  readChar {| input := inp; position := 0; readPosition := 0; ch := Ascii.zero |}.

Definition peekChar (l : Lexer) : ascii :=
  if String.length (input l) <=? readPosition l
  then Ascii.zero
  else byteAt (input l) (readPosition l).

(** Go's [string(ch)] for a byte: the UTF-8 encoding of the code point
    [ch], one byte below 0x80 and two bytes from 0x80 on. *)
Definition string_of_byte (c : ascii) : string :=
  let n := nat_of_ascii c in
  if n <? 128 then String c EmptyString
  else String (ascii_of_nat (192 + n / 64))
         (String (ascii_of_nat (128 + n mod 64)) EmptyString).

Definition newToken (tokenType : TokenType) (c : ascii) : Token :=
  {| Typ := tokenType; Literal := string_of_byte c |}.

Definition isLetter (c : ascii) : bool :=
  let n := nat_of_ascii c in
  ((97 <=? n) && (n <=? 122)) || ((65 <=? n) && (n <=? 90)) || (n =? 95).

Definition isDigit (c : ascii) : bool :=
  let n := nat_of_ascii c in
  (48 <=? n) && (n <=? 57).

Definition isWhitespace (c : ascii) : bool :=
  Ascii.eqb c " " || Ascii.eqb c "009" || Ascii.eqb c "010" || Ascii.eqb c "013".

(** [for cond(l.ch) { l.readChar() }]: each turn moves [readPosition] one
    further, and past the end of the input the current character is 0, on
    which none of the three conditions used below holds. *)
Fixpoint readWhile (cond : ascii -> bool) (fuel : nat) (l : Lexer) : Lexer :=
  match fuel with
  | 0 => l
  | S fuel' => if cond (ch l) then readWhile cond fuel' (readChar l) else l
  end.

Definition loopFuel (l : Lexer) : nat :=
  S (S (String.length (input l) - readPosition l)).

Definition skipWhitespace (l : Lexer) : Lexer :=
  readWhile isWhitespace (loopFuel l) l.

(** [l.input[lo:hi]] *)
Definition slice (s : string) (lo hi : nat) : string :=
  String.substring lo (hi - lo) s.

Definition readIdentifier (l : Lexer) : string * Lexer :=
  let pos := position l in
  let l' := readWhile isLetter (loopFuel l) l in
  (slice (input l') pos (position l'), l').

Definition readNumber (l : Lexer) : string * Lexer :=
  let pos := position l in
  let l' := readWhile isDigit (loopFuel l) l in
  (slice (input l') pos (position l'), l').

Definition NextToken (l0 : Lexer) : Token * Lexer :=
  let l := skipWhitespace l0 in
  let c := ch l in
  if Ascii.eqb c "=" then
    if Ascii.eqb (peekChar l) "=" then
      let l1 := readChar l in
      ({| Typ := EQ; Literal := string_of_byte c ++ string_of_byte (ch l1) |},
       readChar l1)
    else (newToken ASSIGN c, readChar l)
  else if Ascii.eqb c "+" then (newToken PLUS c, readChar l)
  else if Ascii.eqb c "-" then (newToken MINUS c, readChar l)
  else if Ascii.eqb c "!" then
    if Ascii.eqb (peekChar l) "=" then
      let l1 := readChar l in
      ({| Typ := NEQ; Literal := string_of_byte c ++ string_of_byte (ch l1) |},
       readChar l1)
    else (newToken BANG c, readChar l)
  else if Ascii.eqb c "*" then (newToken ASTERISK c, readChar l)
  else if Ascii.eqb c "/" then (newToken SLASH c, readChar l)
  else if Ascii.eqb c "<" then (newToken LT c, readChar l)
  else if Ascii.eqb c ">" then (newToken GT c, readChar l)
  else if Ascii.eqb c "," then (newToken COMMA c, readChar l)
  else if Ascii.eqb c "{" then (newToken LBRACE c, readChar l)
  else if Ascii.eqb c "(" then (newToken LPAREN c, readChar l)
  else if Ascii.eqb c "}" then (newToken RBRACE c, readChar l)
  else if Ascii.eqb c ")" then (newToken RPAREN c, readChar l)
  else if Ascii.eqb c ";" then (newToken SEMICOLON c, readChar l)
  else if Ascii.eqb c Ascii.zero then
    ({| Typ := EOF; Literal := EmptyString |}, readChar l)
  else if isLetter c then
    let (lit, l1) := readIdentifier l in
    ({| Typ := LookupIdent lit; Literal := lit |}, l1)
  else if isDigit c then
    let (lit, l1) := readNumber l in
    ({| Typ := INT; Literal := lit |}, l1)
  else (newToken ILLEGAL c, readChar l).

(** The first [n] tokens a lexer hands out, with the lexer left behind. *)
Fixpoint tokens (n : nat) (l : Lexer) : list Token * Lexer :=
  match n with
  | 0 => ([], l)
  | S n' => let (t, l1) := NextToken l in
            let (ts, l2) := tokens n' l1 in
            (t :: ts, l2)
  end.

(** The lexer after [n] calls of [NextToken]. *)
Fixpoint after (n : nat) (l : Lexer) : Lexer :=
  match n with
  | 0 => l
  | S n' => after n' (snd (NextToken l))
  end.

End lexer.


(* ================================================================= *)
(** ** The two standard-library calls the parser makes *)

Module strconv.

(** [lower(c)] of package strconv: [c | ('x' - 'X')]. *)
Definition lower (c : ascii) : nat := Nat.lor (nat_of_ascii c) 32.

(** The value of one digit character, in any base up to 36. *)
Definition digitVal (c : ascii) : option nat :=
  let n := nat_of_ascii c in
  if (48 <=? n) && (n <=? 57) then Some (n - 48)
  else if (97 <=? lower c) && (lower c <=? 122) then Some (lower c - 97 + 10)
  else None.

(** The digit loop of [ParseUint] with [base0] set: underscores are
    skipped, a character that is no digit of the base is a syntax error. *)
Fixpoint parseDigits (base : nat) (s : string) (acc : Z) : option Z :=
  match s with
  | EmptyString => Some acc
  | String c s' =>
      if Ascii.eqb c "_" then parseDigits base s' acc
      else match digitVal c with
           | None => None
           | Some d => if base <=? d then None
                       else parseDigits base s' (acc * Z.of_nat base + Z.of_nat d)%Z
           end
  end.

Fixpoint hasUnderscore (s : string) : bool :=
  match s with
  | EmptyString => false
  | String c s' => Ascii.eqb c "_" || hasUnderscore s'
  end.

Definition isSign (c : ascii) : bool := Ascii.eqb c "+" || Ascii.eqb c "-".

Definition isBaseLetter (c : ascii) : bool :=
  (lower c =? 98) || (lower c =? 111) || (lower c =? 120).

(** The scan of [underscoreOK]; [saw] is the last character class seen:
    "^" at the start, "0" after a digit or base prefix, "_" after an
    underscore, "!" otherwise. *)
Fixpoint underscoreScan (hex : bool) (saw : ascii) (s : string) : bool :=
  match s with
  | EmptyString => negb (Ascii.eqb saw "_")
  | String c s' =>
      let n := nat_of_ascii c in
      if ((48 <=? n) && (n <=? 57))
         || (hex && (97 <=? lower c) && (lower c <=? 102))
      then underscoreScan hex "0" s'
      else if Ascii.eqb c "_" then
        if negb (Ascii.eqb saw "0") then false else underscoreScan hex "_" s'
      else if Ascii.eqb saw "_" then false
      else underscoreScan hex "!" s'
  end.

Definition underscoreOK (s : string) : bool :=
  let s1 := match s with
            | String c r => if isSign c then r else s
            | EmptyString => s
            end in
  match s1 with
  | String "0" (String c r) =>
      if isBaseLetter c then underscoreScan (lower c =? 120) "0" r
      else underscoreScan false "^" s1
  | _ => underscoreScan false "^" s1
  end.

(** [ParseUint(s, 0, 64)]: the base is read off the prefix ("0b", "0o",
    "0x", a bare leading "0" for octal, decimal otherwise).  [None] stands
    for a non-nil error, of either kind (syntax or range). *)
Definition ParseUint0 (s : string) : option Z :=
  match s with
  | EmptyString => None
  | String c r =>
      let '(base, digits) :=
        if Ascii.eqb c "0" then
          match r with
          | String c1 r1 =>
              if (3 <=? String.length s) && (lower c1 =? 98) then (2, r1)
              else if (3 <=? String.length s) && (lower c1 =? 111) then (8, r1)
              else if (3 <=? String.length s) && (lower c1 =? 120) then (16, r1)
              else (8, r)
          | EmptyString => (8, r)
          end
        else (10, s) in
      match parseDigits base digits 0%Z with
      | None => None
      | Some n =>
          if hasUnderscore digits && negb (underscoreOK s) then None
          else if (n <=? 18446744073709551615)%Z then Some n else None
      end
  end.

(** [ParseInt(s, 0, 64)]: an optional sign, then [ParseUint]; the value
    has to fit a signed 64-bit integer. *)
Definition ParseInt (s : string) : option Z :=
  match s with
  | EmptyString => None
  | String c r =>
      let neg := Ascii.eqb c "-" in
      let s' := if isSign c then r else s in
      match ParseUint0 s' with
      | None => None
      | Some un =>
          if negb neg && (9223372036854775808 <=? un)%Z then None
          else if neg && (9223372036854775808 <? un)%Z then None
          else Some (if neg then (- un)%Z else un)
      end
  end.

Definition hexDigit (n : nat) : ascii :=
  if n <? 10 then ascii_of_nat (48 + n) else ascii_of_nat (87 + n).

Definition dquote : ascii := ascii_of_nat 34.
Definition backslash : ascii := ascii_of_nat 92.

(** How [Quote] writes one byte of an ASCII string. *)
Definition quoteByte (c : ascii) : string :=
  let n := nat_of_ascii c in
  let esc (e : ascii) := String backslash (String e EmptyString) in
  if (n =? 34) || (n =? 92) then esc c
  else if (32 <=? n) && (n <? 127) then String c EmptyString
  else if n =? 7 then esc "a"%char
  else if n =? 8 then esc "b"%char
  else if n =? 12 then esc "f"%char
  else if n =? 10 then esc "n"%char
  else if n =? 13 then esc "r"%char
  else if n =? 9 then esc "t"%char
  else if n =? 11 then esc "v"%char
  else String backslash
         (String "x" (String (hexDigit (n / 16)) (String (hexDigit (n mod 16)) EmptyString))).

Fixpoint quoteBody (s : string) : string :=
  match s with
  | EmptyString => EmptyString
  | String c s' => quoteByte c ++ quoteBody s'
  end.

(** [Quote(s)], which is what the verb [%q] of package fmt prints, for a
    string of ASCII bytes (a byte from 0x80 on is written here as Go writes
    one that is not part of a valid UTF-8 sequence). *)
Definition Quote (s : string) : string :=
  String dquote (quoteBody s ++ String dquote EmptyString).

Definition isASCII (s : string) : bool :=
  forallb (fun c => nat_of_ascii c <? 128) (list_ascii_of_string s).

End strconv.

(* ================================================================= *)
(** ** Package ast (the snapshot with [String] methods and the prefix and
       infix expression nodes)

    A Go interface value or pointer that may be nil is an [option]; a method
    that dereferences a nil receiver or field panics, which the rendering
    functions report as [None]. *)

Module ast.
Import token.

Record Identifier : Set := mkIdentifier {
  Identifier_Token : Token;
  Identifier_Value : string
}.

(** The four node types that implement [Expression]. *)
Inductive Expression : Set :=
| IdentifierExpr (i : Identifier)
| IntegerLiteral (tok : Token) (value : Z)
| PrefixExpression (tok : Token) (operator : string) (Right : option Expression)
| InfixExpression (tok : Token) (Left : option Expression) (operator : string)
                  (Right : option Expression).

Record LetStatement : Set := mkLetStatement {
  LetStatement_Token : Token;
  Name : option Identifier;        (* *Identifier *)
  Value : option Expression
}.

Record ReturnStatement : Set := mkReturnStatement {
  ReturnStatement_Token : Token;
  ReturnValue : option Expression
}.

Record ExpressionStatement : Set := mkExpressionStatement {
  ExpressionStatement_Token : Token;
  Expression_ : option Expression
}.

(** A non-nil [Statement] interface value: the dynamic type together with
    the pointer it holds, which may itself be nil. *)
Inductive Statement : Set :=
| LetStmt (s : option LetStatement)
| ReturnStmt (s : option ReturnStatement)
| ExprStmt (s : option ExpressionStatement).

Record Program : Set := mkProgram { Statements : list Statement }.

Definition Identifier_String (i : Identifier) : string := Identifier_Value i.

(** The [String] methods of the expression nodes. *)
Fixpoint Expression_String (e : Expression) : option string :=
  match e with
  | IdentifierExpr i => Some (Identifier_String i)
  | IntegerLiteral tok _ => Some (Literal tok)
  | PrefixExpression _ operator Right =>
      match Right with
      | None => None
      | Some r =>
          match Expression_String r with
          | None => None
          | Some sr => Some ("(" ++ operator ++ sr ++ ")")
          end
      end
  | InfixExpression _ Left operator Right =>
      match Left with
      | None => None
      | Some lft =>
          match Expression_String lft with
          | None => None
          | Some sl =>
              match Right with
              | None => None
              | Some r =>
                  match Expression_String r with
                  | None => None
                  | Some sr => Some ("(" ++ sl ++ (" " ++ operator ++ " ") ++ sr ++ ")")
                  end
              end
          end
      end
  end.

Definition LetStatement_String (ls : option LetStatement) : option string :=
  match ls with
  | None => None
  | Some s =>
      match Name s with
      | None => None
      | Some n =>
          let out := (Literal (LetStatement_Token s) ++ " ") ++ Identifier_String n ++ " = " in
          match Value s with
          | None => Some (out ++ ";")
          | Some v =>
              match Expression_String v with
              | None => None
              | Some sv => Some (out ++ sv ++ ";")
              end
          end
      end
  end.

Definition ReturnStatement_String (rs : option ReturnStatement) : option string :=
  match rs with
  | None => None
  | Some s =>
      let out := Literal (ReturnStatement_Token s) ++ " " in
      match ReturnValue s with
      | None => Some (out ++ ";")
      | Some v =>
          match Expression_String v with
          | None => None
          | Some sv => Some (out ++ sv ++ ";")
          end
      end
  end.

Definition ExpressionStatement_String (es : option ExpressionStatement) : option string :=
  match es with
  | None => None
  | Some s =>
      match Expression_ s with
      | None => Some EmptyString
      | Some e => Expression_String e
      end
  end.

Definition Statement_String (s : Statement) : option string :=
  match s with
  | LetStmt ls => LetStatement_String ls
  | ReturnStmt rs => ReturnStatement_String rs
  | ExprStmt es => ExpressionStatement_String es
  end.

Fixpoint Statements_String (ss : list Statement) : option string :=
  match ss with
  | [] => Some EmptyString
  | s :: ss' =>
      match Statement_String s with
      | None => None
      | Some r =>
          match Statements_String ss' with
          | None => None
          | Some rs => Some (r ++ rs)
          end
      end
  end.

Definition Program_String (p : Program) : option string :=
  Statements_String (Statements p).

(** The [TokenLiteral] methods.  Those of the statements dereference their
    receiver, so a nil pointer makes them panic ([None]). *)
Definition Identifier_TokenLiteral (i : Identifier) : string :=
  Literal (Identifier_Token i).

Definition Expression_TokenLiteral (e : Expression) : string :=
  match e with
  | IdentifierExpr i => Identifier_TokenLiteral i
  | IntegerLiteral tok _ => Literal tok
  | PrefixExpression tok _ _ => Literal tok
  | InfixExpression tok _ _ _ => Literal tok
  end.

Definition Statement_TokenLiteral (s : Statement) : option string :=
  match s with
  | LetStmt (Some ls) => Some (Literal (LetStatement_Token ls))
  | ReturnStmt (Some rs) => Some (Literal (ReturnStatement_Token rs))
  | ExprStmt (Some es) => Some (Literal (ExpressionStatement_Token es))
  | _ => None
  end.

Definition Program_TokenLiteral (p : Program) : option string :=
  match Statements p with
  | s :: _ => Statement_TokenLiteral s
  | [] => Some EmptyString
  end.

End ast.

(* ================================================================= *)
(** ** Package parser (the Pratt parser) *)

Module parser.
Import token ast.

(** What a call does when it is given [fuel] loop turns and nested calls:
    it returns, or it is still running when the fuel is spent. *)
Inductive outcome (A : Type) : Type :=
| Returns (a : A)
| Timeout.
Arguments Returns {A} a.
Arguments Timeout {A}.

Definition bind {A B : Type} (m : outcome A) (k : A -> outcome B) : outcome B :=
  match m with
  | Returns a => k a
  | Timeout => Timeout
  end.

Notation "x <- m ;; k" := (bind m (fun x => k))
  (at level 61, m at next level, right associativity).

Definition LOWEST : nat := 1.
Definition EQUALS : nat := 2.
Definition LESSGREATER : nat := 3.
Definition SUM : nat := 4.
Definition PRODUCT : nat := 5.
Definition PREFIX : nat := 6.
Definition CALL : nat := 7.

Definition precedences : list (TokenType * nat) :=
  [ (EQ, EQUALS); (NEQ, EQUALS); (LT, LESSGREATER); (GT, LESSGREATER);
    (PLUS, SUM); (MINUS, SUM); (SLASH, PRODUCT); (ASTERISK, PRODUCT) ].

(** The method values stored in the two dispatch tables. *)
Inductive prefixParseFn : Set :=
| parseIdentifierFn
| parseIntegerLiteralFn
| parsePrefixExpressionFn.

Inductive infixParseFn : Set :=
| parseInfixExpressionFn.

Record Parser : Set := mkParser {
  l : lexer.Lexer;
  curToken : Token;
  peekToken : Token;
  errors : list string;
  prefixParseFns : list (TokenType * prefixParseFn);
  infixParseFns : list (TokenType * infixParseFn)
}.

Definition registerPrefix (tokenType : TokenType) (fn : prefixParseFn) (p : Parser) : Parser :=
  {| l := l p; curToken := curToken p; peekToken := peekToken p; errors := errors p;
     prefixParseFns := (tokenType, fn) :: prefixParseFns p;
     infixParseFns := infixParseFns p |}.

Definition registerInfix (tokenType : TokenType) (fn : infixParseFn) (p : Parser) : Parser :=
  {| l := l p; curToken := curToken p; peekToken := peekToken p; errors := errors p;
     prefixParseFns := prefixParseFns p;
     infixParseFns := (tokenType, fn) :: infixParseFns p |}.

Definition nextToken (p : Parser) : Parser :=
  let (tok, lx) := lexer.NextToken (l p) in
  {| l := lx; curToken := peekToken p; peekToken := tok; errors := errors p;
     prefixParseFns := prefixParseFns p; infixParseFns := infixParseFns p |}.

Definition addError (msg : string) (p : Parser) : Parser :=
  {| l := l p; curToken := curToken p; peekToken := peekToken p;
     errors := (errors p ++ [msg])%list;
     prefixParseFns := prefixParseFns p; infixParseFns := infixParseFns p |}.

Definition curTokenIs (p : Parser) (t : TokenType) : bool :=
  String.eqb (Typ (curToken p)) t.

Definition peekTokenIs (p : Parser) (t : TokenType) : bool :=
  String.eqb (Typ (peekToken p)) t.

Definition peekErrorMsg (t got : TokenType) : string :=
  "expected next token to be " ++ t ++ ", got " ++ got ++ " instead".

Definition peekError (t : TokenType) (p : Parser) : Parser :=
  addError (peekErrorMsg t (Typ (peekToken p))) p.

Definition expectPeek (t : TokenType) (p : Parser) : bool * Parser :=
  if peekTokenIs p t then (true, nextToken p)
  else (false, peekError t p).

Definition Errors (p : Parser) : list string := errors p.

Definition peekPrecedence (p : Parser) : nat :=
  match lookup precedences (Typ (peekToken p)) with
  | Some pr => pr
  | None => LOWEST
  end.

Definition curPrecedence (p : Parser) : nat :=
  match lookup precedences (Typ (curToken p)) with
  | Some pr => pr
  | None => LOWEST
  end.

Definition noPrefixMsg (t : TokenType) : string :=
  "no prefix parse function for " ++ t ++ " found".

Definition noPrefixParseFnError (t : TokenType) (p : Parser) : Parser :=
  addError (noPrefixMsg t) p.

Definition New (lx : lexer.Lexer) : Parser :=
  let p := {| l := lx;
              curToken := {| Typ := EmptyString; Literal := EmptyString |};
              peekToken := {| Typ := EmptyString; Literal := EmptyString |};
              errors := [];
              prefixParseFns := []; infixParseFns := [] |} in
  let p := registerPrefix IDENT parseIdentifierFn p in
  let p := registerPrefix INT parseIntegerLiteralFn p in
  let p := registerPrefix BANG parsePrefixExpressionFn p in
  let p := registerPrefix MINUS parsePrefixExpressionFn p in
  let p := registerInfix PLUS parseInfixExpressionFn p in
  let p := registerInfix MINUS parseInfixExpressionFn p in
  let p := registerInfix SLASH parseInfixExpressionFn p in
  let p := registerInfix ASTERISK parseInfixExpressionFn p in
  let p := registerInfix EQ parseInfixExpressionFn p in
  let p := registerInfix NEQ parseInfixExpressionFn p in
  let p := registerInfix LT parseInfixExpressionFn p in
  let p := registerInfix GT parseInfixExpressionFn p in
  nextToken (nextToken p).

Definition parseIdentifier (p : Parser) : option Expression * Parser :=
  (Some (IdentifierExpr {| Identifier_Token := curToken p;
                           Identifier_Value := Literal (curToken p) |}), p).

Definition intErrorMsg (lit : string) : string :=
  "could not parse " ++ strconv.Quote lit ++ " as integer".

Definition parseIntegerLiteral (p : Parser) : option Expression * Parser :=
  match strconv.ParseInt (Literal (curToken p)) with
  | None => (None, addError (intErrorMsg (Literal (curToken p))) p)
  | Some value => (Some (IntegerLiteral (curToken p) value), p)
  end.

(** [for !p.curTokenIs(token.SEMICOLON) { p.nextToken() }], the loop that
    ends [parseLetStatement] and [parseReturnStatement]. *)
Fixpoint skipToSemicolon (fuel : nat) (p : Parser) : outcome Parser :=
  match fuel with
  | 0 => Timeout
  | S fuel' =>
      if curTokenIs p SEMICOLON then Returns p
      else skipToSemicolon fuel' (nextToken p)
  end.

Definition parseLetStatement (fuel : nat) (p : Parser)
  : outcome (option LetStatement * Parser) :=
  let tok := curToken p in
  let (ok, p1) := expectPeek IDENT p in
  if negb ok then Returns (None, p1)
  else
    let name := {| Identifier_Token := curToken p1;
                   Identifier_Value := Literal (curToken p1) |} in
    let (ok2, p2) := expectPeek ASSIGN p1 in
    if negb ok2 then Returns (None, p2)
    else
      p3 <- skipToSemicolon fuel p2 ;;
      Returns (Some {| LetStatement_Token := tok; Name := Some name; Value := None |}, p3).

Definition parseReturnStatement (fuel : nat) (p : Parser)
  : outcome (option ReturnStatement * Parser) :=
  let tok := curToken p in
  let p1 := nextToken p in
  p2 <- skipToSemicolon fuel p1 ;;
  Returns (Some {| ReturnStatement_Token := tok; ReturnValue := None |}, p2).

(** [parseExpression] with its loop, and the two rules that call back into
    it.  [parseExpression_loop] is the [for] of [parseExpression], entered
    with the left-hand expression built so far. *)
Fixpoint parseExpression (fuel : nat) (precedence : nat) (p : Parser) {struct fuel}
  : outcome (option Expression * Parser) :=
  match fuel with
  | 0 => Timeout
  | S fuel' =>
      match lookup (prefixParseFns p) (Typ (curToken p)) with
      | None => Returns (None, noPrefixParseFnError (Typ (curToken p)) p)
      | Some prefix =>
          r <- match prefix with
               | parseIdentifierFn => Returns (parseIdentifier p)
               | parseIntegerLiteralFn => Returns (parseIntegerLiteral p)
               | parsePrefixExpressionFn => parsePrefixExpression fuel' p
               end ;;
          parseExpression_loop fuel' precedence (fst r) (snd r)
      end
  end

with parseExpression_loop (fuel : nat) (precedence : nat)
       (leftExp : option Expression) (p : Parser) {struct fuel}
  : outcome (option Expression * Parser) :=
  match fuel with
  | 0 => Timeout
  | S fuel' =>
      if negb (peekTokenIs p SEMICOLON) && (precedence <? peekPrecedence p) then
        match lookup (infixParseFns p) (Typ (peekToken p)) with
        | None => Returns (leftExp, p)
        | Some parseInfixExpressionFn =>
            r <- parseInfixExpression fuel' leftExp (nextToken p) ;;
            parseExpression_loop fuel' precedence (fst r) (snd r)
        end
      else Returns (leftExp, p)
  end

with parsePrefixExpression (fuel : nat) (p : Parser) {struct fuel}
  : outcome (option Expression * Parser) :=
  match fuel with
  | 0 => Timeout
  | S fuel' =>
      let tok := curToken p in
      r <- parseExpression fuel' PREFIX (nextToken p) ;;
      Returns (Some (PrefixExpression tok (Literal tok) (fst r)), snd r)
  end

with parseInfixExpression (fuel : nat) (leftE : option Expression) (p : Parser)
       {struct fuel}
  : outcome (option Expression * Parser) :=
  match fuel with
  | 0 => Timeout
  | S fuel' =>
      let tok := curToken p in
      let precedence := curPrecedence p in
      r <- parseExpression fuel' precedence (nextToken p) ;;
      Returns (Some (InfixExpression tok leftE (Literal tok) (fst r)), snd r)
  end.

Definition parseExpressionStatement (fuel : nat) (p : Parser)
  : outcome (option ExpressionStatement * Parser) :=
  let tok := curToken p in
  r <- parseExpression fuel LOWEST p ;;
  let p1 := snd r in
  let p2 := if peekTokenIs p1 SEMICOLON then nextToken p1 else p1 in
  Returns (Some {| ExpressionStatement_Token := tok; Expression_ := fst r |}, p2).

(** The result is a [Statement] interface value.  Each branch returns the
    pointer that the statement parser gave, converted to the interface; in Go
    an interface value that holds a nil pointer of a concrete type is itself
    not nil, so [None] (the nil interface) cannot come out, not even when
    the pointer is nil. *)
Definition parseStatement (fuel : nat) (p : Parser)
  : outcome (option Statement * Parser) :=
  if String.eqb (Typ (curToken p)) LET then
    r <- parseLetStatement fuel p ;; Returns (Some (LetStmt (fst r)), snd r)
  else if String.eqb (Typ (curToken p)) RETURN then
    r <- parseReturnStatement fuel p ;; Returns (Some (ReturnStmt (fst r)), snd r)
  else
    r <- parseExpressionStatement fuel p ;; Returns (Some (ExprStmt (fst r)), snd r).

(** The loop of [ParseProgram], with the statements gathered so far. *)
Fixpoint ParseProgram_loop (fuel : nat) (stmts : list Statement) (p : Parser)
  : outcome (list Statement * Parser) :=
  match fuel with
  | 0 => Timeout
  | S fuel' =>
      if curTokenIs p EOF then Returns (stmts, p)
      else
        r <- parseStatement fuel' p ;;
        let stmts' := match fst r with
                      | Some stmt => (stmts ++ [stmt])%list
                      | None => stmts
                      end in
        ParseProgram_loop fuel' stmts' (nextToken (snd r))
  end.

Definition ParseProgram (fuel : nat) (p : Parser) : outcome (Program * Parser) :=
  r <- ParseProgram_loop fuel [] p ;;
  Returns ({| Statements := fst r |}, snd r).

(** Lexing and parsing a source text. *)
Definition parse (fuel : nat) (src : string) : outcome (Program * Parser) :=
  ParseProgram fuel (New (lexer.New src)).

(** The rendering of the program parsed from [src], and the diagnostics. *)
Definition render (fuel : nat) (src : string) : outcome (option string * list string) :=
  r <- parse fuel src ;;
  Returns (Program_String (fst r), Errors (snd r)).

End parser.

(* ================================================================= *)
(** ** Package parser, the earlier snapshot (let statements only)

    Its Parser struct has the scanner, the two buffered tokens and the
    diagnostics; the record of the later snapshot is used for it, with empty
    dispatch tables that nothing reads.  nextToken, curTokenIs, peekTokenIs,
    expectPeek, peekError and parseLetStatement are the same code in both
    snapshots. *)

Module parser0.
Import token ast parser.

Definition New (lx : lexer.Lexer) : Parser :=
  let p := {| l := lx;
              curToken := {| Typ := EmptyString; Literal := EmptyString |};
              peekToken := {| Typ := EmptyString; Literal := EmptyString |};
              errors := [];
              prefixParseFns := []; infixParseFns := [] |} in
  nextToken (nextToken p).

(** [default: return nil]: for every token but let the result is the nil
    interface; for let it is the pointer from parseLetStatement in an
    interface value, nil or not. *)
Definition parseStatement (fuel : nat) (p : Parser)
  : outcome (option Statement * Parser) :=
  if String.eqb (Typ (curToken p)) LET then
    r <- parseLetStatement fuel p ;; Returns (Some (LetStmt (fst r)), snd r)
  else Returns (None, p).

Fixpoint ParseProgram_loop (fuel : nat) (stmts : list Statement) (p : Parser)
  : outcome (list Statement * Parser) :=
  match fuel with
  | 0 => Timeout
  | S fuel' =>
      if curTokenIs p EOF then Returns (stmts, p)
      else
        r <- parseStatement fuel' p ;;
        let stmts' := match fst r with
                      | Some stmt => (stmts ++ [stmt])%list
                      | None => stmts
                      end in
        ParseProgram_loop fuel' stmts' (nextToken (snd r))
  end.

Definition ParseProgram (fuel : nat) (p : Parser) : outcome (Program * Parser) :=
  r <- ParseProgram_loop fuel [] p ;;
  Returns ({| Statements := fst r |}, snd r).

End parser0.


Import token lexer ast parser.

(* ================================================================= *)
(** ** Notions used to state the properties *)

(** The cursor invariant of the scanner. *)
Definition lexer_inv (lx : Lexer) : Prop :=
  readPosition lx = position lx + 1 /\
  ch lx = (if position lx <? String.length (input lx)
           then byteAt (input lx) (position lx)
           else Ascii.zero).

(** The cursor stands at or behind the end of the input. *)
Definition at_end (lx : Lexer) : Prop :=
  String.length (input lx) <= position lx.

Definition eofToken : Token := {| Typ := EOF; Literal := EmptyString |}.

(** A call that returns with [fuel] returns the same with more. *)
Definition mono {A : Type} (f : nat -> outcome A) (fuel : nat) : Prop :=
  forall r, f fuel = Returns r -> forall fuel', fuel <= fuel' -> f fuel' = Returns r.

(** The scanner is drained and neither buffered token is a semicolon. *)
Definition stuck (p : Parser) : Prop :=
  lexer_inv (l p) /\ at_end (l p) /\
  curTokenIs p SEMICOLON = false /\ peekTokenIs p SEMICOLON = false.

(** [s[n:]], empty from the end of [s] on. *)
Fixpoint drop (n : nat) (s : string) : string :=
  match n with
  | 0 => s
  | S n' => match s with
            | EmptyString => EmptyString
            | String _ s' => drop n' s'
            end
  end.

(** The first character of a text, the sentinel 0 for the empty text. *)
Definition head0 (s : string) : ascii :=
  match s with
  | String c _ => c
  | EmptyString => Ascii.zero
  end.

Definition tail (s : string) : string :=
  match s with
  | String _ r => r
  | EmptyString => EmptyString
  end.

(** Every character of the text satisfies [f]. *)
Fixpoint all_chars (f : ascii -> bool) (s : string) : bool :=
  match s with
  | EmptyString => true
  | String c s' => f c && all_chars f s'
  end.

(** The part of the input from the cursor on. *)
Definition view (lx : Lexer) : string := drop (position lx) (input lx).

(** A name the scanner hands out as an identifier. *)
Definition ident_name (x : string) : Prop :=
  x <> EmptyString /\ all_chars isLetter x = true /\ LookupIdent x = IDENT.

Definition letToken : Token := {| Typ := LET; Literal := "let" |}.
Definition returnToken : Token := {| Typ := RETURN; Literal := "return" |}.
Definition identToken (x : string) : Token := {| Typ := IDENT; Literal := x |}.
Definition assignToken : Token := {| Typ := ASSIGN; Literal := "=" |}.
Definition semicolonToken : Token := {| Typ := SEMICOLON; Literal := ";" |}.

(** The two statement nodes that parseLetStatement and parseReturnStatement
    build, up to the name that is bound. *)
Inductive shape : Set :=
| SLet (x : string)
| SReturn.

Definition stmt_of (s : shape) : Statement :=
  match s with
  | SLet x =>
      LetStmt (Some {| LetStatement_Token := letToken;
                       Name := Some {| Identifier_Token := identToken x;
                                       Identifier_Value := x |};
                       Value := None |})
  | SReturn =>
      ReturnStmt (Some {| ReturnStatement_Token := returnToken; ReturnValue := None |})
  end.

Definition shape_ok (s : shape) : Prop :=
  match s with
  | SLet x => ident_name x
  | SReturn => True
  end.

Definition text_of (s : shape) : string :=
  match s with
  | SLet x => "let " ++ x ++ " = ;"
  | SReturn => "return ;"
  end.

Fixpoint texts (ss : list shape) : string :=
  match ss with
  | [] => EmptyString
  | s :: ss' => text_of s ++ texts ss'
  end.

(** One token of the rendered text: the scanner before it, the token, and
    the text left behind it. *)
Definition scans (lx : Lexer) (tok : Token) (r : string) : Prop :=
  lexer_inv (snd (NextToken lx)) /\ fst (NextToken lx) = tok /\
  view (snd (NextToken lx)) = r.

(** The parser in front of the rendering of the statements [ss]: the first
    two tokens of the text are buffered, the scanner stands behind them. *)
Definition state_for (ss : list shape) (p : Parser) : Prop :=
  lexer_inv (l p) /\
  match ss with
  | [] => curToken p = eofToken
  | SLet x :: rest =>
      curToken p = letToken /\ peekToken p = identToken x /\
      view (l p) = String " " (String "=" (String " " (String ";" (texts rest))))
  | SReturn :: rest =>
      curToken p = returnToken /\ peekToken p = semicolonToken /\
      view (l p) = texts rest
  end.

(** Where parseStatement leaves the parser on a rendered statement. *)
Definition after_stmt (s : shape) (p : Parser) : Parser :=
  match s with
  | SLet _ => nextToken (nextToken (nextToken p))
  | SReturn => nextToken p
  end.

(** The longest run of characters at the front of a text that satisfy a
    condition, and the text behind it. *)
Fixpoint span_run (cond : ascii -> bool) (s : string) : string :=
  match s with
  | EmptyString => EmptyString
  | String c r => if cond c then String c (span_run cond r) else EmptyString
  end.

Fixpoint span_rest (cond : ascii -> bool) (s : string) : string :=
  match s with
  | EmptyString => EmptyString
  | String c r => if cond c then span_rest cond r else s
  end.

(** What the parser relies on in a buffered token. *)
Definition tok_ok (t : Token) : Prop :=
  (Typ t = LET -> t = letToken) /\
  (Typ t = RETURN -> t = returnToken) /\
  (Typ t = IDENT -> ident_name (Literal t)).

Definition parser_ok (p : Parser) : Prop :=
  lexer_inv (l p) /\ tok_ok (curToken p) /\ tok_ok (peekToken p).

(** A statement that is a LetStatement or ReturnStatement node. *)
Definition let_or_return (s : Statement) : Prop :=
  match s with
  | LetStmt (Some _) | ReturnStmt (Some _) => True
  | _ => False
  end.

(** The scanner on the text that is left to read: the token that NextToken
    hands out in front of [s0], and the text left behind that token. *)
Definition scan (s0 : string) : Token * string :=
  let s := span_rest isWhitespace s0 in
  let c := head0 s in
  let r := tail s in
  if Ascii.eqb c "=" then
    if Ascii.eqb (head0 r) "=" then
      ({| Typ := EQ; Literal := string_of_byte c ++ string_of_byte (head0 r) |}, tail r)
    else (newToken ASSIGN c, r)
  else if Ascii.eqb c "+" then (newToken PLUS c, r)
  else if Ascii.eqb c "-" then (newToken MINUS c, r)
  else if Ascii.eqb c "!" then
    if Ascii.eqb (head0 r) "=" then
      ({| Typ := NEQ; Literal := string_of_byte c ++ string_of_byte (head0 r) |}, tail r)
    else (newToken BANG c, r)
  else if Ascii.eqb c "*" then (newToken ASTERISK c, r)
  else if Ascii.eqb c "/" then (newToken SLASH c, r)
  else if Ascii.eqb c "<" then (newToken LT c, r)
  else if Ascii.eqb c ">" then (newToken GT c, r)
  else if Ascii.eqb c "," then (newToken COMMA c, r)
  else if Ascii.eqb c "{" then (newToken LBRACE c, r)
  else if Ascii.eqb c "(" then (newToken LPAREN c, r)
  else if Ascii.eqb c "}" then (newToken RBRACE c, r)
  else if Ascii.eqb c ")" then (newToken RPAREN c, r)
  else if Ascii.eqb c ";" then (newToken SEMICOLON c, r)
  else if Ascii.eqb c Ascii.zero then (eofToken, r)
  else if isLetter c then
    ({| Typ := LookupIdent (span_run isLetter s); Literal := span_run isLetter s |},
     span_rest isLetter s)
  else if isDigit c then
    ({| Typ := INT; Literal := span_run isDigit s |}, span_rest isDigit s)
  else (newToken ILLEGAL c, r).

(** The first [n] tokens in front of a text. *)
Fixpoint scan_tokens (n : nat) (s : string) : list Token :=
  match n with
  | 0 => []
  | S n' => fst (scan s) :: scan_tokens n' (snd (scan s))
  end.

(** The kinds of the operator and delimiter tokens. *)
Definition operators : list TokenType :=
  [ ASSIGN; PLUS; MINUS; BANG; ASTERISK; SLASH; LT; GT; COMMA;
    LBRACE; LPAREN; RBRACE; RPAREN; SEMICOLON; EQ; NEQ ].

(** A character that starts no token of the language and is not skipped. *)
Definition stray (c : ascii) : bool :=
  negb (isWhitespace c) && negb (isLetter c) && negb (isDigit c)
  && negb (Ascii.eqb c Ascii.zero)
  && negb (existsb (fun t => String.eqb (String c EmptyString) t) operators).

(** The tokens the scanner can hand out. *)
Inductive token_wf : Token -> Prop :=
| wf_eof : token_wf eofToken
| wf_operator : forall ty, In ty operators -> token_wf {| Typ := ty; Literal := ty |}
| wf_keyword : forall w ty, In (w, ty) keywords -> token_wf {| Typ := ty; Literal := w |}
| wf_ident : forall w, ident_name w -> token_wf {| Typ := IDENT; Literal := w |}
| wf_int : forall w, w <> EmptyString -> all_chars isDigit w = true ->
                     token_wf {| Typ := INT; Literal := w |}
| wf_illegal : forall c, stray c = true ->
                         token_wf {| Typ := ILLEGAL; Literal := string_of_byte c |}.

(** The keyword table and [LookupIdent] of the earlier snapshot of package
    token (src/token/token.go), which knows the keywords fn and let only. *)
Definition keywords0 : list (string * TokenType) :=
  [ ("fn", FUNCTION); ("let", LET) ].

Definition LookupIdent0 (ident : string) : TokenType :=
  match lookup keywords0 ident with
  | Some tok => tok
  | None => IDENT
  end.

(** The dispatch tables of two parser states are the same. *)
Definition same_tables (p p' : Parser) : Prop :=
  prefixParseFns p' = prefixParseFns p /\ infixParseFns p' = infixParseFns p.

(** An expression that is there and whose String method returns. *)
Definition renders (oe : option Expression) : Prop :=
  exists e s, oe = Some e /\ Expression_String e = Some s.

(** What a parsing step leaves behind: the tables as they were, the
    diagnostics extended at the end, and [good] in case none was added. *)
Definition step_post (p p' : Parser) (good : Prop) : Prop :=
  same_tables p p' /\
  exists ext, errors p' = (errors p ++ ext)%list /\ (ext = [] -> good).

(** 1 for a token that is not EOF, 0 for EOF. *)
Definition live (t : Token) : nat :=
  if String.eqb (Typ t) EOF then 0 else 1.

(** A measure of what a parser has left to read: the text in front of the
    scanner and the two buffered tokens.  Every nextToken lowers it, unless
    it is 0 already. *)
Definition weight (p : Parser) : nat :=
  3 * String.length (view (l p)) + 2 * live (peekToken p) + live (curToken p).

(** No parse rule is registered for the EOF token. *)
Definition tables_ok (p : Parser) : Prop :=
  lookup (prefixParseFns p) EOF = None /\ lookup (infixParseFns p) EOF = None.

(** The tokens in front of a parser: the two buffered ones, then those the
    scanner will hand out. *)
Definition upcoming (p : Parser) (i : nat) : Token :=
  match i with
  | 0 => curToken p
  | 1 => peekToken p
  | S (S k) => fst (NextToken (after k (l p)))
  end.

Definition is_keyword_stmt (t : Token) : bool :=
  String.eqb (Typ t) LET || String.eqb (Typ t) RETURN.

Definition is_semicolon (t : Token) : bool := String.eqb (Typ t) SEMICOLON.

(** Behind every let or return token in front of the parser there is a
    semicolon, somewhere. *)
Definition keyword_closed (p : Parser) : Prop :=
  forall i, is_keyword_stmt (upcoming p i) = true ->
            exists j, i < j /\ is_semicolon (upcoming p j) = true.

(** The same for a list of tokens, as a test. *)
Fixpoint keywords_closed (ts : list Token) : bool :=
  match ts with
  | [] => true
  | t :: r => (negb (is_keyword_stmt t) || existsb is_semicolon r) && keywords_closed r
  end.

(** A call returns for some fuel, in a state that satisfies [good] and with
    no more left to read than before. *)
Definition terminates {A : Type} (good : Parser -> Prop) (p : Parser)
    (f : nat -> outcome (A * Parser)) : Prop :=
  exists fuel r, f fuel = Returns r /\ good (snd r) /\ weight (snd r) <= weight p.

(** An identifier as an expression node. *)
Definition identExpr (t : Token) : Expression :=
  IdentifierExpr {| Identifier_Token := t; Identifier_Value := Literal t |}.

(** The infix node of an operator token. *)
Definition infixExpr (op : Token) (a b : Expression) : Expression :=
  InfixExpression op (Some a) (Literal op) (Some b).

(** A token that has the infix rule, with its precedence. *)
Definition infix_operator (t : Token) (prec : nat) : Prop :=
  lookup precedences (Typ t) = Some prec /\ In (Typ t) [PLUS; MINUS; SLASH; ASTERISK; EQ; NEQ; LT; GT].

(** The dispatch tables are those that New registers. *)
Definition standard_tables (p : Parser) : Prop :=
  prefixParseFns p = [ (MINUS, parsePrefixExpressionFn); (BANG, parsePrefixExpressionFn);
                       (INT, parseIntegerLiteralFn); (IDENT, parseIdentifierFn) ] /\
  infixParseFns p = [ (GT, parseInfixExpressionFn); (LT, parseInfixExpressionFn);
                      (NEQ, parseInfixExpressionFn); (EQ, parseInfixExpressionFn);
                      (ASTERISK, parseInfixExpressionFn); (SLASH, parseInfixExpressionFn);
                      (MINUS, parseInfixExpressionFn); (PLUS, parseInfixExpressionFn) ].

(** What the parser guarantees of an expression node it has built, for the
    dispatch tables [pf] and [inf]: an identifier has the literal of its
    token as value, an integer literal the value that its literal denotes,
    an operator node the literal of its token as operator, and each node was
    built by the rule registered for the kind of its token. *)
Fixpoint node_ok (pf : list (TokenType * prefixParseFn))
    (inf : list (TokenType * infixParseFn)) (e : Expression) : Prop :=
  match e with
  | IdentifierExpr i =>
      Identifier_Value i = Literal (Identifier_Token i) /\
      lookup pf (Typ (Identifier_Token i)) = Some parseIdentifierFn
  | IntegerLiteral tok v =>
      strconv.ParseInt (Literal tok) = Some v /\
      lookup pf (Typ tok) = Some parseIntegerLiteralFn
  | PrefixExpression tok op r =>
      op = Literal tok /\ lookup pf (Typ tok) = Some parsePrefixExpressionFn /\
      match r with
      | Some e' => node_ok pf inf e'
      | None => True
      end
  | InfixExpression tok lft op r =>
      op = Literal tok /\ lookup inf (Typ tok) = Some parseInfixExpressionFn /\
      match lft with
      | Some e' => node_ok pf inf e'
      | None => True
      end /\
      match r with
      | Some e' => node_ok pf inf e'
      | None => True
      end
  end.

Definition opt_ok (pf : list (TokenType * prefixParseFn))
    (inf : list (TokenType * infixParseFn)) (oe : option Expression) : Prop :=
  match oe with
  | Some e => node_ok pf inf e
  | None => True
  end.

(** A diagnostic of expectPeek. *)
Definition is_peek_error (msg : string) : Prop :=
  exists got, msg = peekErrorMsg IDENT got \/ msg = peekErrorMsg ASSIGN got.

(** What is asked of one entry of a program for its value expression to
    count as skipped: a let statement has its Name and no Value, a return
    statement has no ReturnValue.  Of a nil pointer neither field can be
    read. *)
Definition value_skipped (s : Statement) : Prop :=
  match s with
  | LetStmt ls => exists x, ls = Some x /\ Name x <> None /\ Value x = None
  | ReturnStmt rs => exists x, rs = Some x /\ ReturnValue x = None
  | ExprStmt _ => True
  end.

(** The parser is on a let token that is not followed by an identifier, or
    whose identifier is not followed by the assignment sign. *)
Definition failed_let (p : Parser) : Prop :=
  Typ (curToken p) = LET /\
  (peekTokenIs p IDENT = false \/ peekTokenIs (nextToken p) ASSIGN = false).

(** [q] is [p] read on to its first semicolon: so many times nextToken that
    the current token is a semicolon, and it was none before. *)
Definition skipped_to_semicolon (p q : Parser) : Prop :=
  exists k, q = Nat.iter k nextToken p /\
            curTokenIs q SEMICOLON = true /\
            forall j, j < k -> curTokenIs (Nat.iter j nextToken p) SEMICOLON = false.

(** Every operand of the prefix and infix nodes of an expression is there. *)
Fixpoint Expression_complete (e : Expression) : Prop :=
  match e with
  | IdentifierExpr _ => True
  | IntegerLiteral _ _ => True
  | PrefixExpression _ _ r =>
      match r with
      | Some e' => Expression_complete e'
      | None => False
      end
  | InfixExpression _ lft _ r =>
      match lft with
      | Some e' => Expression_complete e'
      | None => False
      end /\
      match r with
      | Some e' => Expression_complete e'
      | None => False
      end
  end.

(** A statement none of whose nodes is nil: the statement itself is there,
    a let statement has its Name, an expression statement has its
    Expression, and that has all its operands.  (Value and ReturnValue are
    left aside: this parser never sets them.) *)
Definition Statement_complete (s : Statement) : Prop :=
  match s with
  | LetStmt (Some ls) => Name ls <> None
  | ReturnStmt (Some _) => True
  | ExprStmt (Some es) =>
      match Expression_ es with
      | Some e => Expression_complete e
      | None => False
      end
  | _ => False
  end.

(* ================================================================= *)
(** ** The scanner: cursor invariant, loops, end of input *)

Lemma readChar_inv : forall lx, lexer_inv (readChar lx).
Proof.
  intros lx. unfold lexer_inv, readChar. simpl. split; [lia|].
  destruct (Nat.leb_spec (String.length (input lx)) (readPosition lx)) as [H|H];
    destruct (Nat.ltb_spec (readPosition lx) (String.length (input lx))) as [H'|H'];
    try reflexivity; lia.
Qed.

Lemma readChar_input : forall lx, input (readChar lx) = input lx.
Proof. reflexivity. Qed.

Lemma readWhile_inv : forall cond fuel lx,
  lexer_inv lx -> lexer_inv (readWhile cond fuel lx).
Proof.
  intros cond fuel. induction fuel as [|fuel IH]; intros lx H; simpl.
  - exact H.
  - destruct (cond (ch lx)); [apply IH, readChar_inv | exact H].
Qed.

Lemma readWhile_input : forall cond fuel lx,
  input (readWhile cond fuel lx) = input lx.
Proof.
  intros cond fuel. induction fuel as [|fuel IH]; intros lx; simpl.
  - reflexivity.
  - destruct (cond (ch lx)); [rewrite IH; reflexivity | reflexivity].
Qed.

(** One turn of a scanning loop that is taken leaves a well-formed cursor. *)
Lemma readWhile_step_inv : forall cond fuel lx,
  cond (ch lx) = true -> lexer_inv (readWhile cond (S fuel) lx).
Proof.
  intros cond fuel lx H. simpl. rewrite H. apply readWhile_inv, readChar_inv.
Qed.

Lemma readWhile_S : forall cond fuel lx,
  readWhile cond (S fuel) lx
  = if cond (ch lx) then readWhile cond fuel (readChar lx) else lx.
Proof. reflexivity. Qed.

(** The fuel of the scanning loops is enough: the loop is left because its
    condition fails, for every condition that fails on the sentinel 0. *)
Lemma readWhile_exit_gen : forall cond, cond Ascii.zero = false ->
  forall fuel lx,
    String.length (input lx) - readPosition lx < fuel ->
    cond (ch (readWhile cond (S fuel) lx)) = false.
Proof.
  intros cond Hz fuel. induction fuel as [|fuel IH]; intros lx Hlt; [lia|].
  rewrite readWhile_S.
  destruct (cond (ch lx)) eqn:Hc; [|exact Hc].
  destruct (Nat.leb_spec (String.length (input lx)) (readPosition lx)) as [Hend|Hin].
  - assert (Hch : ch (readChar lx) = Ascii.zero).
    { unfold readChar; simpl.
      destruct (Nat.leb_spec (String.length (input lx)) (readPosition lx)); [reflexivity|lia]. }
    rewrite readWhile_S, Hch, Hz, Hch. exact Hz.
  - apply IH. rewrite readChar_input. unfold readChar; simpl. lia.
Qed.

Lemma readWhile_exit : forall cond lx, cond Ascii.zero = false ->
  cond (ch (readWhile cond (loopFuel lx) lx)) = false.
Proof.
  intros cond lx Hz. unfold loopFuel. apply readWhile_exit_gen; [exact Hz|lia].
Qed.

Lemma skipWhitespace_exit : forall lx, isWhitespace (ch (skipWhitespace lx)) = false.
Proof. intros lx. apply readWhile_exit. reflexivity. Qed.

Lemma skipWhitespace_inv : forall lx, lexer_inv lx -> lexer_inv (skipWhitespace lx).
Proof. intros lx. apply readWhile_inv. Qed.

Lemma skipWhitespace_input : forall lx, input (skipWhitespace lx) = input lx.
Proof. intros lx. apply readWhile_input. Qed.

(** Where NextToken leaves the cursor: one or two reads behind the skipped
    white space, or behind a run of letters or digits that was entered. *)
Lemma NextToken_cursor : forall lx,
  let sk := skipWhitespace lx in
  let lx' := snd (NextToken lx) in
  lx' = readChar sk \/ lx' = readChar (readChar sk) \/
  (isLetter (ch sk) = true /\ lx' = readWhile isLetter (loopFuel sk) sk) \/
  (isDigit (ch sk) = true /\ lx' = readWhile isDigit (loopFuel sk) sk).
Proof.
  intros lx sk lx'. subst lx'. unfold NextToken, readIdentifier, readNumber.
  fold sk. cbv zeta.
  repeat match goal with
         | |- context [if ?b then _ else _] => destruct b eqn:?
         end; cbn [snd]; auto.
Qed.

Lemma NextToken_input : forall lx, input (snd (NextToken lx)) = input lx.
Proof.
  intros lx.
  destruct (NextToken_cursor lx) as [H|[H|[[_ H]|[_ H]]]]; rewrite H;
    rewrite ?readWhile_input, ?readChar_input; apply skipWhitespace_input.
Qed.

Lemma NextToken_inv : forall lx, lexer_inv (snd (NextToken lx)).
Proof.
  intros lx.
  destruct (NextToken_cursor lx) as [H|[H|[[Hc H]|[Hc H]]]]; rewrite H;
    try apply readChar_inv; unfold loopFuel; apply readWhile_step_inv; exact Hc.
Qed.

Lemma New_inv : forall src, lexer_inv (lexer.New src).
Proof. intros src. apply readChar_inv. Qed.

Lemma after_inv : forall n lx, lexer_inv lx -> lexer_inv (after n lx).
Proof.
  induction n as [|n IH]; intros lx H; simpl; [exact H|].
  apply IH, NextToken_inv.
Qed.

Lemma after_input : forall n lx, input (after n lx) = input lx.
Proof.
  induction n as [|n IH]; intros lx; simpl; [reflexivity|].
  rewrite IH. apply NextToken_input.
Qed.

(** C10.  After construction and after every call of NextToken the scanner
    has readPosition = position + 1, its current character is
    input[position] while position < len(input) and the sentinel 0
    otherwise, and its input is the text it was built from. *)
Theorem C10_lexer_invariant : forall (src : string) (n : nat),
  let lx := after n (lexer.New src) in
  readPosition lx = position lx + 1 /\
  ch lx = (if position lx <? String.length (input lx)
           then byteAt (input lx) (position lx)
           else Ascii.zero) /\
  input lx = src.
Proof.
  intros src n lx.
  destruct (after_inv n (lexer.New src) (New_inv src)) as [H1 H2].
  split; [exact H1|]. split; [exact H2|].
  unfold lx. rewrite after_input. reflexivity.
Qed.

(** The slices taken by [readIdentifier] and [readNumber] are within the
    bounds of the input, so that Go's bounds check never fires there. *)
Lemma readWhile_position : forall cond, cond Ascii.zero = false ->
  forall fuel lx, lexer_inv lx ->
    position lx <= position (readWhile cond fuel lx) /\
    (position lx <= String.length (input lx) ->
     position (readWhile cond fuel lx) <= String.length (input lx)).
Proof.
  intros cond Hz fuel. induction fuel as [|fuel IH]; intros lx Hinv.
  - simpl. split; [lia | auto].
  - rewrite readWhile_S. destruct (cond (ch lx)) eqn:Hc; [|split; [lia | auto]].
    destruct (IH (readChar lx) (readChar_inv lx)) as [H1 H2].
    rewrite readChar_input in H2.
    destruct Hinv as [Hrp Hch].
    assert (Hlt : position lx < String.length (input lx)).
    { destruct (Nat.ltb_spec (position lx) (String.length (input lx))) as [H|H];
        [exact H|]. rewrite Hch, Hz in Hc. discriminate. }
    change (position (readChar lx)) with (readPosition lx) in H1, H2.
    split; [lia|]. intros _. apply H2. lia.
Qed.

Lemma ch_at_end : forall lx, lexer_inv lx -> at_end lx -> ch lx = Ascii.zero.
Proof.
  intros lx [_ Hch] Hend. unfold at_end in Hend. rewrite Hch.
  destruct (Nat.ltb_spec (position lx) (String.length (input lx))); [lia|reflexivity].
Qed.

Lemma skipWhitespace_id : forall lx,
  isWhitespace (ch lx) = false -> skipWhitespace lx = lx.
Proof.
  intros lx H. unfold skipWhitespace, loopFuel. rewrite readWhile_S, H. reflexivity.
Qed.

(** At the end of the input NextToken hands out EOF and reads once more. *)
Lemma NextToken_at_end : forall lx,
  lexer_inv lx -> at_end lx -> NextToken lx = (eofToken, readChar lx).
Proof.
  intros lx Hinv Hend. pose proof (ch_at_end lx Hinv Hend) as Hch.
  unfold NextToken. rewrite skipWhitespace_id by (rewrite Hch; reflexivity).
  cbv zeta. rewrite Hch. reflexivity.
Qed.

Lemma readChar_at_end : forall lx,
  lexer_inv lx -> at_end lx -> at_end (readChar lx).
Proof.
  intros lx [Hrp _] Hend. unfold at_end in *. simpl. lia.
Qed.

Lemma after_at_end : forall n lx,
  lexer_inv lx -> at_end lx ->
  lexer_inv (after n lx) /\ at_end (after n lx) /\
  position (after n lx) = position lx + n.
Proof.
  induction n as [|n IH]; intros lx Hinv Hend; simpl.
  - repeat split; try assumption; try apply Hinv. lia.
  - rewrite NextToken_at_end by assumption. cbn [snd].
    destruct (IH (readChar lx) (readChar_inv lx) (readChar_at_end lx Hinv Hend))
      as (H1 & H2 & H3).
    repeat split; try assumption; try apply H1.
    rewrite H3. destruct Hinv as [Hrp _]. simpl. lia.
Qed.

(** C7, as the code has it.  Once the cursor of a scanner stands at the end
    of its input, NextToken hands out an EOF token with the empty literal;
    the call still moves position and readPosition on by one, but the current
    character stays the sentinel 0 and the cursor stays at the end, and so
    every later call hands out the same EOF token again. *)
Theorem C7_eof_repeats : forall (lx : Lexer) (n : nat),
  lexer_inv lx -> at_end lx ->
  fst (NextToken (after n lx)) = eofToken /\
  ch (after n lx) = Ascii.zero /\
  position (snd (NextToken (after n lx))) = position lx + n + 1 /\
  readPosition (snd (NextToken (after n lx))) = readPosition lx + n + 1 /\
  at_end (snd (NextToken (after n lx))).
Proof.
  intros lx n Hinv Hend.
  destruct (after_at_end n lx Hinv Hend) as (H1 & H2 & H3).
  rewrite (NextToken_at_end _ H1 H2). cbn [fst snd].
  split; [reflexivity|]. split; [apply ch_at_end; assumption|].
  destruct H1 as [Hrp Hch]. destruct Hinv as [Hrp0 _].
  repeat split; simpl; try lia.
  apply readChar_at_end; [split|]; assumption.
Qed.

Lemma C7_eof_repeats_witness :
  fst (NextToken (after 3 (lexer.New "x"))) = eofToken /\
  ch (after 3 (lexer.New "x")) = Ascii.zero /\
  position (snd (NextToken (after 3 (lexer.New "x")))) = 4.
Proof.
  assert (Hinv : lexer_inv (after 1 (lexer.New "x")))
    by (unfold lexer_inv; vm_compute; split; reflexivity).
  assert (Hend : at_end (after 1 (lexer.New "x"))) by (unfold at_end; vm_compute; lia).
  destruct (C7_eof_repeats (after 1 (lexer.New "x")) 2 Hinv Hend) as (H1 & H2 & H3 & _).
  split; [exact H1|]. split; [exact H2 | exact H3].
Defined.

(** C7 as the claim words it fails: a call at the end of the input does move
    the cursor.  The scanner built from the empty text has its cursor at the
    end, at position 0, and the call leaves it at position 1. *)
Lemma C7_cursor_still_advances :
  lexer_inv (lexer.New EmptyString) /\ at_end (lexer.New EmptyString) /\
  fst (NextToken (lexer.New EmptyString)) = eofToken /\
  position (lexer.New EmptyString) = 0 /\
  position (snd (NextToken (lexer.New EmptyString))) = 1 /\
  snd (NextToken (lexer.New EmptyString)) <> lexer.New EmptyString.
Proof.
  split; [apply New_inv|].
  split; [unfold at_end; vm_compute; lia|].
  repeat split; try reflexivity.
  vm_compute. discriminate.
Qed.

(** C8.  The text "=+(){},;!*-/<>==" is scanned into ASSIGN, PLUS, LPAREN,
    RPAREN, LBRACE, RBRACE, COMMA, SEMICOLON, BANG, ASTERISK, MINUS, SLASH,
    LT, GT and one EQ token for the two final characters, and then EOF. *)
Theorem C8_operator_tokens :
  fst (tokens 16 (lexer.New "=+(){},;!*-/<>==")) =
  [ {| Typ := ASSIGN; Literal := "=" |}; {| Typ := PLUS; Literal := "+" |};
    {| Typ := LPAREN; Literal := "(" |}; {| Typ := RPAREN; Literal := ")" |};
    {| Typ := LBRACE; Literal := "{" |}; {| Typ := RBRACE; Literal := "}" |};
    {| Typ := COMMA; Literal := "," |}; {| Typ := SEMICOLON; Literal := ";" |};
    {| Typ := BANG; Literal := "!" |}; {| Typ := ASTERISK; Literal := "*" |};
    {| Typ := MINUS; Literal := "-" |}; {| Typ := SLASH; Literal := "/" |};
    {| Typ := LT; Literal := "<" |}; {| Typ := GT; Literal := ">" |};
    {| Typ := EQ; Literal := "==" |}; eofToken ].
Proof. vm_compute. reflexivity. Qed.

(* ================================================================= *)
(** ** Fuel: a call that returns does so with any larger fuel *)

Lemma bind_Returns : forall (A B : Type) (m : outcome A) (k : A -> outcome B) (b : B),
  bind m k = Returns b -> exists a, m = Returns a /\ k a = Returns b.
Proof.
  intros A B m k b H. destruct m as [a|]; simpl in H; [|discriminate].
  exists a. split; [reflexivity | exact H].
Qed.

Lemma skipToSemicolon_mono : forall fuel p r,
  skipToSemicolon fuel p = Returns r ->
  forall fuel', fuel <= fuel' -> skipToSemicolon fuel' p = Returns r.
Proof.
  induction fuel as [|fuel IH]; intros p r H fuel' Hle; [discriminate|].
  destruct fuel' as [|fuel']; [lia|]. simpl in *.
  destruct (curTokenIs p SEMICOLON); [exact H|].
  apply IH with (fuel' := fuel') in H; [exact H | lia].
Qed.

Lemma parseExpression_mono_all : forall fuel,
  (forall prec p, mono (fun n => parseExpression n prec p) fuel) /\
  (forall prec lft p, mono (fun n => parseExpression_loop n prec lft p) fuel) /\
  (forall p, mono (fun n => parsePrefixExpression n p) fuel) /\
  (forall lft p, mono (fun n => parseInfixExpression n lft p) fuel).
Proof.
  unfold mono. induction fuel as [|fuel (IHe & IHl & IHp & IHi)].
  - repeat split; intros; discriminate.
  - repeat split.
    + intros prec p r H fuel' Hle. destruct fuel' as [|fuel']; [lia|].
      simpl in *. destruct (lookup (prefixParseFns p) (Typ (curToken p))) as [fn|];
        [|exact H].
      apply bind_Returns in H. destruct H as (a & Ha & Hk).
      assert (Ha' : match fn with
                    | parseIdentifierFn => Returns (parseIdentifier p)
                    | parseIntegerLiteralFn => Returns (parseIntegerLiteral p)
                    | parsePrefixExpressionFn => parsePrefixExpression fuel' p
                    end = Returns a).
      { destruct fn; try exact Ha. apply (IHp p a Ha). lia. }
      rewrite Ha'. simpl. apply (IHl _ _ _ r Hk). lia.
    + intros prec lft p r H fuel' Hle. destruct fuel' as [|fuel']; [lia|].
      simpl in *.
      destruct (negb (peekTokenIs p SEMICOLON) && (prec <? peekPrecedence p));
        [|exact H].
      destruct (lookup (infixParseFns p) (Typ (peekToken p))) as [[]|]; [|exact H].
      apply bind_Returns in H. destruct H as (a & Ha & Hk).
      rewrite (IHi _ _ a Ha fuel') by lia. simpl. apply (IHl _ _ _ r Hk). lia.
    + intros p r H fuel' Hle. destruct fuel' as [|fuel']; [lia|].
      simpl in *. apply bind_Returns in H. destruct H as (a & Ha & Hk).
      rewrite (IHe _ _ a Ha fuel') by lia. exact Hk.
    + intros lft p r H fuel' Hle. destruct fuel' as [|fuel']; [lia|].
      simpl in *. apply bind_Returns in H. destruct H as (a & Ha & Hk).
      rewrite (IHe _ _ a Ha fuel') by lia. exact Hk.
Qed.

Lemma parseExpression_mono : forall fuel prec p r,
  parseExpression fuel prec p = Returns r ->
  forall fuel', fuel <= fuel' -> parseExpression fuel' prec p = Returns r.
Proof. intros fuel prec p. apply (parseExpression_mono_all fuel). Qed.

Lemma parseStatement_mono : forall fuel p r,
  parseStatement fuel p = Returns r ->
  forall fuel', fuel <= fuel' -> parseStatement fuel' p = Returns r.
Proof.
  intros fuel p r H fuel' Hle. unfold parseStatement in *.
  destruct (String.eqb (Typ (curToken p)) LET).
  - apply bind_Returns in H. destruct H as (a & Ha & Hk).
    assert (Ha' : parseLetStatement fuel' p = Returns a).
    { unfold parseLetStatement in *. destruct (expectPeek IDENT p) as [ok p1].
      destruct (negb ok); [exact Ha|].
      destruct (expectPeek ASSIGN p1) as [ok2 p2]. destruct (negb ok2); [exact Ha|].
      apply bind_Returns in Ha. destruct Ha as (b & Hb & Hk').
      rewrite (skipToSemicolon_mono _ _ _ Hb fuel' Hle). exact Hk'. }
    rewrite Ha'. exact Hk.
  - destruct (String.eqb (Typ (curToken p)) RETURN).
    + apply bind_Returns in H. destruct H as (a & Ha & Hk).
      assert (Ha' : parseReturnStatement fuel' p = Returns a).
      { unfold parseReturnStatement in *.
        apply bind_Returns in Ha. destruct Ha as (b & Hb & Hk').
        rewrite (skipToSemicolon_mono _ _ _ Hb fuel' Hle). exact Hk'. }
      rewrite Ha'. exact Hk.
    + apply bind_Returns in H. destruct H as (a & Ha & Hk).
      assert (Ha' : parseExpressionStatement fuel' p = Returns a).
      { unfold parseExpressionStatement in *.
        apply bind_Returns in Ha. destruct Ha as (b & Hb & Hk').
        rewrite (parseExpression_mono _ _ _ _ Hb fuel' Hle). exact Hk'. }
      rewrite Ha'. exact Hk.
Qed.

Lemma ParseProgram_loop_mono : forall fuel stmts p r,
  ParseProgram_loop fuel stmts p = Returns r ->
  forall fuel', fuel <= fuel' -> ParseProgram_loop fuel' stmts p = Returns r.
Proof.
  induction fuel as [|fuel IH]; intros stmts p r H fuel' Hle; [discriminate|].
  destruct fuel' as [|fuel']; [lia|]. simpl in *.
  destruct (curTokenIs p EOF); [exact H|].
  apply bind_Returns in H. destruct H as (a & Ha & Hk).
  rewrite (parseStatement_mono _ _ _ Ha fuel') by lia. simpl.
  apply (IH _ _ _ Hk). lia.
Qed.

Lemma parse_mono : forall fuel src r,
  parse fuel src = Returns r ->
  forall fuel', fuel <= fuel' -> parse fuel' src = Returns r.
Proof.
  intros fuel src r H fuel' Hle. unfold parse, ParseProgram in *.
  apply bind_Returns in H. destruct H as (a & Ha & Hk).
  rewrite (ParseProgram_loop_mono _ _ _ _ Ha fuel' Hle). exact Hk.
Qed.

(** The result of a parse does not depend on the fuel it was given. *)
Lemma parse_deterministic : forall fuel1 fuel2 src r1 r2,
  parse fuel1 src = Returns r1 -> parse fuel2 src = Returns r2 -> r1 = r2.
Proof.
  intros fuel1 fuel2 src r1 r2 H1 H2.
  apply parse_mono with (fuel' := Nat.max fuel1 fuel2) in H1; [|lia].
  apply parse_mono with (fuel' := Nat.max fuel1 fuel2) in H2; [|lia].
  rewrite H1 in H2. injection H2. auto.
Qed.

Lemma render_mono : forall fuel src r,
  render fuel src = Returns r ->
  forall fuel', fuel <= fuel' -> render fuel' src = Returns r.
Proof.
  intros fuel src r H fuel' Hle. unfold render in *.
  apply bind_Returns in H. destruct H as (a & Ha & Hk).
  rewrite (parse_mono _ _ _ Ha fuel' Hle). exact Hk.
Qed.

(* ================================================================= *)
(** ** Precedence and associativity on the four sample inputs *)

(** C3.  With fuel for 16 nested calls and loop turns, and so with any
    larger fuel, "-a * b" is parsed without diagnostics into a program that
    renders as "((-a) * b)", "a + b + c" into "((a + b) + c)",
    "a + b * c" into "(a + (b * c))" and "a * b / c" into "((a * b) / c)". *)
Theorem C3_precedence_rendering : forall fuel, 16 <= fuel ->
  render fuel "-a * b" = Returns (Some "((-a) * b)", []) /\
  render fuel "a + b + c" = Returns (Some "((a + b) + c)", []) /\
  render fuel "a + b * c" = Returns (Some "(a + (b * c))", []) /\
  render fuel "a * b / c" = Returns (Some "((a * b) / c)", []).
Proof.
  intros fuel Hle.
  repeat split; apply render_mono with (fuel := 16); try exact Hle;
    vm_compute; reflexivity.
Qed.

Lemma C3_precedence_rendering_witness :
  render 16 "-a * b" = Returns (Some "((-a) * b)", []) /\
  render 16 "a + b + c" = Returns (Some "((a + b) + c)", []) /\
  render 16 "a + b * c" = Returns (Some "(a + (b * c))", []) /\
  render 16 "a * b / c" = Returns (Some "((a * b) / c)", []).
Proof. apply (C3_precedence_rendering 16). lia. Defined.

(* ================================================================= *)
(** ** Tokens without a prefix rule *)

Lemma errors_addError : forall msg p, Errors (addError msg p) = (Errors p ++ [msg])%list.
Proof. reflexivity. Qed.

(** C4, as the code has it.  Whenever parseExpression is entered on a
    current token whose kind has no prefix rule, it returns no expression,
    consumes no token and records exactly one diagnostic, "no prefix parse
    function for <kind> found".  A statement that starts with such a token
    therefore has no expression.  When the token stands in operand position
    behind a prefix operator (the true of "!true"), the prefix rule still
    builds its node, with the right operand absent, and the statement does
    have an expression. *)
Theorem C4_no_prefix_rule : forall (fuel prec : nat) (p : Parser),
  lookup (prefixParseFns p) (Typ (curToken p)) = None ->
  let msg := "no prefix parse function for " ++ Typ (curToken p) ++ " found" in
  let p' := addError msg p in
  Errors p' = (Errors p ++ [msg])%list /\
  curToken p' = curToken p /\ peekToken p' = peekToken p /\ l p' = l p /\
  parseExpression (S fuel) prec p = Returns (None, p') /\
  parseExpressionStatement (S fuel) p
  = Returns (Some {| ExpressionStatement_Token := curToken p; Expression_ := None |},
             if peekTokenIs p' SEMICOLON then nextToken p' else p') /\
  (forall q, nextToken q = p ->
     parsePrefixExpression (S (S fuel)) q
     = Returns (Some (PrefixExpression (curToken q) (Literal (curToken q)) None), p')).
Proof.
  intros fuel prec p Hnone msg p'.
  assert (He : forall pr, parseExpression (S fuel) pr p = Returns (None, p')).
  { intros pr. simpl. rewrite Hnone. reflexivity. }
  repeat split.
  - apply He.
  - unfold parseExpressionStatement. rewrite He. reflexivity.
  - intros q Hq. change (parsePrefixExpression (S (S fuel)) q)
      with (r <- parseExpression (S fuel) PREFIX (nextToken q) ;;
            Returns (Some (PrefixExpression (curToken q) (Literal (curToken q)) (fst r)),
                     snd r)).
    rewrite Hq, He. reflexivity.
Qed.

Lemma C4_no_prefix_rule_witness :
  parseExpressionStatement 1 (parser.New (lexer.New "true"))
  = Returns (Some {| ExpressionStatement_Token := {| Typ := TRUE; Literal := "true" |};
                     Expression_ := None |},
             addError "no prefix parse function for TRUE found"
               (parser.New (lexer.New "true"))).
Proof.
  pose proof (C4_no_prefix_rule 0 LOWEST (parser.New (lexer.New "true")) eq_refl)
    as (_ & _ & _ & _ & _ & H & _).
  exact H.
Defined.

(** C4 as the claim words it fails on its own example: the statement parsed
    from "!true" does have an expression, the prefix node of the operator
    with no right operand; one diagnostic is recorded. *)
Lemma C4_bang_true_keeps_expression :
  exists prog p,
    parse 4 "!true" = Returns (prog, p) /\
    Statements prog =
      [ExprStmt (Some {| ExpressionStatement_Token := {| Typ := BANG; Literal := "!" |};
                         Expression_ :=
                           Some (PrefixExpression {| Typ := BANG; Literal := "!" |} "!" None) |})] /\
    Errors p = ["no prefix parse function for TRUE found"] /\
    ~ (forall es, In (ExprStmt (Some es)) (Statements prog) -> Expression_ es = None).
Proof.
  eexists. eexists. split; [vm_compute; reflexivity|].
  split; [reflexivity|]. split; [reflexivity|].
  intros H. specialize (H _ (or_introl eq_refl)). discriminate H.
Qed.

(* ================================================================= *)
(** ** Integer literals *)

Lemma parseDigits_nonneg : forall base s acc n,
  (0 <= acc)%Z -> strconv.parseDigits base s acc = Some n -> (0 <= n)%Z.
Proof.
  intros base s. induction s as [|c s IH]; intros acc n Hacc H; simpl in H.
  - injection H as <-. exact Hacc.
  - destruct (Ascii.eqb c "_"); [eapply IH; eauto|].
    destruct (strconv.digitVal c) as [d|]; [|discriminate].
    destruct (base <=? d); [discriminate|].
    eapply IH; [|exact H]. lia.
Qed.

Lemma ParseUint0_nonneg : forall s n, strconv.ParseUint0 s = Some n -> (0 <= n)%Z.
Proof.
  intros s n H. unfold strconv.ParseUint0 in H.
  destruct s as [|c r]; [discriminate|].
  destruct (if Ascii.eqb c "0" then _ else _) as [base digits].
  destruct (strconv.parseDigits base digits 0) as [m|] eqn:Hd; [|discriminate].
  destruct (_ && _); [discriminate|].
  destruct (m <=? 18446744073709551615)%Z; [|discriminate].
  injection H as <-. eapply parseDigits_nonneg; [|exact Hd]. lia.
Qed.

(** What ParseInt returns fits a signed 64-bit integer. *)
Lemma ParseInt_range : forall s v,
  strconv.ParseInt s = Some v ->
  (- 9223372036854775808 <= v <= 9223372036854775807)%Z.
Proof.
  intros s v H. unfold strconv.ParseInt in H.
  destruct s as [|c r]; [discriminate|].
  destruct (strconv.ParseUint0 _) as [un|] eqn:Hu; [|discriminate].
  apply ParseUint0_nonneg in Hu.
  destruct (Ascii.eqb c "-"); simpl in H.
  - destruct (Z.ltb_spec 9223372036854775808 un); [discriminate|].
    injection H as <-. lia.
  - destruct (Z.leb_spec 9223372036854775808 un); [discriminate|].
    injection H as <-. lia.
Qed.

(** The base is read off the prefix of the literal, and the range is that of
    a signed 64-bit integer. *)
Lemma ParseInt_examples :
  strconv.ParseInt "5" = Some 5%Z /\
  strconv.ParseInt "0x1F" = Some 31%Z /\
  strconv.ParseInt "0b101" = Some 5%Z /\
  strconv.ParseInt "010" = Some 8%Z /\
  strconv.ParseInt "08" = None /\
  strconv.ParseInt "1_000" = Some 1000%Z /\
  strconv.ParseInt "9223372036854775807" = Some 9223372036854775807%Z /\
  strconv.ParseInt "9223372036854775808" = None /\
  strconv.ParseInt "-9223372036854775808" = Some (-9223372036854775808)%Z /\
  strconv.ParseInt "12a" = None /\
  strconv.ParseInt EmptyString = None.
Proof. repeat split. Qed.

(** C5.  On a current token with an ASCII literal, parseIntegerLiteral
    converts the literal with ParseInt in base 0 and 64 bits.  It returns no
    expression and records the diagnostic "could not parse <quoted literal>
    as integer" if and only if the conversion fails; otherwise it records
    nothing and returns an IntegerLiteral node that carries the token and
    the converted value, which lies in the signed 64-bit range. *)
Theorem C5_integer_literal : forall (p : Parser),
  strconv.isASCII (Literal (curToken p)) = true ->
  let lit := Literal (curToken p) in
  let msg := "could not parse " ++ strconv.Quote lit ++ " as integer" in
  (strconv.ParseInt lit = None <-> fst (parseIntegerLiteral p) = None) /\
  (strconv.ParseInt lit = None ->
     parseIntegerLiteral p = (None, addError msg p) /\
     Errors (snd (parseIntegerLiteral p)) = (Errors p ++ [msg])%list) /\
  (forall v, strconv.ParseInt lit = Some v ->
     parseIntegerLiteral p = (Some (IntegerLiteral (curToken p) v), p) /\
     (- 2 ^ 63 <= v < 2 ^ 63)%Z).
Proof.
  intros p _ lit msg. unfold parseIntegerLiteral. fold lit.
  destruct (strconv.ParseInt lit) as [v|] eqn:Hv.
  - split; [split; intros H; discriminate H|].
    split; [intros H; discriminate H|].
    intros v' Hv'. injection Hv' as <-. split; [reflexivity|].
    apply ParseInt_range in Hv. lia.
  - split; [split; reflexivity|].
    split; [intros _; split; reflexivity|].
    intros v' Hv'. discriminate Hv'.
Qed.

Lemma C5_integer_literal_witness :
  let p := parser.New (lexer.New "08") in
  parseIntegerLiteral p
  = (None, addError ("could not parse " ++ strconv.Quote "08" ++ " as integer") p) /\
  parseIntegerLiteral (parser.New (lexer.New "0x1F"))
  = (Some (IntegerLiteral {| Typ := INT; Literal := "0" |} 0),
     parser.New (lexer.New "0x1F")).
Proof.
  intros p. split.
  - apply (C5_integer_literal p); reflexivity.
  - apply (C5_integer_literal (parser.New (lexer.New "0x1F"))); reflexivity.
Defined.

(* ================================================================= *)
(** ** Failed let statements *)

(** A let statement whose next token is not an identifier: one diagnostic,
    no token consumed, a nil node; and likewise when the token behind the
    name is not the assignment sign (the name has been consumed then). *)
Lemma parseLetStatement_fails : forall fuel p,
  (peekTokenIs p IDENT = false ->
   parseLetStatement fuel p
   = Returns (None, addError (peekErrorMsg IDENT (Typ (peekToken p))) p)) /\
  (peekTokenIs p IDENT = true -> peekTokenIs (nextToken p) ASSIGN = false ->
   parseLetStatement fuel p
   = Returns (None, addError (peekErrorMsg ASSIGN (Typ (peekToken (nextToken p))))
                      (nextToken p))).
Proof.
  intros fuel p. unfold parseLetStatement, expectPeek. split.
  - intros H. rewrite H. reflexivity.
  - intros H1 H2. rewrite H1. cbn [negb]. rewrite H2. reflexivity.
Qed.

(** The nil node of a failed let statement reaches ParseProgram wrapped in a
    Statement interface value, which is not nil, and is appended. *)
Lemma ParseProgram_loop_failed_let : forall fuel stmts p,
  curTokenIs p EOF = false ->
  String.eqb (Typ (curToken p)) LET = true ->
  peekTokenIs p IDENT = false ->
  ParseProgram_loop (S fuel) stmts p
  = ParseProgram_loop fuel (stmts ++ [LetStmt None])%list
      (nextToken (addError (peekErrorMsg IDENT (Typ (peekToken p))) p)).
Proof.
  intros fuel stmts p Heof Hlet Hpeek. cbn [ParseProgram_loop]. rewrite Heof.
  unfold parseStatement. rewrite Hlet.
  destruct (parseLetStatement_fails fuel p) as [H _]. rewrite (H Hpeek). reflexivity.
Qed.

(** C6, on the input "let = 5;".  The diagnostics are recorded in the order
    met and the parse goes on with the following tokens, as claimed; but the
    failed let statement is not left out of the program: its nil node is the
    first of three statements. *)
Theorem C6_failed_let_is_kept : forall fuel, 5 <= fuel ->
  exists p,
    parse fuel "let = 5;"
    = Returns ({| Statements :=
                    [ LetStmt None;
                      ExprStmt (Some {| ExpressionStatement_Token :=
                                          {| Typ := ASSIGN; Literal := "=" |};
                                        Expression_ := None |});
                      ExprStmt (Some {| ExpressionStatement_Token :=
                                          {| Typ := INT; Literal := "5" |};
                                        Expression_ :=
                                          Some (IntegerLiteral
                                                  {| Typ := INT; Literal := "5" |} 5%Z) |}) ] |},
               p) /\
    Errors p = [ "expected next token to be IDENT, got = instead";
                 "no prefix parse function for = found" ].
Proof.
  intros fuel Hle. eexists. split.
  - apply parse_mono with (fuel := 5); [|exact Hle]. vm_compute. reflexivity.
  - reflexivity.
Qed.

Lemma C6_failed_let_is_kept_witness :
  exists prog p, parse 5 "let = 5;" = Returns (prog, p) /\
                 nth_error (Statements prog) 0 = Some (LetStmt None) /\
                 List.length (Statements prog) = 3 /\
                 List.length (Errors p) = 2.
Proof.
  destruct (C6_failed_let_is_kept 5) as (p & Hp & He); [lia|].
  eexists. exists p. split; [exact Hp|].
  split; [reflexivity|]. split; [reflexivity|]. rewrite He. reflexivity.
Defined.

(* ================================================================= *)
(** ** A missing semicolon at the end of the input *)

Lemma nextToken_at_end : forall p,
  lexer_inv (l p) -> at_end (l p) ->
  nextToken p = {| l := readChar (l p); curToken := peekToken p; peekToken := eofToken;
                   errors := errors p; prefixParseFns := prefixParseFns p;
                   infixParseFns := infixParseFns p |}.
Proof.
  intros p Hinv Hend. unfold nextToken. rewrite (NextToken_at_end _ Hinv Hend).
  reflexivity.
Qed.

Lemma nextToken_stuck : forall p, stuck p -> stuck (nextToken p).
Proof.
  intros p (Hinv & Hend & Hcur & Hpeek).
  rewrite (nextToken_at_end p Hinv Hend). unfold stuck.
  split; [apply readChar_inv|].
  split; [exact (readChar_at_end _ Hinv Hend)|].
  split; [exact Hpeek | reflexivity].
Qed.

(** From such a state the loop that looks for the semicolon never ends. *)
Lemma skipToSemicolon_stuck : forall fuel p,
  stuck p -> skipToSemicolon fuel p = Timeout.
Proof.
  induction fuel as [|fuel IH]; intros p Hs; [reflexivity|].
  simpl. pose proof Hs as (_ & _ & Hcur & _). rewrite Hcur.
  apply IH. apply nextToken_stuck. exact Hs.
Qed.

Lemma ParseProgram_loop_let_stuck : forall fuel stmts p,
  curTokenIs p EOF = false ->
  String.eqb (Typ (curToken p)) LET = true ->
  peekTokenIs p IDENT = true ->
  peekTokenIs (nextToken p) ASSIGN = true ->
  stuck (nextToken (nextToken p)) ->
  ParseProgram_loop fuel stmts p = Timeout.
Proof.
  intros fuel stmts p Heof Hlet Hid Hassign Hstuck.
  destruct fuel as [|fuel]; [reflexivity|].
  cbn [ParseProgram_loop]. rewrite Heof.
  unfold parseStatement. rewrite Hlet.
  unfold parseLetStatement, expectPeek. rewrite Hid. cbn [negb].
  rewrite Hassign. cbn [negb].
  rewrite (skipToSemicolon_stuck fuel _ Hstuck). reflexivity.
Qed.

Lemma ParseProgram_loop_return_stuck : forall fuel stmts p,
  curTokenIs p EOF = false ->
  String.eqb (Typ (curToken p)) LET = false ->
  String.eqb (Typ (curToken p)) RETURN = true ->
  stuck (nextToken p) ->
  ParseProgram_loop fuel stmts p = Timeout.
Proof.
  intros fuel stmts p Heof Hlet Hret Hstuck.
  destruct fuel as [|fuel]; [reflexivity|].
  cbn [ParseProgram_loop]. rewrite Heof.
  unfold parseStatement. rewrite Hlet, Hret.
  unfold parseReturnStatement.
  rewrite (skipToSemicolon_stuck fuel _ Hstuck). reflexivity.
Qed.

Ltac stuck_by_computation :=
  unfold stuck, lexer_inv, at_end; vm_compute; repeat split; lia.

(** C1, on the inputs "let x = 5" and "return 5".  Whatever the fuel, the
    parse of a let or return statement that is not closed by a semicolon
    before the end of the input is still running when the fuel is spent:
    the scanner hands out EOF for ever and the loop that looks for the
    semicolon stops on nothing else.  The parse does not terminate. *)
Theorem C1_missing_semicolon_never_returns : forall fuel,
  parse fuel "let x = 5" = Timeout /\ parse fuel "return 5" = Timeout.
Proof.
  intros fuel. unfold parse, ParseProgram. split.
  - rewrite ParseProgram_loop_let_stuck; [reflexivity | | | | |];
      try (vm_compute; reflexivity). stuck_by_computation.
  - rewrite ParseProgram_loop_return_stuck; [reflexivity | | | |];
      try (vm_compute; reflexivity). stuck_by_computation.
Qed.

(* ================================================================= *)
(** ** The scanner seen through the text that is left to read *)

Lemma append_assoc : forall a b c : string, (a ++ b) ++ c = a ++ (b ++ c).
Proof. induction a as [|x a IH]; intros b c; simpl; [|rewrite IH]; reflexivity. Qed.

Lemma length_append : forall a b : string,
  String.length (a ++ b) = String.length a + String.length b.
Proof. induction a as [|x a IH]; intros b; simpl; [|rewrite IH]; reflexivity. Qed.

Lemma byteAt_drop : forall n s, byteAt s n = head0 (drop n s).
Proof.
  unfold byteAt. induction n as [|n IH]; intros [|c s]; simpl; try reflexivity.
  apply IH.
Qed.

Lemma drop_S : forall n s, drop (S n) s = tail (drop n s).
Proof.
  induction n as [|n IH]; intros [|c s]; try reflexivity.
  change (drop (S (S n)) (String c s)) with (drop (S n) s).
  rewrite IH. reflexivity.
Qed.

Lemma length_drop : forall n s, String.length (drop n s) = String.length s - n.
Proof. induction n as [|n IH]; intros [|c s]; simpl; try reflexivity. apply IH. Qed.

Lemma length_zero : forall s, String.length s = 0 -> s = EmptyString.
Proof. intros [|c s] H; [reflexivity | discriminate H]. Qed.

Lemma substring_prefix : forall w r, String.substring 0 (String.length w) (w ++ r) = w.
Proof.
  induction w as [|c w IH]; intros r; simpl.
  - destruct r; reflexivity.
  - rewrite IH. reflexivity.
Qed.

Lemma substring_drop : forall n s w r,
  drop n s = w ++ r -> String.substring n (String.length w) s = w.
Proof.
  induction n as [|n IH]; intros s w r H.
  - simpl in H. subst s. apply substring_prefix.
  - destruct s as [|c s]; simpl in H.
    + destruct w; [reflexivity | discriminate H].
    + simpl. apply (IH _ _ r H).
Qed.

Lemma inv_ch : forall lx, lexer_inv lx -> ch lx = head0 (view lx).
Proof.
  intros lx [_ Hch]. rewrite Hch. unfold view.
  destruct (Nat.ltb_spec (position lx) (String.length (input lx))) as [H|H].
  - apply byteAt_drop.
  - rewrite (length_zero (drop (position lx) (input lx))); [reflexivity|].
    rewrite length_drop. lia.
Qed.

Lemma view_readChar : forall lx, lexer_inv lx -> view (readChar lx) = tail (view lx).
Proof.
  intros lx [Hrp _]. unfold view. simpl. rewrite Hrp, Nat.add_1_r. apply drop_S.
Qed.

Lemma peekChar_view : forall lx, lexer_inv lx -> peekChar lx = head0 (tail (view lx)).
Proof.
  intros lx Hinv. rewrite <- (view_readChar lx Hinv).
  rewrite <- (inv_ch _ (readChar_inv lx)). reflexivity.
Qed.

Lemma view_empty_at_end : forall lx, view lx = EmptyString -> at_end lx.
Proof.
  intros lx H. unfold at_end. unfold view in H.
  pose proof (length_drop (position lx) (input lx)) as Hl. rewrite H in Hl.
  simpl in Hl. lia.
Qed.

(** A scanning loop runs over a run of characters that all satisfy its
    condition and stops in front of the first one that does not. *)
Lemma readWhile_view : forall cond, cond Ascii.zero = false ->
  forall w r fuel lx,
    lexer_inv lx -> view lx = w ++ r ->
    all_chars cond w = true -> cond (head0 r) = false ->
    String.length w < fuel ->
    lexer_inv (readWhile cond fuel lx) /\
    view (readWhile cond fuel lx) = r /\
    position (readWhile cond fuel lx) = position lx + String.length w /\
    input (readWhile cond fuel lx) = input lx.
Proof.
  intros cond Hz. induction w as [|c w IH]; intros r fuel lx Hinv Hview Hall Hr Hlt.
  - destruct fuel as [|fuel]; [lia|]. rewrite readWhile_S.
    simpl in Hview. rewrite (inv_ch lx Hinv), Hview, Hr.
    repeat split; try assumption; try apply Hinv. simpl. lia.
  - destruct fuel as [|fuel]; [simpl in Hlt; lia|]. rewrite readWhile_S.
    simpl in Hall. apply andb_true_iff in Hall. destruct Hall as [Hc Hall].
    rewrite (inv_ch lx Hinv), Hview. simpl head0. rewrite Hc.
    destruct (IH r fuel (readChar lx)) as (H1 & H2 & H3 & H4);
      try assumption.
    + apply readChar_inv.
    + rewrite (view_readChar lx Hinv), Hview. reflexivity.
    + simpl in Hlt. lia.
    + split; [exact H1|]. split; [exact H2|]. split; [|exact H4].
      rewrite H3. destruct Hinv as [Hrp _]. simpl. lia.
Qed.

Lemma loopFuel_enough : forall lx w r,
  lexer_inv lx -> view lx = w ++ r -> String.length w < loopFuel lx.
Proof.
  intros lx w r [Hrp _] Hview. unfold loopFuel.
  assert (Hl : String.length (view lx) = String.length (input lx) - position lx)
    by apply length_drop.
  rewrite Hview, length_append in Hl. lia.
Qed.

Ltac refute_char lx H :=
  repeat match goal with
         | |- context [Ascii.eqb (ch lx) ?d] =>
             destruct (Ascii.eqb_spec (ch lx) d) as [E|E];
             [rewrite E in H; vm_compute in H; discriminate H | clear E]
         end;
  cbv iota.

Lemma isLetter_not_whitespace : forall c, isLetter c = true -> isWhitespace c = false.
Proof.
  intros c H. unfold isWhitespace.
  repeat match goal with
         | |- context [Ascii.eqb c ?d] =>
             destruct (Ascii.eqb_spec c d) as [E|E];
             [rewrite E in H; vm_compute in H; discriminate H | clear E]
         end.
  reflexivity.
Qed.

(** NextToken in front of a letter: the identifier path. *)
Lemma NextToken_letter : forall lx,
  isLetter (ch lx) = true ->
  NextToken lx = ({| Typ := LookupIdent (fst (readIdentifier lx));
                     Literal := fst (readIdentifier lx) |},
                  snd (readIdentifier lx)).
Proof.
  intros lx H. unfold NextToken.
  rewrite (skipWhitespace_id lx (isLetter_not_whitespace _ H)). cbv zeta.
  refute_char lx H. rewrite H.
  destruct (readIdentifier lx) as [lit l1]. reflexivity.
Qed.

(** A word in front of the cursor, ended by something that is no letter, is
    handed out as one token, classified by the keyword table. *)
Lemma NextToken_word : forall lx w r,
  lexer_inv lx -> view lx = w ++ r ->
  w <> EmptyString -> all_chars isLetter w = true -> isLetter (head0 r) = false ->
  exists lx',
    NextToken lx = ({| Typ := LookupIdent w; Literal := w |}, lx') /\
    lexer_inv lx' /\ view lx' = r.
Proof.
  intros lx w r Hinv Hview Hne Hall Hr.
  assert (Hc : isLetter (ch lx) = true).
  { rewrite (inv_ch lx Hinv), Hview. destruct w as [|c w]; [contradiction|].
    simpl in Hall. apply andb_true_iff in Hall. apply Hall. }
  destruct (readWhile_view isLetter eq_refl w r (loopFuel lx) lx Hinv Hview Hall Hr
              (loopFuel_enough lx w r Hinv Hview)) as (H1 & H2 & H3 & H4).
  exists (readWhile isLetter (loopFuel lx) lx).
  rewrite (NextToken_letter lx Hc). unfold readIdentifier. cbn [fst snd].
  assert (Hs : slice (input (readWhile isLetter (loopFuel lx) lx)) (position lx)
                 (position (readWhile isLetter (loopFuel lx) lx)) = w).
  { unfold slice. rewrite H3, H4.
    replace (position lx + String.length w - position lx) with (String.length w) by lia.
    apply (substring_drop _ _ _ r). exact Hview. }
  rewrite Hs. auto.
Qed.

(** One blank in front of something that is not white space is skipped. *)
Lemma NextToken_space : forall lx r,
  lexer_inv lx -> view lx = String " " r -> isWhitespace (head0 r) = false ->
  NextToken lx = NextToken (readChar lx) /\
  lexer_inv (readChar lx) /\ view (readChar lx) = r.
Proof.
  intros lx r Hinv Hview Hr.
  assert (Hv : view (readChar lx) = r) by (rewrite (view_readChar lx Hinv), Hview; reflexivity).
  assert (Hc : isWhitespace (ch (readChar lx)) = false)
    by (rewrite (inv_ch _ (readChar_inv lx)), Hv; exact Hr).
  assert (Hs : skipWhitespace lx = readChar lx).
  { unfold skipWhitespace, loopFuel. rewrite readWhile_S.
    rewrite (inv_ch lx Hinv), Hview. simpl head0. cbv iota beta.
    change (isWhitespace " ") with true. cbv iota.
    rewrite readWhile_S, Hc. reflexivity. }
  split; [|split; [apply readChar_inv | exact Hv]].
  unfold NextToken. rewrite Hs, (skipWhitespace_id _ Hc). reflexivity.
Qed.

Lemma NextToken_assign : forall lx r,
  lexer_inv lx -> view lx = String "=" r -> Ascii.eqb (head0 r) "=" = false ->
  NextToken lx = ({| Typ := ASSIGN; Literal := "=" |}, readChar lx) /\
  lexer_inv (readChar lx) /\ view (readChar lx) = r.
Proof.
  intros lx r Hinv Hview Hr.
  assert (Hc : ch lx = "="%char) by (rewrite (inv_ch lx Hinv), Hview; reflexivity).
  split; [|split; [apply readChar_inv | rewrite (view_readChar lx Hinv), Hview; reflexivity]].
  unfold NextToken. rewrite skipWhitespace_id by (rewrite Hc; reflexivity).
  cbv zeta. rewrite Hc. rewrite (peekChar_view lx Hinv), Hview. simpl tail.
  change (Ascii.eqb "=" "=") with true. cbv iota. rewrite Hr. reflexivity.
Qed.

Lemma NextToken_semicolon : forall lx r,
  lexer_inv lx -> view lx = String ";" r ->
  NextToken lx = ({| Typ := SEMICOLON; Literal := ";" |}, readChar lx) /\
  lexer_inv (readChar lx) /\ view (readChar lx) = r.
Proof.
  intros lx r Hinv Hview.
  assert (Hc : ch lx = ";"%char) by (rewrite (inv_ch lx Hinv), Hview; reflexivity).
  split; [|split; [apply readChar_inv | rewrite (view_readChar lx Hinv), Hview; reflexivity]].
  unfold NextToken. rewrite skipWhitespace_id by (rewrite Hc; reflexivity).
  cbv zeta. rewrite Hc. reflexivity.
Qed.

Lemma NextToken_eof : forall lx,
  lexer_inv lx -> view lx = EmptyString ->
  NextToken lx = (eofToken, readChar lx) /\
  lexer_inv (readChar lx) /\ view (readChar lx) = EmptyString.
Proof.
  intros lx Hinv Hview.
  split; [apply NextToken_at_end; [exact Hinv | apply view_empty_at_end; exact Hview]|].
  split; [apply readChar_inv|]. rewrite (view_readChar lx Hinv), Hview. reflexivity.
Qed.

(* ================================================================= *)
(** ** Rendering and parsing again: let and return statements *)

Lemma Statement_String_shape : forall s, Statement_String (stmt_of s) = Some (text_of s).
Proof.
  intros [x|]; [|reflexivity]. simpl. f_equal.
  change ("let " ++ x ++ " = ;") with (String "l" (String "e" (String "t" (String " " (x ++ " = ;"))))).
  do 4 f_equal. rewrite append_assoc. reflexivity.
Qed.

Lemma Statements_String_shapes : forall ss,
  Statements_String (map stmt_of ss) = Some (texts ss).
Proof.
  induction ss as [|s ss IH]; [reflexivity|].
  cbn [map Statements_String]. rewrite Statement_String_shape, IH. reflexivity.
Qed.

Lemma nextToken_eq : forall p tok lx,
  NextToken (l p) = (tok, lx) ->
  nextToken p = {| l := lx; curToken := peekToken p; peekToken := tok;
                   errors := errors p; prefixParseFns := prefixParseFns p;
                   infixParseFns := infixParseFns p |}.
Proof. intros p tok lx H. unfold nextToken. rewrite H. reflexivity. Qed.

Lemma nextToken_cur : forall p, curToken (nextToken p) = peekToken p.
Proof. intros p. unfold nextToken. destruct (NextToken (l p)). reflexivity. Qed.

Lemma nextToken_errors : forall p, errors (nextToken p) = errors p.
Proof. intros p. unfold nextToken. destruct (NextToken (l p)). reflexivity. Qed.

Lemma nextToken_l : forall p, l (nextToken p) = snd (NextToken (l p)).
Proof. intros p. unfold nextToken. destruct (NextToken (l p)). reflexivity. Qed.

Lemma nextToken_peek : forall p, peekToken (nextToken p) = fst (NextToken (l p)).
Proof. intros p. unfold nextToken. destruct (NextToken (l p)). reflexivity. Qed.

Lemma scans_word : forall lx w r,
  lexer_inv lx -> view lx = w ++ r ->
  w <> EmptyString -> all_chars isLetter w = true -> isLetter (head0 r) = false ->
  scans lx {| Typ := LookupIdent w; Literal := w |} r.
Proof.
  intros lx w r Hinv Hview Hne Hall Hr.
  destruct (NextToken_word lx w r Hinv Hview Hne Hall Hr) as (lx' & H & H1 & H2).
  unfold scans. rewrite H. auto.
Qed.

Lemma scans_space : forall lx tok r r',
  lexer_inv lx -> view lx = String " " r -> isWhitespace (head0 r) = false ->
  (forall lx1, lexer_inv lx1 -> view lx1 = r -> scans lx1 tok r') ->
  scans lx tok r'.
Proof.
  intros lx tok r r' Hinv Hview Hr Hnext.
  destruct (NextToken_space lx r Hinv Hview Hr) as (H & H1 & H2).
  unfold scans. rewrite H. apply (Hnext _ H1 H2).
Qed.

Lemma scans_assign : forall lx r,
  lexer_inv lx -> view lx = String "=" r -> Ascii.eqb (head0 r) "=" = false ->
  scans lx assignToken r.
Proof.
  intros lx r Hinv Hview Hr.
  destruct (NextToken_assign lx r Hinv Hview Hr) as (H & H1 & H2).
  unfold scans. rewrite H. auto.
Qed.

Lemma scans_semicolon : forall lx r,
  lexer_inv lx -> view lx = String ";" r -> scans lx semicolonToken r.
Proof.
  intros lx r Hinv Hview.
  destruct (NextToken_semicolon lx r Hinv Hview) as (H & H1 & H2).
  unfold scans. rewrite H. auto.
Qed.

Lemma scans_eof : forall lx,
  lexer_inv lx -> view lx = EmptyString -> scans lx eofToken EmptyString.
Proof.
  intros lx Hinv Hview.
  destruct (NextToken_eof lx Hinv Hview) as (H & H1 & H2).
  unfold scans. rewrite H. auto.
Qed.

Lemma ident_name_head : forall x r,
  ident_name x -> isLetter (head0 (x ++ r)) = true.
Proof.
  intros [|c x] r (Hne & Hall & _); [contradiction|].
  simpl in *. apply andb_true_iff in Hall. apply Hall.
Qed.

(** The parser buffers a token: what it holds afterwards. *)
Lemma nextToken_scans : forall p tok r,
  scans (l p) tok r ->
  lexer_inv (l (nextToken p)) /\ view (l (nextToken p)) = r /\
  curToken (nextToken p) = peekToken p /\ peekToken (nextToken p) = tok /\
  errors (nextToken p) = errors p.
Proof.
  intros p tok r (H1 & H2 & H3).
  rewrite nextToken_l, nextToken_cur, nextToken_peek, nextToken_errors. auto.
Qed.

Lemma texts_let : forall x rest,
  texts (SLet x :: rest)
  = "let" ++ String " " (x ++ String " " (String "=" (String " " (String ";" (texts rest))))).
Proof.
  intros x rest. cbn [texts text_of]. rewrite !append_assoc. reflexivity.
Qed.

Lemma texts_return : forall rest,
  texts (SReturn :: rest) = "return" ++ String " " (String ";" (texts rest)).
Proof. reflexivity. Qed.

Lemma scans_space_semicolon : forall lx r,
  lexer_inv lx -> view lx = String " " (String ";" r) -> scans lx semicolonToken r.
Proof.
  intros lx r Hinv Hview.
  apply (scans_space lx _ _ _ Hinv Hview); [reflexivity|].
  intros lx1 H1 H2. apply scans_semicolon; assumption.
Qed.

Lemma scans_space_assign : forall lx r,
  lexer_inv lx -> view lx = String " " (String "=" (String " " r)) ->
  scans lx assignToken (String " " r).
Proof.
  intros lx r Hinv Hview.
  apply (scans_space lx _ _ _ Hinv Hview); [reflexivity|].
  intros lx1 H1 H2. apply scans_assign; [assumption | assumption | reflexivity].
Qed.

Lemma scans_space_ident : forall lx x r,
  ident_name x ->
  lexer_inv lx -> view lx = String " " (x ++ String " " r) ->
  scans lx (identToken x) (String " " r).
Proof.
  intros lx x r Hx Hinv Hview.
  apply (scans_space lx _ _ _ Hinv Hview).
  { apply isLetter_not_whitespace. apply ident_name_head. exact Hx. }
  intros lx1 H1 H2. destruct Hx as (Hne & Hall & Hid).
  unfold identToken. rewrite <- Hid.
  apply scans_word; try assumption. reflexivity.
Qed.

(** Buffering two tokens from the start of a rendering. *)
Lemma prime_state_for : forall ss q,
  Forall shape_ok ss -> lexer_inv (l q) -> view (l q) = texts ss ->
  state_for ss (nextToken (nextToken q)) /\
  errors (nextToken (nextToken q)) = errors q.
Proof.
  intros ss q Hok Hinv Hview. destruct ss as [|[x|] rest].
  - destruct (nextToken_scans q _ _ (scans_eof _ Hinv Hview)) as (A1 & A2 & _ & A4 & A5).
    destruct (nextToken_scans (nextToken q) _ _ (scans_eof _ A1 A2))
      as (B1 & _ & B3 & _ & B5).
    split; [|congruence]. split; [exact B1|]. simpl. congruence.
  - inversion Hok as [|s ss' Hx Hrest]; subst. simpl in Hx.
    rewrite texts_let in Hview.
    assert (S1 : scans (l q) letToken
                   (String " " (x ++ String " "
                      (String "=" (String " " (String ";" (texts rest))))))).
    { apply (scans_word (l q) "let" _ Hinv Hview); [discriminate | reflexivity |].
      reflexivity. }
    destruct (nextToken_scans q _ _ S1) as (A1 & A2 & _ & A4 & A5).
    destruct (nextToken_scans (nextToken q) _ _ (scans_space_ident _ x _ Hx A1 A2))
      as (B1 & B2 & B3 & B4 & B5).
    split; [|congruence]. split; [exact B1|]. simpl.
    split; [congruence|]. split; [exact B4 | exact B2].
  - rewrite texts_return in Hview.
    assert (S1 : scans (l q) returnToken (String " " (String ";" (texts rest)))).
    { apply (scans_word (l q) "return" _ Hinv Hview); [discriminate | reflexivity |].
      reflexivity. }
    destruct (nextToken_scans q _ _ S1) as (A1 & A2 & _ & A4 & A5).
    destruct (nextToken_scans (nextToken q) _ _ (scans_space_semicolon _ _ A1 A2))
      as (B1 & B2 & B3 & B4 & B5).
    split; [|congruence]. split; [exact B1|]. simpl.
    split; [congruence|]. split; [exact B4 | exact B2].
Qed.

Lemma expectPeek_true : forall t p,
  peekTokenIs p t = true -> expectPeek t p = (true, nextToken p).
Proof. intros t p H. unfold expectPeek. rewrite H. reflexivity. Qed.

(** parseStatement on the rendering of a let statement. *)
Lemma parseStatement_let_text : forall x rest p fuel,
  Forall shape_ok rest ->
  state_for (SLet x :: rest) p ->
  parseStatement (S (S fuel)) p
  = Returns (Some (stmt_of (SLet x)), after_stmt (SLet x) p) /\
  state_for rest (nextToken (after_stmt (SLet x) p)) /\
  errors (nextToken (after_stmt (SLet x) p)) = errors p.
Proof.
  intros x rest p fuel Hok (Hinv & Hcur & Hpeek & Hview).
  destruct (nextToken_scans p _ _ (scans_space_assign _ _ Hinv Hview))
    as (A1 & A2 & A3 & A4 & A5).
  destruct (nextToken_scans (nextToken p) _ _ (scans_space_semicolon _ _ A1 A2))
    as (B1 & B2 & B3 & B4 & B5).
  destruct (prime_state_for rest (nextToken (nextToken p)) Hok B1 B2) as (C1 & C2).
  cbn [after_stmt].
  split; [|split; [exact C1 | congruence]].
  unfold parseStatement, parseLetStatement.
  rewrite (expectPeek_true IDENT p) by (unfold peekTokenIs; rewrite Hpeek; reflexivity).
  cbv iota beta. cbn [negb].
  rewrite (expectPeek_true ASSIGN (nextToken p))
    by (unfold peekTokenIs; rewrite A4; reflexivity).
  cbv iota beta. cbn [negb].
  assert (Hskip : skipToSemicolon (S (S fuel)) (nextToken (nextToken p))
                  = Returns (nextToken (nextToken (nextToken p)))).
  { cbn [skipToSemicolon]. unfold curTokenIs.
    rewrite B3, A4. cbn [Typ assignToken]. change (String.eqb ASSIGN SEMICOLON) with false.
    cbv iota. rewrite nextToken_cur, B4. reflexivity. }
  rewrite Hskip, A3, Hpeek, Hcur. reflexivity.
Qed.

(** parseStatement on the rendering of a return statement. *)
Lemma parseStatement_return_text : forall rest p fuel,
  Forall shape_ok rest ->
  state_for (SReturn :: rest) p ->
  parseStatement (S fuel) p = Returns (Some (stmt_of SReturn), after_stmt SReturn p) /\
  state_for rest (nextToken (after_stmt SReturn p)) /\
  errors (nextToken (after_stmt SReturn p)) = errors p.
Proof.
  intros rest p fuel Hok (Hinv & Hcur & Hpeek & Hview).
  destruct (prime_state_for rest p Hok Hinv Hview) as (C1 & C2).
  cbn [after_stmt]. split; [|split; [exact C1 | exact C2]].
  unfold parseStatement, parseReturnStatement.
  assert (Hskip : skipToSemicolon (S fuel) (nextToken p) = Returns (nextToken p)).
  { cbn [skipToSemicolon]. unfold curTokenIs. rewrite nextToken_cur, Hpeek. reflexivity. }
  rewrite Hskip, Hcur. reflexivity.
Qed.

Lemma parseStatement_text : forall s rest p fuel,
  Forall shape_ok rest ->
  state_for (s :: rest) p ->
  parseStatement (S (S fuel)) p = Returns (Some (stmt_of s), after_stmt s p) /\
  state_for rest (nextToken (after_stmt s p)) /\
  errors (nextToken (after_stmt s p)) = errors p.
Proof.
  intros [x|] rest p fuel Hok Hst.
  - apply parseStatement_let_text; assumption.
  - apply parseStatement_return_text; assumption.
Qed.

Lemma ParseProgram_loop_S : forall fuel stmts p,
  ParseProgram_loop (S fuel) stmts p
  = if curTokenIs p EOF then Returns (stmts, p)
    else r <- parseStatement fuel p ;;
         ParseProgram_loop fuel
           (match fst r with
            | Some stmt => (stmts ++ [stmt])%list
            | None => stmts
            end) (nextToken (snd r)).
Proof. reflexivity. Qed.

(** The loop of ParseProgram on the rendering of [ss]: it returns the very
    statements that were rendered, and records no diagnostic. *)
Lemma reparse_loop : forall ss, Forall shape_ok ss ->
  forall acc p, state_for ss p ->
    exists fuel p',
      ParseProgram_loop fuel acc p = Returns ((acc ++ map stmt_of ss)%list, p') /\
      errors p' = errors p.
Proof.
  induction ss as [|s rest IH]; intros Hok acc p Hst.
  - exists 1, p. split; [|reflexivity]. destruct Hst as (_ & Hcur).
    cbn [ParseProgram_loop]. unfold curTokenIs. rewrite Hcur. cbn.
    rewrite app_nil_r. reflexivity.
  - inversion Hok as [|s' ss' Hs Hrest]; subst.
    assert (Hcur : curTokenIs p EOF = false).
    { unfold curTokenIs. destruct s; destruct Hst as (_ & Hc & _); rewrite Hc; reflexivity. }
    destruct (parseStatement_text s rest p 0 Hrest Hst) as (_ & Hq & Hqe).
    destruct (IH Hrest (acc ++ [stmt_of s])%list _ Hq) as (fuel & p' & Hloop & He).
    exists (S (S (S fuel))), p'. split; [|congruence].
    destruct (parseStatement_text s rest p fuel Hrest Hst) as (Hps & _ & _).
    rewrite ParseProgram_loop_S, Hcur, Hps. cbn [bind fst snd].
    rewrite (ParseProgram_loop_mono _ _ _ _ Hloop (S (S fuel))) by lia.
    cbn [map]. rewrite <- app_assoc. reflexivity.
Qed.

(** Parsing the rendering of let and return statements gives these
    statements back, without diagnostics. *)
Lemma reparse_texts : forall ss, Forall shape_ok ss ->
  exists fuel p',
    parse fuel (texts ss) = Returns ({| Statements := map stmt_of ss |}, p') /\
    Errors p' = [].
Proof.
  intros ss Hok. unfold parse, parser.New.
  match goal with
  | |- context [nextToken (nextToken ?q)] =>
      destruct (prime_state_for ss q Hok (New_inv (texts ss)) eq_refl) as (Hst & He);
      destruct (reparse_loop ss Hok [] _ Hst) as (fuel & p' & Hloop & He')
  end.
  exists fuel, p'. unfold ParseProgram. rewrite Hloop.
  split; [reflexivity|]. unfold Errors. rewrite He', He. reflexivity.
Qed.

Lemma span_eq : forall cond s, s = span_run cond s ++ span_rest cond s.
Proof.
  intros cond. induction s as [|c s IH]; [reflexivity|].
  simpl. destruct (cond c); [simpl; rewrite <- IH|]; reflexivity.
Qed.

Lemma span_run_all : forall cond s, all_chars cond (span_run cond s) = true.
Proof.
  intros cond. induction s as [|c s IH]; [reflexivity|].
  simpl. destruct (cond c) eqn:Hc; [simpl; rewrite Hc, IH|]; reflexivity.
Qed.

Lemma span_rest_head : forall cond s,
  cond Ascii.zero = false -> cond (head0 (span_rest cond s)) = false.
Proof.
  intros cond s Hz. induction s as [|c s IH]; [exact Hz|].
  simpl. destruct (cond c) eqn:Hc; [exact IH | exact Hc].
Qed.

Lemma LookupIdent_keyword : forall w,
  (LookupIdent w = LET -> w = "let") /\ (LookupIdent w = RETURN -> w = "return").
Proof.
  intros w. unfold LookupIdent, keywords. cbn [lookup].
  repeat match goal with
         | |- context [String.eqb w ?k] => destruct (String.eqb_spec w k) as [?|?]
         end; split; intros H; try discriminate H; subst; reflexivity.
Qed.

Lemma tok_ok_other : forall t,
  Typ t <> LET -> Typ t <> RETURN -> Typ t <> IDENT -> tok_ok t.
Proof. intros t H1 H2 H3. split; [|split]; intros E; contradiction. Qed.

Lemma NextToken_skipped : forall lx, NextToken lx = NextToken (skipWhitespace lx).
Proof.
  intros lx. unfold NextToken.
  rewrite (skipWhitespace_id (skipWhitespace lx) (skipWhitespace_exit lx)). reflexivity.
Qed.

Lemma NextToken_tok_ok : forall lx, lexer_inv lx -> tok_ok (fst (NextToken lx)).
Proof.
  intros lx Hinv0. rewrite NextToken_skipped.
  pose proof (skipWhitespace_inv lx Hinv0) as Hinv.
  pose proof (skipWhitespace_exit lx) as Hws.
  remember (skipWhitespace lx) as sk eqn:Esk. clear Esk Hinv0 lx.
  destruct (isLetter (ch sk)) eqn:Hl.
  - pose proof (span_eq isLetter (view sk)) as Hv.
    assert (Hne : span_run isLetter (view sk) <> EmptyString).
    { rewrite (inv_ch sk Hinv) in Hl. destruct (view sk) as [|c r]; [discriminate Hl|].
      simpl in *. rewrite Hl. discriminate. }
    destruct (NextToken_word sk _ _ Hinv Hv Hne (span_run_all _ _)
                (span_rest_head _ _ eq_refl)) as (lx' & H & _ & _).
    rewrite H. cbn [fst]. unfold tok_ok. cbn [Typ Literal].
    destruct (LookupIdent_keyword (span_run isLetter (view sk))) as [K1 K2].
    split; [intros E; rewrite (K1 E); reflexivity|].
    split; [intros E; rewrite (K2 E); reflexivity|].
    intros E. split; [exact Hne|]. split; [apply span_run_all | exact E].
  - unfold NextToken. rewrite (skipWhitespace_id sk Hws). cbv zeta. rewrite Hl.
    destruct (readNumber sk) as [lit l1].
    repeat match goal with
           | |- context [if ?b then _ else _] => destruct b
           end; cbn [fst]; apply tok_ok_other; cbn [Typ newToken]; discriminate.
Qed.

Lemma nextToken_ok : forall p, parser_ok p -> parser_ok (nextToken p).
Proof.
  intros p (Hinv & Hcur & Hpeek). unfold parser_ok.
  rewrite nextToken_l, nextToken_cur, nextToken_peek.
  split; [apply NextToken_inv|]. split; [exact Hpeek | apply NextToken_tok_ok; exact Hinv].
Qed.

Lemma skipToSemicolon_ok : forall fuel p q,
  parser_ok p -> skipToSemicolon fuel p = Returns q -> parser_ok q.
Proof.
  induction fuel as [|fuel IH]; intros p q Hok H; [discriminate H|].
  simpl in H. destruct (curTokenIs p SEMICOLON).
  - injection H as <-. exact Hok.
  - apply (IH _ _ (nextToken_ok p Hok) H).
Qed.

Lemma New_ok : forall src, parser_ok (parser.New (lexer.New src)).
Proof.
  intros src. unfold parser.New. apply nextToken_ok, nextToken_ok.
  split; [apply New_inv|]. split; apply tok_ok_other; discriminate.
Qed.

Lemma token_eta : forall t, t = {| Typ := Typ t; Literal := Literal t |}.
Proof. intros [ty lit]. reflexivity. Qed.

(** A let or return node that parseStatement builds from tokens of the
    scanner is one of the two shapes. *)
Lemma parseStatement_shape : forall fuel p os q,
  parser_ok p ->
  parseStatement fuel p = Returns (os, q) ->
  exists s, os = Some s /\
    (let_or_return s -> parser_ok q /\ exists sh, shape_ok sh /\ s = stmt_of sh).
Proof.
  intros fuel p os q Hok H. pose proof Hok as (Hinv & Hcur & Hpeek).
  unfold parseStatement in H.
  destruct (String.eqb_spec (Typ (curToken p)) LET) as [Elet|Elet].
  - apply bind_Returns in H. destruct H as ([ls q'] & Ha & Hk).
    injection Hk as <- <-. cbn [fst snd]. eexists. split; [reflexivity|].
    unfold parseLetStatement, expectPeek in Ha.
    destruct (peekTokenIs p IDENT) eqn:Hid; cbn [negb] in Ha.
    2:{ injection Ha as <- _. intros []. }
    destruct (peekTokenIs (nextToken p) ASSIGN) eqn:Has; cbn [negb] in Ha.
    2:{ injection Ha as <- _. intros []. }
    apply bind_Returns in Ha. destruct Ha as (p3 & Hskip & Hk).
    injection Hk as <- <-. intros _. split.
    + apply (skipToSemicolon_ok _ _ _ (nextToken_ok _ (nextToken_ok _ Hok)) Hskip).
    + unfold peekTokenIs in Hid. apply String.eqb_eq in Hid.
      destruct Hpeek as (_ & _ & Hname). specialize (Hname Hid).
      destruct Hcur as (Hl & _ & _). specialize (Hl Elet).
      exists (SLet (Literal (peekToken p))). split; [exact Hname|].
      cbn [stmt_of]. rewrite nextToken_cur, Hl. unfold identToken.
      rewrite <- Hid. rewrite <- token_eta. reflexivity.
  - destruct (String.eqb_spec (Typ (curToken p)) RETURN) as [Eret|Eret].
    + apply bind_Returns in H. destruct H as ([rs q'] & Ha & Hk).
      injection Hk as <- <-. cbn [fst snd]. eexists. split; [reflexivity|].
      unfold parseReturnStatement in Ha.
      apply bind_Returns in Ha. destruct Ha as (p2 & Hskip & Hk).
      injection Hk as <- <-. intros _. split.
      * apply (skipToSemicolon_ok _ _ _ (nextToken_ok _ Hok) Hskip).
      * destruct Hcur as (_ & Hr & _). specialize (Hr Eret).
        exists SReturn. split; [exact I|]. cbn [stmt_of]. rewrite Hr. reflexivity.
    + apply bind_Returns in H. destruct H as ([es q'] & Ha & Hk).
      injection Hk as <- <-. cbn [fst snd]. eexists. split; [reflexivity|].
      intros [].
Qed.

Lemma ParseProgram_loop_prefix : forall fuel stmts p stmts' p',
  ParseProgram_loop fuel stmts p = Returns (stmts', p') ->
  exists ext, stmts' = (stmts ++ ext)%list.
Proof.
  induction fuel as [|fuel IH]; intros stmts p stmts' p' H; [discriminate H|].
  rewrite ParseProgram_loop_S in H. destruct (curTokenIs p EOF).
  - injection H as <- _. exists []. rewrite app_nil_r. reflexivity.
  - apply bind_Returns in H. destruct H as ([os q] & _ & Hk). cbn [fst snd] in Hk.
    destruct (IH _ _ _ _ Hk) as (ext & ->). destruct os as [s|].
    + exists (s :: ext). rewrite <- app_assoc. reflexivity.
    + exists ext. reflexivity.
Qed.

(** A program of let and return nodes that ParseProgram returns is made of
    the two shapes. *)
Lemma ParseProgram_loop_shapes : forall fuel stmts p stmts' p',
  parser_ok p ->
  ParseProgram_loop fuel stmts p = Returns (stmts', p') ->
  Forall let_or_return stmts' ->
  (exists ss0, Forall shape_ok ss0 /\ stmts = map stmt_of ss0) ->
  exists ss, Forall shape_ok ss /\ stmts' = map stmt_of ss.
Proof.
  induction fuel as [|fuel IH]; intros stmts p stmts' p' Hok H Hall Hacc;
    [discriminate H|].
  rewrite ParseProgram_loop_S in H. destruct (curTokenIs p EOF).
  - injection H as <- _. exact Hacc.
  - apply bind_Returns in H. destruct H as ([os q] & Ha & Hk). cbn [fst snd] in Hk.
    destruct (parseStatement_shape _ _ _ _ Hok Ha) as (s & -> & Hs).
    destruct (ParseProgram_loop_prefix _ _ _ _ _ Hk) as (ext & Hext).
    assert (Hlr : let_or_return s).
    { rewrite Forall_forall in Hall. apply Hall. rewrite Hext.
      apply in_or_app. left. apply in_or_app. right. left. reflexivity. }
    destruct (Hs Hlr) as (Hq & sh & Hsh & ->).
    apply (IH _ _ _ _ (nextToken_ok _ Hq) Hk Hall).
    destruct Hacc as (ss0 & Hss0 & ->). exists (ss0 ++ [sh])%list. split.
    + apply Forall_app. split; [exact Hss0 | constructor; [exact Hsh | constructor]].
    + rewrite map_app. reflexivity.
Qed.

(** C2, as the code has it.  Whenever a text is parsed, without
    diagnostics, into a program that is made of let and return statement
    nodes only, the program has a rendering, and parsing that rendering
    returns, without diagnostics, the very same program, which therefore
    renders identically.  (Expression statements are left out: the
    rendering puts every prefix and infix expression in parentheses, and the
    parser has no prefix rule for a parenthesis.) *)
Theorem C2_let_return_roundtrip : forall fuel src prog p,
  parse fuel src = Returns (prog, p) ->
  Errors p = [] ->
  Forall let_or_return (Statements prog) ->
  exists r,
    Program_String prog = Some r /\
    exists fuel2 p2,
      parse fuel2 r = Returns (prog, p2) /\ Errors p2 = [] /\
      render fuel2 r = Returns (Some r, []).
Proof.
  intros fuel src prog p H _ Hall. unfold parse, ParseProgram in H.
  apply bind_Returns in H. destruct H as ([stmts q] & Ha & Hk).
  injection Hk as <- <-. cbn [Statements fst] in Hall.
  destruct (ParseProgram_loop_shapes _ _ _ _ _ (New_ok src) Ha Hall)
    as (ss & Hss & Hst).
  { exists []. split; [constructor | reflexivity]. }
  cbn [fst]. rewrite Hst.
  exists (texts ss). unfold Program_String. cbn [Statements].
  split; [apply Statements_String_shapes|].
  destruct (reparse_texts ss Hss) as (fuel2 & p2 & Hp & He).
  exists fuel2, p2. split; [exact Hp|]. split; [exact He|].
  unfold render. rewrite Hp. cbn [bind fst snd]. rewrite He.
  unfold Program_String. cbn [Statements]. rewrite Statements_String_shapes.
  reflexivity.
Qed.

Lemma C2_let_return_roundtrip_witness :
  exists r,
    Program_String {| Statements := map stmt_of [SLet "x"; SReturn] |} = Some r /\
    exists fuel2 p2,
      parse fuel2 r = Returns ({| Statements := map stmt_of [SLet "x"; SReturn] |}, p2) /\
      Errors p2 = [] /\
      render fuel2 r = Returns (Some r, []).
Proof.
  eapply (C2_let_return_roundtrip 8 "let x = 1 + 2; return x;").
  - vm_compute. reflexivity.
  - reflexivity.
  - simpl. repeat constructor.
Defined.

(** C2 as the claim words it fails on a binary expression with a binary left
    operand.  "a * b + c" is parsed without diagnostics and renders as
    "((a * b) + c)"; that text is parsed into a program that renders as
    "(a * b)c", whatever the fuel. *)
Lemma C2_expression_roundtrip_fails :
  exists prog p r,
    parse 16 "a * b + c" = Returns (prog, p) /\ Errors p = [] /\
    Program_String prog = Some r /\ r = "((a * b) + c)" /\
    (exists prog2 p2, parse 16 r = Returns (prog2, p2) /\
                      Program_String prog2 = Some "(a * b)c") /\
    (forall fuel2 prog2 p2, parse fuel2 r = Returns (prog2, p2) ->
                            Program_String prog2 <> Some r).
Proof.
  eexists. eexists. eexists.
  split; [vm_compute; reflexivity|]. split; [reflexivity|].
  split; [vm_compute; reflexivity|]. split; [reflexivity|].
  assert (H16 : exists prog2 p2, parse 16 "((a * b) + c)" = Returns (prog2, p2) /\
                                 Program_String prog2 = Some "(a * b)c").
  { eexists. eexists. split; [vm_compute; reflexivity | vm_compute; reflexivity]. }
  split; [exact H16|].
  intros fuel2 prog2 p2 H. destruct H16 as (prog0 & p0 & H0 & Hs0).
  pose proof (parse_deterministic _ _ _ _ _ H H0) as E.
  injection E as -> _. rewrite Hs0. discriminate.
Qed.

(* ================================================================= *)
(** ** The literals of the integer tokens the scanner hands out *)

Lemma isDigit_not_letter : forall c, isDigit c = true -> isLetter c = false.
Proof.
  intros c H. unfold isDigit, isLetter in *.
  apply andb_true_iff in H. destruct H as [H1 H2].
  apply Nat.leb_le in H1. apply Nat.leb_le in H2.
  repeat match goal with
         | |- context [?a <=? ?b] => destruct (Nat.leb_spec a b)
         | |- context [?a =? ?b] => destruct (Nat.eqb_spec a b)
         end; try reflexivity; lia.
Qed.

Lemma isDigit_not_whitespace : forall c, isDigit c = true -> isWhitespace c = false.
Proof.
  intros c H. unfold isWhitespace.
  repeat match goal with
         | |- context [Ascii.eqb c ?d] =>
             destruct (Ascii.eqb_spec c d) as [E|E];
             [rewrite E in H; vm_compute in H; discriminate H | clear E]
         end.
  reflexivity.
Qed.

(** NextToken in front of a digit: the number path. *)
Lemma NextToken_digit : forall lx,
  isDigit (ch lx) = true ->
  NextToken lx = ({| Typ := INT; Literal := fst (readNumber lx) |}, snd (readNumber lx)).
Proof.
  intros lx H. unfold NextToken.
  rewrite (skipWhitespace_id lx (isDigit_not_whitespace _ H)). cbv zeta.
  refute_char lx H. rewrite (isDigit_not_letter _ H), H.
  destruct (readNumber lx) as [lit l1]. reflexivity.
Qed.

Lemma NextToken_number : forall lx w r,
  lexer_inv lx -> view lx = w ++ r ->
  w <> EmptyString -> all_chars isDigit w = true -> isDigit (head0 r) = false ->
  exists lx',
    NextToken lx = ({| Typ := INT; Literal := w |}, lx') /\
    lexer_inv lx' /\ view lx' = r.
Proof.
  intros lx w r Hinv Hview Hne Hall Hr.
  assert (Hc : isDigit (ch lx) = true).
  { rewrite (inv_ch lx Hinv), Hview. destruct w as [|c w]; [contradiction|].
    simpl in Hall. apply andb_true_iff in Hall. apply Hall. }
  destruct (readWhile_view isDigit eq_refl w r (loopFuel lx) lx Hinv Hview Hall Hr
              (loopFuel_enough lx w r Hinv Hview)) as (H1 & H2 & H3 & H4).
  exists (readWhile isDigit (loopFuel lx) lx).
  rewrite (NextToken_digit lx Hc). unfold readNumber. cbn [fst snd].
  assert (Hs : slice (input (readWhile isDigit (loopFuel lx) lx)) (position lx)
                 (position (readWhile isDigit (loopFuel lx) lx)) = w).
  { unfold slice. rewrite H3, H4.
    replace (position lx + String.length w - position lx) with (String.length w) by lia.
    apply (substring_drop _ _ _ r). exact Hview. }
  rewrite Hs. auto.
Qed.

Lemma LookupIdent_not_INT : forall w, LookupIdent w <> INT.
Proof.
  intros w. unfold LookupIdent, keywords. cbn [lookup].
  repeat match goal with
         | |- context [String.eqb w ?k] => destruct (String.eqb w k)
         end; discriminate.
Qed.

(** The literal of an INT token of the scanner is a run of digits, not
    empty; in particular it is ASCII. *)
Lemma NextToken_INT_digits : forall lx,
  lexer_inv lx -> Typ (fst (NextToken lx)) = INT ->
  Literal (fst (NextToken lx)) <> EmptyString /\
  all_chars isDigit (Literal (fst (NextToken lx))) = true.
Proof.
  intros lx Hinv0. rewrite NextToken_skipped.
  pose proof (skipWhitespace_inv lx Hinv0) as Hinv.
  pose proof (skipWhitespace_exit lx) as Hws.
  remember (skipWhitespace lx) as sk eqn:Esk. clear Esk Hinv0 lx.
  destruct (isLetter (ch sk)) eqn:Hl.
  - rewrite (NextToken_letter sk Hl). cbn [fst Typ]. intros E.
    exfalso. exact (LookupIdent_not_INT _ E).
  - destruct (isDigit (ch sk)) eqn:Hd.
    + intros _. pose proof (span_eq isDigit (view sk)) as Hv.
      assert (Hne : span_run isDigit (view sk) <> EmptyString).
      { rewrite (inv_ch sk Hinv) in Hd. destruct (view sk) as [|c r]; [discriminate Hd|].
        simpl in *. rewrite Hd. discriminate. }
      destruct (NextToken_number sk _ _ Hinv Hv Hne (span_run_all _ _)
                  (span_rest_head _ _ eq_refl)) as (lx' & H & _ & _).
      rewrite H. cbn [fst Literal]. split; [exact Hne | apply span_run_all].
    + unfold NextToken. rewrite (skipWhitespace_id sk Hws). cbv zeta. rewrite Hl, Hd.
      repeat match goal with
             | |- context [if ?b then _ else _] => destruct b
             end; cbn [fst Typ newToken]; intros E; discriminate E.
Qed.

Lemma digits_ASCII : forall s, all_chars isDigit s = true -> strconv.isASCII s = true.
Proof.
  unfold strconv.isASCII. induction s as [|c s IH]; intros H; [reflexivity|].
  simpl in *. apply andb_true_iff in H. destruct H as [Hc Hs].
  rewrite (IH Hs), andb_true_r. unfold isDigit in Hc.
  apply andb_true_iff in Hc. destruct Hc as [_ Hc]. apply Nat.leb_le in Hc.
  apply Nat.ltb_lt. lia.
Qed.

(** The slice that readIdentifier takes lies within the input. *)
Lemma readIdentifier_in_bounds : forall lx,
  lexer_inv lx -> isLetter (ch lx) = true ->
  position lx <= position (snd (readIdentifier lx)) /\
  position (snd (readIdentifier lx)) <= String.length (input (snd (readIdentifier lx))).
Proof.
  intros lx Hinv Hc. unfold readIdentifier. cbn [snd].
  destruct (readWhile_position isLetter eq_refl (loopFuel lx) lx Hinv) as [H1 H2].
  rewrite readWhile_input. split; [exact H1|]. apply H2.
  destruct Hinv as [_ Hch].
  destruct (Nat.ltb_spec (position lx) (String.length (input lx))) as [H|H]; [lia|].
  rewrite Hch in Hc. discriminate Hc.
Qed.

Lemma readNumber_in_bounds : forall lx,
  lexer_inv lx -> isDigit (ch lx) = true ->
  position lx <= position (snd (readNumber lx)) /\
  position (snd (readNumber lx)) <= String.length (input (snd (readNumber lx))).
Proof.
  intros lx Hinv Hc. unfold readNumber. cbn [snd].
  destruct (readWhile_position isDigit eq_refl (loopFuel lx) lx Hinv) as [H1 H2].
  rewrite readWhile_input. split; [exact H1|]. apply H2.
  destruct Hinv as [_ Hch].
  destruct (Nat.ltb_spec (position lx) (String.length (input lx))) as [H|H]; [lia|].
  rewrite Hch in Hc. discriminate Hc.
Qed.

(* ================================================================= *)
(** ** The scanner always moves on, and ends in EOF tokens *)

Lemma NextToken_advances : forall lx,
  lexer_inv lx -> position lx < position (snd (NextToken lx)).
Proof.
  intros lx Hinv.
  pose proof (skipWhitespace_inv lx Hinv) as Hsk.
  destruct (readWhile_position isWhitespace eq_refl (loopFuel lx) lx Hinv) as [Hle _].
  fold (skipWhitespace lx) in Hle.
  remember (skipWhitespace lx) as sk eqn:Esk. destruct Hsk as [Hrp _].
  assert (Hrun : forall cond, cond Ascii.zero = false -> cond (ch sk) = true ->
                 position sk < position (readWhile cond (loopFuel sk) sk)).
  { intros cond Hz Hc. unfold loopFuel. rewrite readWhile_S, Hc.
    destruct (readWhile_position cond Hz
                (S (String.length (input sk) - readPosition sk))
                (readChar sk) (readChar_inv _)) as [H1 _].
    change (position (readChar sk)) with (readPosition sk) in H1. lia. }
  destruct (NextToken_cursor lx) as [H|[H|[[Hc H]|[Hc H]]]];
    rewrite <- Esk in *; rewrite H.
  - change (position (readChar sk)) with (readPosition sk). lia.
  - change (position (readChar (readChar sk))) with (S (readPosition sk)). lia.
  - pose proof (Hrun isLetter eq_refl Hc). lia.
  - pose proof (Hrun isDigit eq_refl Hc). lia.
Qed.

(** Every call of NextToken moves the cursor on by at least one position,
    whatever path it takes, leaves the cursor well-formed and leaves the
    input as it was. *)
Theorem NextToken_progress : forall lx,
  lexer_inv lx ->
  position lx < position (snd (NextToken lx)) /\
  readPosition (snd (NextToken lx)) = position (snd (NextToken lx)) + 1 /\
  input (snd (NextToken lx)) = input lx.
Proof.
  intros lx Hinv. split; [apply NextToken_advances; exact Hinv|].
  split; [apply (NextToken_inv lx) | apply NextToken_input].
Qed.

Lemma NextToken_progress_witness :
  position (lexer.New "let x") < position (snd (NextToken (lexer.New "let x"))).
Proof.
  apply NextToken_progress. unfold lexer_inv. vm_compute. split; reflexivity.
Defined.

Lemma after_position : forall n lx,
  lexer_inv lx -> position lx + n <= position (after n lx).
Proof.
  induction n as [|n IH]; intros lx Hinv; simpl; [lia|].
  pose proof (NextToken_advances lx Hinv) as Hp.
  pose proof (IH _ (NextToken_inv lx)) as Hn. lia.
Qed.

Lemma after_add : forall a b lx, after (a + b) lx = after b (after a lx).
Proof.
  induction a as [|a IH]; intros b lx; simpl; [reflexivity | apply IH].
Qed.

Lemma after_length_at_end : forall src,
  at_end (after (String.length src) (lexer.New src)).
Proof.
  intros src. unfold at_end. rewrite after_input.
  pose proof (after_position (String.length src) _ (New_inv src)) as H.
  change (input (lexer.New src)) with src. lia.
Qed.

Lemma eof_from_length : forall src k,
  fst (NextToken (after (String.length src + k) (lexer.New src))) = eofToken.
Proof.
  intros src k. rewrite after_add.
  destruct (after_at_end k _ (after_inv (String.length src) _ (New_inv src))
              (after_length_at_end src)) as (H1 & H2 & _).
  rewrite (NextToken_at_end _ H1 H2). reflexivity.
Qed.

(** After as many calls of NextToken as the text has bytes the scanner has
    reached the end of the text, and every further call hands out the EOF
    token with the empty literal: the token sequence of every text ends in
    EOF tokens. *)
Theorem tokens_end_in_EOF : forall (src : string) (k : nat),
  at_end (after (String.length src) (lexer.New src)) /\
  fst (NextToken (after (String.length src + k) (lexer.New src))) = eofToken.
Proof.
  intros src k. split.
  - apply after_length_at_end.
  - apply eof_from_length.
Qed.

(* ================================================================= *)
(** ** The scanner depends on the text left to read only *)

Lemma span_rest_id : forall cond s, cond (head0 s) = false -> span_rest cond s = s.
Proof. intros cond [|c r] H; simpl in *; [reflexivity | rewrite H; reflexivity]. Qed.

Lemma span_run_nonempty : forall cond s,
  cond Ascii.zero = false -> cond (head0 s) = true -> span_run cond s <> EmptyString.
Proof.
  intros cond [|c r] Hz H; simpl in *; [congruence|]. rewrite H. discriminate.
Qed.

Lemma skipWhitespace_view : forall lx,
  lexer_inv lx -> view (skipWhitespace lx) = span_rest isWhitespace (view lx).
Proof.
  intros lx Hinv. unfold skipWhitespace.
  pose proof (span_eq isWhitespace (view lx)) as Hv.
  destruct (readWhile_view isWhitespace eq_refl _ _ (loopFuel lx) lx Hinv Hv
              (span_run_all _ _) (span_rest_head _ _ eq_refl)
              (loopFuel_enough lx _ _ Hinv Hv)) as (_ & H & _).
  exact H.
Qed.

Ltac refute_eqb c H :=
  repeat match goal with
         | |- context [Ascii.eqb c ?d] =>
             destruct (Ascii.eqb_spec c d) as [E|E];
             [rewrite E in H; vm_compute in H; discriminate H | clear E]
         end;
  cbv iota.

(** NextToken and [scan] agree behind the white space. *)
Lemma NextToken_scan_skipped : forall sk,
  lexer_inv sk -> isWhitespace (ch sk) = false ->
  fst (NextToken sk) = fst (scan (view sk)) /\
  view (snd (NextToken sk)) = snd (scan (view sk)).
Proof.
  intros sk Hinv Hws.
  pose proof (inv_ch sk Hinv) as Hch.
  assert (Hid : span_rest isWhitespace (view sk) = view sk)
    by (apply span_rest_id; rewrite <- Hch; exact Hws).
  destruct (isLetter (ch sk)) eqn:Hl.
  { assert (Hl' : isLetter (head0 (view sk)) = true) by (rewrite <- Hch; exact Hl).
    destruct (NextToken_word sk _ _ Hinv (span_eq isLetter (view sk))
                (span_run_nonempty _ _ eq_refl Hl') (span_run_all _ _)
                (span_rest_head _ _ eq_refl)) as (lx' & H & _ & Hv).
    rewrite H. cbn [fst snd]. rewrite Hv.
    unfold scan. rewrite Hid. cbv zeta.
    refute_eqb (head0 (view sk)) Hl'. rewrite Hl'. split; reflexivity. }
  destruct (isDigit (ch sk)) eqn:Hd.
  { assert (Hd' : isDigit (head0 (view sk)) = true) by (rewrite <- Hch; exact Hd).
    assert (Hl' : isLetter (head0 (view sk)) = false) by (rewrite <- Hch; exact Hl).
    destruct (NextToken_number sk _ _ Hinv (span_eq isDigit (view sk))
                (span_run_nonempty _ _ eq_refl Hd') (span_run_all _ _)
                (span_rest_head _ _ eq_refl)) as (lx' & H & _ & Hv).
    rewrite H. cbn [fst snd]. rewrite Hv.
    unfold scan. rewrite Hid. cbv zeta.
    refute_eqb (head0 (view sk)) Hd'. rewrite Hl', Hd'. split; reflexivity. }
  assert (Hch1 : ch (readChar sk) = head0 (tail (view sk))).
  { rewrite (inv_ch _ (readChar_inv sk)), (view_readChar sk Hinv). reflexivity. }
  assert (Hv1 : view (readChar sk) = tail (view sk)) by apply (view_readChar sk Hinv).
  assert (Hv2 : view (readChar (readChar sk)) = tail (tail (view sk))).
  { rewrite (view_readChar _ (readChar_inv sk)), Hv1. reflexivity. }
  unfold NextToken, scan. rewrite (skipWhitespace_id sk Hws), Hid. cbv zeta.
  rewrite (peekChar_view sk Hinv), Hch1.
  rewrite Hch in Hl, Hd. rewrite Hch, Hl, Hd. cbv iota.
  repeat match goal with
         | |- context [if ?b then _ else _] => destruct b
         end; cbn [fst snd]; rewrite ?Hv1, ?Hv2; split; reflexivity.
Qed.

Lemma NextToken_refines_scan : forall lx,
  lexer_inv lx ->
  fst (NextToken lx) = fst (scan (view lx)) /\
  view (snd (NextToken lx)) = snd (scan (view lx)).
Proof.
  intros lx Hinv. rewrite NextToken_skipped.
  destruct (NextToken_scan_skipped (skipWhitespace lx)
              (skipWhitespace_inv lx Hinv) (skipWhitespace_exit lx)) as [H1 H2].
  rewrite H1, H2, (skipWhitespace_view lx Hinv).
  assert (E : scan (span_rest isWhitespace (view lx)) = scan (view lx)).
  { unfold scan. rewrite (span_rest_id isWhitespace (span_rest isWhitespace (view lx)))
      by apply (span_rest_head _ _ eq_refl). reflexivity. }
  rewrite E. split; reflexivity.
Qed.

(** The token that NextToken hands out, and the text it leaves to read,
    are those that [scan] computes from the text left to read: the scanner
    skips white space, takes the longest run of letters or of digits, joins
    "==" and "!=", and otherwise takes one byte.  The text left to read is
    the rest of the input from the new cursor on. *)
Theorem NextToken_scan : forall lx,
  lexer_inv lx ->
  fst (NextToken lx) = fst (scan (view lx)) /\
  view (snd (NextToken lx)) = snd (scan (view lx)) /\
  view (snd (NextToken lx))
  = drop (position (snd (NextToken lx))) (input lx).
Proof.
  intros lx Hinv. destruct (NextToken_refines_scan lx Hinv) as [H1 H2].
  split; [exact H1|]. split; [exact H2|].
  unfold view. rewrite NextToken_input. reflexivity.
Qed.

Lemma NextToken_scan_witness :
  fst (NextToken (lexer.New "  foo!=1")) = fst (scan "  foo!=1") /\
  view (snd (NextToken (lexer.New "  foo!=1"))) = "!=1".
Proof.
  destruct (NextToken_scan (lexer.New "  foo!=1")) as (H1 & H2 & _).
  - unfold lexer_inv. vm_compute. split; reflexivity.
  - split; [exact H1 | exact H2].
Defined.

Lemma tokens_S : forall n lx,
  fst (tokens (S n) lx) = fst (NextToken lx) :: fst (tokens n (snd (NextToken lx))).
Proof.
  intros n lx. cbn [tokens]. destruct (NextToken lx) as [t l1]. cbn [fst snd].
  destruct (tokens n l1) as [ts l2]. reflexivity.
Qed.

Lemma tokens_scan : forall n lx,
  lexer_inv lx -> fst (tokens n lx) = scan_tokens n (view lx).
Proof.
  induction n as [|n IH]; intros lx Hinv; [reflexivity|].
  rewrite tokens_S. cbn [scan_tokens].
  destruct (NextToken_refines_scan lx Hinv) as [H1 H2].
  rewrite H1, (IH _ (NextToken_inv lx)), H2. reflexivity.
Qed.

(** The tokens do not depend on where in its input a scanner stands, nor on
    what lies behind it, only on the text in front of it: two scanners with
    the same text left to read hand out the same tokens. *)
Theorem tokens_depend_on_view : forall n lx1 lx2,
  lexer_inv lx1 -> lexer_inv lx2 -> view lx1 = view lx2 ->
  fst (tokens n lx1) = fst (tokens n lx2).
Proof.
  intros n lx1 lx2 H1 H2 Hv. rewrite (tokens_scan n lx1 H1), (tokens_scan n lx2 H2), Hv.
  reflexivity.
Qed.

Lemma tokens_depend_on_view_witness :
  fst (tokens 3 (snd (NextToken (lexer.New "a + b")))) = fst (tokens 3 (lexer.New " + b")).
Proof.
  apply tokens_depend_on_view.
  - unfold lexer_inv. vm_compute. split; reflexivity.
  - unfold lexer_inv. vm_compute. split; reflexivity.
  - vm_compute. reflexivity.
Defined.

Lemma span_rest_app : forall ws s,
  all_chars isWhitespace ws = true ->
  span_rest isWhitespace (ws ++ s) = span_rest isWhitespace s.
Proof.
  induction ws as [|c ws IH]; intros s H; [reflexivity|].
  simpl in *. apply andb_true_iff in H. destruct H as [Hc Hws].
  rewrite Hc. apply IH. exact Hws.
Qed.

(** White space in front of a text does not change its tokens. *)
Theorem leading_whitespace_ignored : forall (ws src : string) (n : nat),
  all_chars isWhitespace ws = true ->
  fst (tokens n (lexer.New (ws ++ src))) = fst (tokens n (lexer.New src)).
Proof.
  intros ws src n Hws.
  rewrite (tokens_scan n _ (New_inv _)), (tokens_scan n _ (New_inv _)).
  change (view (lexer.New (ws ++ src))) with (ws ++ src).
  change (view (lexer.New src)) with src.
  destruct n as [|n]; [reflexivity|]. cbn [scan_tokens].
  assert (E : scan (ws ++ src) = scan src)
    by (unfold scan; rewrite (span_rest_app ws src Hws); reflexivity).
  rewrite E. reflexivity.
Qed.

Lemma leading_whitespace_ignored_witness :
  fst (tokens 4 (lexer.New (String " " (String "009" (String "010" "x = 1")))))
  = fst (tokens 4 (lexer.New "x = 1")).
Proof.
  apply (leading_whitespace_ignored (String " " (String "009" (String "010" EmptyString)))
           "x = 1" 4).
  reflexivity.
Defined.

(** A zero byte inside the text is handed out as an EOF token although text
    is left, and the scanner goes on behind it. *)
Theorem zero_byte_is_EOF : forall lx r,
  lexer_inv lx -> view lx = String Ascii.zero r ->
  fst (NextToken lx) = eofToken /\ view (snd (NextToken lx)) = r.
Proof.
  intros lx r Hinv Hv. destruct (NextToken_refines_scan lx Hinv) as [H1 H2].
  rewrite H1, H2, Hv. split; reflexivity.
Qed.

Lemma zero_byte_is_EOF_witness :
  fst (NextToken (lexer.New (String Ascii.zero "x"))) = eofToken /\
  view (snd (NextToken (lexer.New (String Ascii.zero "x")))) = "x".
Proof.
  apply zero_byte_is_EOF; [unfold lexer_inv; vm_compute; split; reflexivity | reflexivity].
Defined.

(* ================================================================= *)
(** ** Keywords, and the tokens the scanner can hand out *)

Lemma In_keywords_dec : forall w,
  lookup keywords w = None \/ exists ty, lookup keywords w = Some ty /\ In (w, ty) keywords.
Proof.
  intros w. unfold keywords. cbn [lookup].
  repeat match goal with
         | |- context [String.eqb w ?k] => destruct (String.eqb_spec w k) as [?|?]
         end; subst;
    try (left; reflexivity);
    right; eexists; (split; [reflexivity|]); simpl; tauto.
Qed.

(** A word of the text is a keyword as a whole and as it is spelled, in
    lower case, only.  A longest run of letters and underscores [w] becomes
    one token with the literal [w]; its kind is ELSE, FALSE, FUNCTION, IF,
    LET, RETURN or TRUE when [w] is else, false, fn, if, let, return or true,
    and IDENT for every other run, also one that begins with a keyword or
    differs from one in case. *)
Theorem keyword_whole_word : forall lx w r,
  lexer_inv lx -> view lx = w ++ r ->
  w <> EmptyString -> all_chars isLetter w = true -> isLetter (head0 r) = false ->
  Literal (fst (NextToken lx)) = w /\
  ((In (w, Typ (fst (NextToken lx)))
       [ ("else", ELSE); ("false", FALSE); ("fn", FUNCTION); ("if", IF);
         ("let", LET); ("return", RETURN); ("true", TRUE) ] /\
    Typ (fst (NextToken lx)) <> IDENT) \/
   (~ In w ["else"; "false"; "fn"; "if"; "let"; "return"; "true"] /\
    Typ (fst (NextToken lx)) = IDENT)).
Proof.
  intros lx w r Hinv Hv Hw Hall Hr.
  destruct (NextToken_word lx w r Hinv Hv Hw Hall Hr) as (lx' & -> & _).
  cbn [fst Typ Literal]. split; [reflexivity|].
  unfold LookupIdent, keywords. cbn [lookup].
  repeat match goal with
         | |- context [String.eqb w ?k] => destruct (String.eqb_spec w k) as [?|?]
         end; subst;
    try (left; split; [simpl; tauto | discriminate]).
  right. split; [|reflexivity]. simpl. intuition congruence.
Qed.

Lemma keyword_whole_word_witness :
  Literal (fst (NextToken (lexer.New "lets go"))) = "lets" /\
  Typ (fst (NextToken (lexer.New "lets go"))) = IDENT.
Proof.
  destruct (keyword_whole_word (lexer.New "lets go") "lets" " go")
    as (Hl & [(Hin & Hne)|(_ & Ht)]);
    [ unfold lexer_inv; vm_compute; split; reflexivity
    | reflexivity | discriminate | reflexivity | reflexivity | | ].
  - exfalso. cbn [In] in Hin.
    repeat (destruct Hin as [Hin|Hin];
            [apply (f_equal fst) in Hin; cbn [fst] in Hin; discriminate Hin|]).
    exact Hin.
  - split; assumption.
Defined.

(** The earlier snapshot of the keyword table classifies every word as the
    later one does, except for the five keywords added later (else, false,
    if, return, true), which it takes for identifiers. *)
Theorem LookupIdent0_agrees : forall w,
  (In w ["else"; "false"; "if"; "return"; "true"] -> LookupIdent0 w = IDENT) /\
  (~ In w ["else"; "false"; "if"; "return"; "true"] -> LookupIdent0 w = LookupIdent w).
Proof.
  intros w. split.
  - intros H. simpl in H.
    repeat match goal with
           | H : _ \/ _ |- _ => destruct H as [H|H]
           end; try contradiction; subst; reflexivity.
  - intros H. unfold LookupIdent0, LookupIdent, keywords0, keywords. cbn [lookup].
    repeat match goal with
           | |- context [String.eqb w ?k] => destruct (String.eqb_spec w k) as [?|?]
           end; subst; try reflexivity; try discriminate;
      exfalso; apply H; simpl; tauto.
Qed.

Lemma LookupIdent0_agrees_witness :
  LookupIdent0 "return" = IDENT /\ LookupIdent0 "let" = LookupIdent "let".
Proof.
  split.
  - apply (LookupIdent0_agrees "return"). simpl. tauto.
  - apply (LookupIdent0_agrees "let"). simpl.
    intros [H|[H|[H|[H|[H|[]]]]]]; discriminate H.
Defined.

Ltac in_list := simpl; repeat (first [left; reflexivity | right]).

Lemma scan_token_wf : forall s, token_wf (fst (scan s)).
Proof.
  intros s. unfold scan. cbv zeta.
  pose proof (span_rest_head isWhitespace s eq_refl) as Hws.
  remember (span_rest isWhitespace s) as s1 eqn:E1. clear E1 s.
  remember (head0 s1) as c eqn:Ec.
  remember (head0 (tail s1)) as d eqn:Ed.
  destruct (Ascii.eqb_spec c "=") as [e|ne].
  { rewrite e. destruct (Ascii.eqb_spec d "=") as [e0|ne0]; [rewrite e0|]; cbn [fst newToken].
    - apply (wf_operator EQ). in_list.
    - apply (wf_operator ASSIGN). in_list. }
  destruct (Ascii.eqb_spec c "+") as [e|?]; [rewrite e; cbn [fst newToken]; apply (wf_operator PLUS); in_list|].
  destruct (Ascii.eqb_spec c "-") as [e|?]; [rewrite e; cbn [fst newToken]; apply (wf_operator MINUS); in_list|].
  destruct (Ascii.eqb_spec c "!") as [e|ne1].
  { rewrite e. destruct (Ascii.eqb_spec d "=") as [e0|ne0]; [rewrite e0|]; cbn [fst newToken].
    - apply (wf_operator NEQ). in_list.
    - apply (wf_operator BANG). in_list. }
  destruct (Ascii.eqb_spec c "*") as [e|?]; [rewrite e; cbn [fst newToken]; apply (wf_operator ASTERISK); in_list|].
  destruct (Ascii.eqb_spec c "/") as [e|?]; [rewrite e; cbn [fst newToken]; apply (wf_operator SLASH); in_list|].
  destruct (Ascii.eqb_spec c "<") as [e|?]; [rewrite e; cbn [fst newToken]; apply (wf_operator LT); in_list|].
  destruct (Ascii.eqb_spec c ">") as [e|?]; [rewrite e; cbn [fst newToken]; apply (wf_operator GT); in_list|].
  destruct (Ascii.eqb_spec c ",") as [e|?]; [rewrite e; cbn [fst newToken]; apply (wf_operator COMMA); in_list|].
  destruct (Ascii.eqb_spec c "{") as [e|?]; [rewrite e; cbn [fst newToken]; apply (wf_operator LBRACE); in_list|].
  destruct (Ascii.eqb_spec c "(") as [e|?]; [rewrite e; cbn [fst newToken]; apply (wf_operator LPAREN); in_list|].
  destruct (Ascii.eqb_spec c "}") as [e|?]; [rewrite e; cbn [fst newToken]; apply (wf_operator RBRACE); in_list|].
  destruct (Ascii.eqb_spec c ")") as [e|?]; [rewrite e; cbn [fst newToken]; apply (wf_operator RPAREN); in_list|].
  destruct (Ascii.eqb_spec c ";") as [e|?]; [rewrite e; cbn [fst newToken]; apply (wf_operator SEMICOLON); in_list|].
  destruct (Ascii.eqb_spec c Ascii.zero) as [e|nz]; [apply wf_eof|].
  destruct (isLetter c) eqn:Hl.
  { cbn [fst]. subst c.
    pose proof (span_run_nonempty isLetter s1 eq_refl Hl) as Hne.
    destruct (In_keywords_dec (span_run isLetter s1)) as [Hn|(ty & Hs & Hty)];
      unfold LookupIdent; [rewrite Hn | rewrite Hs].
    - apply wf_ident. split; [exact Hne|]. split; [apply span_run_all|].
      unfold LookupIdent. rewrite Hn. reflexivity.
    - apply wf_keyword. exact Hty. }
  destruct (isDigit c) eqn:Hd.
  { cbn [fst]. subst c. apply wf_int; [|apply span_run_all].
    apply span_run_nonempty; [reflexivity | exact Hd]. }
  cbn [fst newToken]. apply wf_illegal. unfold stray.
  rewrite Hws, Hl, Hd. cbn [negb andb].
  destruct (Ascii.eqb_spec c Ascii.zero); [contradiction|]. cbn [negb andb].
  cbv [operators existsb String.eqb ASSIGN PLUS MINUS BANG ASTERISK SLASH LT GT
       COMMA LBRACE LPAREN RBRACE RPAREN SEMICOLON EQ NEQ].
  repeat match goal with
         | |- context [Ascii.eqb c ?k] =>
             destruct (Ascii.eqb_spec c k) as [?|?]; [contradiction|]
         end.
  reflexivity.
Qed.

(** Every token the scanner hands out is of one of six forms: EOF with the
    empty literal; an operator or delimiter, whose literal is the spelling
    that names its kind; a keyword of the table with its spelling as literal;
    an identifier, a run of letters and underscores that is no keyword; an
    integer, a run of digits; or ILLEGAL with one byte that starts no token. *)
Theorem NextToken_token_wf : forall lx,
  lexer_inv lx -> token_wf (fst (NextToken lx)).
Proof.
  intros lx Hinv. destruct (NextToken_refines_scan lx Hinv) as [H _]. rewrite H.
  apply scan_token_wf.
Qed.

Lemma NextToken_token_wf_witness :
  token_wf (fst (NextToken (lexer.New "return x"))).
Proof.
  apply NextToken_token_wf. unfold lexer_inv. vm_compute. split; reflexivity.
Defined.

(* ================================================================= *)
(** ** Diagnostics are only ever appended; a parse without diagnostics
       renders *)

Lemma step_post_refl : forall p (good : Prop), good -> step_post p p good.
Proof.
  intros p good H. split; [split; reflexivity|].
  exists []. rewrite app_nil_r. auto.
Qed.

Lemma step_post_trans : forall p1 p2 p3 (g1 g2 : Prop),
  step_post p1 p2 g1 -> step_post p2 p3 (g1 -> g2) -> step_post p1 p3 g2.
Proof.
  intros p1 p2 p3 g1 g2 ((T1 & T2) & e1 & E1 & G1) ((T3 & T4) & e2 & E2 & G2).
  split; [split; congruence|].
  exists (e1 ++ e2)%list. split; [rewrite E2, E1, app_assoc; reflexivity|].
  intros H. apply app_eq_nil in H. destruct H as [H1 H2]. auto.
Qed.

Lemma step_post_weaken : forall p p' (g1 g2 : Prop),
  (g1 -> g2) -> step_post p p' g1 -> step_post p p' g2.
Proof.
  intros p p' g1 g2 H (T & e & E & G). split; [exact T|]. exists e. auto.
Qed.

Lemma step_post_nextToken : forall p, step_post p (nextToken p) True.
Proof.
  intros p. unfold nextToken. destruct (NextToken (l p)) as [tok lx].
  split; [split; reflexivity|]. exists []. cbn [errors]. rewrite app_nil_r. auto.
Qed.

Lemma step_post_addError : forall msg p (good : Prop), step_post p (addError msg p) good.
Proof.
  intros msg p good. split; [split; reflexivity|].
  exists [msg]. split; [reflexivity | discriminate].
Qed.

Lemma step_post_next : forall p p' (g : Prop),
  step_post p p' g -> step_post p (nextToken p') g.
Proof.
  intros p p' g H. apply (step_post_trans p p' _ g g H).
  apply (step_post_weaken _ _ True); [auto | apply step_post_nextToken].
Qed.

Lemma step_post_after_next : forall p p' (g : Prop),
  step_post (nextToken p) p' g -> step_post p p' g.
Proof.
  intros p p' g H. apply (step_post_trans p (nextToken p) _ True g).
  - apply step_post_nextToken.
  - apply (step_post_weaken _ _ g); auto.
Qed.

Lemma parseExpression_post_all : forall fuel,
  (forall prec p r, parseExpression fuel prec p = Returns r ->
     step_post p (snd r) (renders (fst r))) /\
  (forall prec lft p r, parseExpression_loop fuel prec lft p = Returns r ->
     step_post p (snd r) (renders lft -> renders (fst r))) /\
  (forall p r, parsePrefixExpression fuel p = Returns r ->
     step_post p (snd r) (renders (fst r))) /\
  (forall lft p r, parseInfixExpression fuel lft p = Returns r ->
     step_post p (snd r) (renders lft -> renders (fst r))).
Proof.
  induction fuel as [|fuel (IHe & IHl & IHp & IHi)].
  - repeat split; intros; discriminate.
  - split; [|split; [|split]].
    + intros prec p r H. simpl in H.
      destruct (lookup (prefixParseFns p) (Typ (curToken p))) as [fn|].
      2:{ injection H as <-. apply step_post_addError. }
      apply bind_Returns in H. destruct H as (a & Ha & Hk).
      apply (step_post_trans p (snd a) _ (renders (fst a))).
      * destruct fn.
        -- injection Ha as <-. apply step_post_refl. cbn [fst parseIdentifier].
           eexists. eexists. split; reflexivity.
        -- injection Ha as <-. unfold parseIntegerLiteral.
           destruct (strconv.ParseInt (Literal (curToken p))).
           ++ apply step_post_refl. eexists. eexists. split; reflexivity.
           ++ apply step_post_addError.
        -- apply (IHp _ _ Ha).
      * apply (IHl _ _ _ _ Hk).
    + intros prec lft p r H. simpl in H.
      destruct (negb (peekTokenIs p SEMICOLON) && (prec <? peekPrecedence p)).
      2:{ injection H as <-. apply step_post_refl. auto. }
      destruct (lookup (infixParseFns p) (Typ (peekToken p))) as [[]|].
      2:{ injection H as <-. apply step_post_refl. auto. }
      apply bind_Returns in H. destruct H as (a & Ha & Hk).
      apply step_post_after_next.
      apply (step_post_trans _ (snd a) _ (renders lft -> renders (fst a))).
      * apply (IHi _ _ _ Ha).
      * apply (step_post_weaken _ _ (renders (fst a) -> renders (fst r))); [tauto|].
        apply (IHl _ _ _ _ Hk).
    + intros p r H. simpl in H.
      apply bind_Returns in H. destruct H as (a & Ha & Hk). injection Hk as <-.
      cbn [fst snd]. apply step_post_after_next.
      apply (step_post_weaken _ _ (renders (fst a))); [|apply (IHe _ _ _ Ha)].
      intros (e & s & E & Hs). rewrite E. eexists. eexists. split; [reflexivity|].
      simpl. rewrite Hs. reflexivity.
    + intros lft p r H. simpl in H.
      apply bind_Returns in H. destruct H as (a & Ha & Hk). injection Hk as <-.
      cbn [fst snd]. apply step_post_after_next.
      apply (step_post_weaken _ _ (renders (fst a))); [|apply (IHe _ _ _ Ha)].
      intros (e & s & E & Hs) (e' & s' & E' & Hs'). rewrite E, E'.
      eexists. eexists. split; [reflexivity|]. simpl. rewrite Hs, Hs'. reflexivity.
Qed.

Lemma skipToSemicolon_post : forall fuel p q,
  skipToSemicolon fuel p = Returns q -> step_post p q True.
Proof.
  induction fuel as [|fuel IH]; intros p q H; [discriminate H|].
  simpl in H. destruct (curTokenIs p SEMICOLON).
  - injection H as <-. apply step_post_refl. exact I.
  - apply step_post_after_next. apply (IH _ _ H).
Qed.

(** A statement that is there and whose String method returns. *)
Lemma parseStatement_post : forall fuel p os q,
  parseStatement fuel p = Returns (os, q) ->
  step_post p q (exists s r, os = Some s /\ Statement_String s = Some r).
Proof.
  intros fuel p os q H. unfold parseStatement in H.
  destruct (String.eqb (Typ (curToken p)) LET).
  - apply bind_Returns in H. destruct H as ([ls q'] & Ha & Hk).
    injection Hk as <- <-. cbn [fst snd].
    unfold parseLetStatement, expectPeek in Ha.
    destruct (peekTokenIs p IDENT); cbn [negb] in Ha.
    2:{ injection Ha as <- <-. apply step_post_addError. }
    destruct (peekTokenIs (nextToken p) ASSIGN); cbn [negb] in Ha.
    2:{ injection Ha as <- <-. apply step_post_after_next. apply step_post_addError. }
    apply bind_Returns in Ha. destruct Ha as (p3 & Hskip & Hk).
    injection Hk as <- <-. do 2 apply step_post_after_next.
    apply (step_post_weaken _ _ True); [|apply (skipToSemicolon_post _ _ _ Hskip)].
    intros _. eexists. eexists. split; reflexivity.
  - destruct (String.eqb (Typ (curToken p)) RETURN).
    + apply bind_Returns in H. destruct H as ([rs q'] & Ha & Hk).
      injection Hk as <- <-. cbn [fst snd]. unfold parseReturnStatement in Ha.
      apply bind_Returns in Ha. destruct Ha as (p2 & Hskip & Hk).
      injection Hk as <- <-. apply step_post_after_next.
      apply (step_post_weaken _ _ True); [|apply (skipToSemicolon_post _ _ _ Hskip)].
      intros _. eexists. eexists. split; reflexivity.
    + apply bind_Returns in H. destruct H as ([es q'] & Ha & Hk).
      injection Hk as <- <-. cbn [fst snd]. unfold parseExpressionStatement in Ha.
      apply bind_Returns in Ha. destruct Ha as (a & Ha & Hk). injection Hk as <- <-.
      assert (Hn : step_post p (if peekTokenIs (snd a) SEMICOLON
                                then nextToken (snd a) else snd a) (renders (fst a))).
      { destruct (parseExpression_post_all fuel) as (He & _).
        destruct (peekTokenIs (snd a) SEMICOLON);
          [apply step_post_next|]; apply (He _ _ _ Ha). }
      apply (step_post_weaken _ _ (renders (fst a))); [|exact Hn].
      intros (e & s & E & Hs). eexists. eexists. split; [reflexivity|].
      simpl. rewrite E. exact Hs.
Qed.

Lemma Statements_String_app : forall ss s r1 r2,
  Statements_String ss = Some r1 -> Statement_String s = Some r2 ->
  Statements_String (ss ++ [s]) = Some (r1 ++ r2).
Proof.
  induction ss as [|s0 ss IH]; intros s r1 r2 H1 H2; simpl in *.
  - injection H1 as <-. rewrite H2. simpl.
    clear. induction r2 as [|c r2 IH]; simpl; [reflexivity|].
    injection IH as IH. rewrite IH. reflexivity.
  - destruct (Statement_String s0) as [r0|]; [|discriminate H1].
    destruct (Statements_String ss) as [rs|]; [|discriminate H1].
    injection H1 as <-. rewrite (IH s rs r2 eq_refl H2), append_assoc. reflexivity.
Qed.

Lemma ParseProgram_loop_post : forall fuel stmts p stmts' p',
  ParseProgram_loop fuel stmts p = Returns (stmts', p') ->
  step_post p p' ((exists r, Statements_String stmts = Some r) ->
                  exists r, Statements_String stmts' = Some r).
Proof.
  induction fuel as [|fuel IH]; intros stmts p stmts' p' H; [discriminate H|].
  rewrite ParseProgram_loop_S in H. destruct (curTokenIs p EOF).
  - injection H as <- <-. apply step_post_refl. auto.
  - apply bind_Returns in H. destruct H as ([os q] & Ha & Hk). cbn [fst snd] in Hk.
    apply (step_post_trans p q _ _ _ (parseStatement_post _ _ _ _ Ha)).
    apply step_post_after_next.
    eapply step_post_weaken; [|apply (IH _ _ _ _ Hk)].
    intros Hnext (s & r & -> & Hs) (r0 & Hr0). apply Hnext.
    eexists. apply (Statements_String_app _ _ _ _ Hr0 Hs).
Qed.

(** ParseProgram only ever appends to the diagnostics of the parser it is
    run on, and leaves the dispatch tables as New built them. *)
Theorem ParseProgram_appends_errors : forall fuel p prog p',
  ParseProgram fuel p = Returns (prog, p') ->
  (exists ext, Errors p' = (Errors p ++ ext)%list) /\
  prefixParseFns p' = prefixParseFns p /\ infixParseFns p' = infixParseFns p.
Proof.
  intros fuel p prog p' H. unfold ParseProgram in H.
  apply bind_Returns in H. destruct H as ([stmts q] & Ha & Hk). injection Hk as _ <-.
  destruct (ParseProgram_loop_post _ _ _ _ _ Ha) as ((T1 & T2) & ext & E & _).
  split; [exists ext; exact E | split; assumption].
Qed.

Lemma ParseProgram_appends_errors_witness :
  exists prog p' ext,
    ParseProgram 5 (addError "earlier" (parser.New (lexer.New "let = 5;")))
    = Returns (prog, p') /\
    Errors p' = ("earlier" :: ext).
Proof.
  assert (H : exists prog p',
             ParseProgram 5 (addError "earlier" (parser.New (lexer.New "let = 5;")))
             = Returns (prog, p')).
  { eexists. eexists. vm_compute. reflexivity. }
  destruct H as (prog & p' & H).
  destruct (ParseProgram_appends_errors _ _ _ _ H) as ((ext & E) & _).
  exists prog, p', ext. split; [exact H | exact E].
Defined.

Lemma String_complete : forall e s,
  Expression_String e = Some s -> Expression_complete e.
Proof.
  fix IH 1. intros e s H. destruct e as [i|tok v|tok op r|tok lft op r]; cbn in *.
  - exact I.
  - exact I.
  - destruct r as [r|]; [|discriminate H].
    destruct (Expression_String r) as [sr|] eqn:E; [|discriminate H].
    exact (IH r sr E).
  - destruct lft as [lft|]; [|discriminate H].
    destruct (Expression_String lft) as [sl|] eqn:El; [|discriminate H].
    destruct r as [r|]; [|discriminate H].
    destruct (Expression_String r) as [sr|] eqn:Er; [|discriminate H].
    split; [exact (IH lft sl El) | exact (IH r sr Er)].
Qed.

(** A statement that is there and has no nil node. *)
Lemma parseStatement_complete : forall fuel p os q,
  parseStatement fuel p = Returns (os, q) ->
  step_post p q (exists s, os = Some s /\ Statement_complete s).
Proof.
  intros fuel p os q H. unfold parseStatement in H.
  destruct (String.eqb (Typ (curToken p)) LET).
  - apply bind_Returns in H. destruct H as ([ls q'] & Ha & Hk).
    injection Hk as <- <-. cbn [fst snd].
    unfold parseLetStatement, expectPeek in Ha.
    destruct (peekTokenIs p IDENT); cbn [negb] in Ha.
    2:{ injection Ha as <- <-. apply step_post_addError. }
    destruct (peekTokenIs (nextToken p) ASSIGN); cbn [negb] in Ha.
    2:{ injection Ha as <- <-. apply step_post_after_next. apply step_post_addError. }
    apply bind_Returns in Ha. destruct Ha as (p3 & Hskip & Hk).
    injection Hk as <- <-. do 2 apply step_post_after_next.
    apply (step_post_weaken _ _ True); [|apply (skipToSemicolon_post _ _ _ Hskip)].
    intros _. eexists. split; [reflexivity|]. cbn. discriminate.
  - destruct (String.eqb (Typ (curToken p)) RETURN).
    + apply bind_Returns in H. destruct H as ([rs q'] & Ha & Hk).
      injection Hk as <- <-. cbn [fst snd]. unfold parseReturnStatement in Ha.
      apply bind_Returns in Ha. destruct Ha as (p2 & Hskip & Hk).
      injection Hk as <- <-. apply step_post_after_next.
      apply (step_post_weaken _ _ True); [|apply (skipToSemicolon_post _ _ _ Hskip)].
      intros _. eexists. split; [reflexivity | exact I].
    + apply bind_Returns in H. destruct H as ([es q'] & Ha & Hk).
      injection Hk as <- <-. cbn [fst snd]. unfold parseExpressionStatement in Ha.
      apply bind_Returns in Ha. destruct Ha as (a & Ha & Hk). injection Hk as <- <-.
      assert (Hn : step_post p (if peekTokenIs (snd a) SEMICOLON
                                then nextToken (snd a) else snd a) (renders (fst a))).
      { destruct (parseExpression_post_all fuel) as (He & _).
        destruct (peekTokenIs (snd a) SEMICOLON);
          [apply step_post_next|]; apply (He _ _ _ Ha). }
      apply (step_post_weaken _ _ (renders (fst a))); [|exact Hn].
      intros (e & s & E & Hs). eexists. split; [reflexivity|].
      cbn. rewrite E. apply (String_complete e s Hs).
Qed.

Lemma ParseProgram_loop_complete : forall fuel stmts p stmts' p',
  ParseProgram_loop fuel stmts p = Returns (stmts', p') ->
  step_post p p' (Forall Statement_complete stmts -> Forall Statement_complete stmts').
Proof.
  induction fuel as [|fuel IH]; intros stmts p stmts' p' H; [discriminate H|].
  rewrite ParseProgram_loop_S in H. destruct (curTokenIs p EOF).
  - injection H as <- <-. apply step_post_refl. auto.
  - apply bind_Returns in H. destruct H as ([os q] & Ha & Hk). cbn [fst snd] in Hk.
    apply (step_post_trans p q _ _ _ (parseStatement_complete _ _ _ _ Ha)).
    apply step_post_after_next.
    eapply step_post_weaken; [|apply (IH _ _ _ _ Hk)].
    intros Hnext (s & -> & Hs) Hall. apply Hnext.
    apply Forall_app. split; [exact Hall | constructor; [exact Hs | constructor]].
Qed.

(** A program that was parsed without a diagnostic has no nil node: none of
    its statements is a nil pointer, every let statement has its Name, every
    expression statement its Expression and every prefix and infix node its
    operands; and its String method runs through. *)
Theorem clean_parse_renders : forall fuel p prog p',
  ParseProgram fuel p = Returns (prog, p') ->
  Errors p' = Errors p ->
  Forall Statement_complete (Statements prog) /\
  exists r, Program_String prog = Some r.
Proof.
  intros fuel p prog p' H He. unfold ParseProgram in H.
  apply bind_Returns in H. destruct H as ([stmts q] & Ha & Hk). injection Hk as <- <-.
  destruct (ParseProgram_loop_post _ _ _ _ _ Ha) as (_ & ext & E & G).
  destruct (ParseProgram_loop_complete _ _ _ _ _ Ha) as (_ & ext' & E' & G').
  cbn [snd] in He. unfold Errors in He.
  assert (Hext : ext = []).
  { rewrite E in He. rewrite <- (app_nil_r (errors p)) in He at 2.
    apply app_inv_head in He. exact He. }
  assert (Hext' : ext' = []).
  { rewrite E' in He. rewrite <- (app_nil_r (errors p)) in He at 2.
    apply app_inv_head in He. exact He. }
  cbn [Statements fst]. split.
  - apply (G' Hext'). constructor.
  - unfold Program_String. cbn [Statements]. apply (G Hext).
    exists EmptyString. reflexivity.
Qed.

Lemma clean_parse_renders_witness :
  exists prog p' r,
    ParseProgram 16 (parser.New (lexer.New "-a * b; let x = 1;")) = Returns (prog, p') /\
    Forall Statement_complete (Statements prog) /\
    Program_String prog = Some r.
Proof.
  assert (H : exists prog p',
             ParseProgram 16 (parser.New (lexer.New "-a * b; let x = 1;"))
             = Returns (prog, p') /\
             Errors p' = Errors (parser.New (lexer.New "-a * b; let x = 1;"))).
  { eexists. eexists. split; vm_compute; reflexivity. }
  destruct H as (prog & p' & H & He).
  destruct (clean_parse_renders _ _ _ _ H He) as (Hc & r & Hr).
  exists prog, p', r. split; [exact H|]. split; assumption.
Defined.

(* ================================================================= *)
(** ** Termination *)

Lemma live_le : forall t, live t <= 1.
Proof. intros t. unfold live. destruct (String.eqb (Typ t) EOF); lia. Qed.

Lemma length_view : forall lx,
  String.length (view lx) = String.length (input lx) - position lx.
Proof. intros lx. apply length_drop. Qed.

(** Each nextToken lowers the weight by one at least, down to 0. *)
Lemma weight_nextToken : forall p,
  lexer_inv (l p) -> weight (nextToken p) <= pred (weight p).
Proof.
  intros p Hinv. unfold weight.
  rewrite nextToken_l, nextToken_cur, nextToken_peek.
  pose proof (live_le (peekToken p)) as Hp. pose proof (live_le (curToken p)) as Hc.
  destruct (view (l p)) as [|c r] eqn:Hv.
  - destruct (NextToken_eof (l p) Hinv Hv) as (H & _ & H2).
    rewrite H. cbn [fst snd]. rewrite H2. change (live eofToken) with 0.
    cbn [String.length]. lia.
  - pose proof (NextToken_advances (l p) Hinv) as Hpr.
    pose proof (length_view (l p)) as L1.
    pose proof (length_view (snd (NextToken (l p)))) as L2.
    rewrite NextToken_input in L2. rewrite Hv in L1. cbn [String.length] in L1.
    pose proof (live_le (fst (NextToken (l p)))) as Ht.
    cbn [String.length]. lia.
Qed.

Lemma parseExpression_S : forall fuel prec p,
  parseExpression (S fuel) prec p
  = match lookup (prefixParseFns p) (Typ (curToken p)) with
    | None => Returns (None, noPrefixParseFnError (Typ (curToken p)) p)
    | Some prefix =>
        r <- match prefix with
             | parseIdentifierFn => Returns (parseIdentifier p)
             | parseIntegerLiteralFn => Returns (parseIntegerLiteral p)
             | parsePrefixExpressionFn => parsePrefixExpression fuel p
             end ;;
        parseExpression_loop fuel prec (fst r) (snd r)
    end.
Proof. reflexivity. Qed.

Lemma parseExpression_loop_S : forall fuel prec lft p,
  parseExpression_loop (S fuel) prec lft p
  = if negb (peekTokenIs p SEMICOLON) && (prec <? peekPrecedence p) then
      match lookup (infixParseFns p) (Typ (peekToken p)) with
      | None => Returns (lft, p)
      | Some parseInfixExpressionFn =>
          r <- parseInfixExpression fuel lft (nextToken p) ;;
          parseExpression_loop fuel prec (fst r) (snd r)
      end
    else Returns (lft, p).
Proof. reflexivity. Qed.

Lemma parsePrefixExpression_S : forall fuel p,
  parsePrefixExpression (S fuel) p
  = r <- parseExpression fuel PREFIX (nextToken p) ;;
    Returns (Some (PrefixExpression (curToken p) (Literal (curToken p)) (fst r)), snd r).
Proof. reflexivity. Qed.

Lemma parseInfixExpression_S : forall fuel lft p,
  parseInfixExpression (S fuel) lft p
  = r <- parseExpression fuel (curPrecedence p) (nextToken p) ;;
    Returns (Some (InfixExpression (curToken p) lft (Literal (curToken p)) (fst r)), snd r).
Proof. reflexivity. Qed.

Lemma tables_ok_nextToken : forall p, tables_ok p -> tables_ok (nextToken p).
Proof.
  intros p H. destruct (step_post_nextToken p) as ((T1 & T2) & _).
  unfold tables_ok. rewrite T1, T2. exact H.
Qed.

Lemma live_zero : forall t, live t = 0 -> Typ t = EOF.
Proof.
  intros t H. unfold live in H. destruct (String.eqb_spec (Typ t) EOF); [assumption|discriminate].
Qed.

Section ExpressionTermination.

Variable Inv : Parser -> Prop.
Hypothesis Inv_nextToken : forall p, Inv p -> Inv (nextToken p).
Hypothesis Inv_addError : forall msg p, Inv p -> Inv (addError msg p).

Definition good (p : Parser) : Prop := lexer_inv (l p) /\ tables_ok p /\ Inv p.

Lemma good_nextToken : forall p, good p -> good (nextToken p).
Proof.
  intros p (H1 & H2 & H3). split; [rewrite nextToken_l; apply NextToken_inv|].
  split; [apply tables_ok_nextToken; exact H2 | apply Inv_nextToken; exact H3].
Qed.

Lemma good_addError : forall msg p, good p -> good (addError msg p).
Proof.
  intros msg p (H1 & H2 & H3). split; [exact H1|]. split; [exact H2|].
  apply Inv_addError. exact H3.
Qed.

Lemma weight_addError : forall msg p, weight (addError msg p) = weight p.
Proof. reflexivity. Qed.

Lemma good_weight_next : forall p n,
  good p -> weight p <= S n -> good (nextToken p) /\ weight (nextToken p) <= n.
Proof.
  intros p n Hg Hw. split; [apply good_nextToken; exact Hg|].
  destruct Hg as (Hinv & _). pose proof (weight_nextToken p Hinv). lia.
Qed.

(** The prefix rule for an operator and the infix rule return if
    parseExpression does on the state behind the operator. *)
Lemma prefix_from_expression : forall p,
  terminates good (nextToken p) (fun f => parseExpression f PREFIX (nextToken p)) ->
  weight (nextToken p) <= weight p ->
  terminates good p (fun f => parsePrefixExpression f p).
Proof.
  intros p (fuel & r & H & Hg & Hw) Hle.
  exists (S fuel). eexists. rewrite parsePrefixExpression_S, H. cbn [bind].
  split; [reflexivity|]. cbn [snd]. split; [exact Hg | lia].
Qed.

Lemma infix_from_expression : forall lft p,
  terminates good (nextToken p)
    (fun f => parseExpression f (curPrecedence p) (nextToken p)) ->
  weight (nextToken p) <= weight p ->
  terminates good p (fun f => parseInfixExpression f lft p).
Proof.
  intros lft p (fuel & r & H & Hg & Hw) Hle.
  exists (S fuel). eexists. rewrite parseInfixExpression_S, H. cbn [bind].
  split; [reflexivity|]. cbn [snd]. split; [exact Hg | lia].
Qed.

Lemma loop_mono : forall fuel prec lft p r,
  parseExpression_loop fuel prec lft p = Returns r ->
  forall fuel', fuel <= fuel' -> parseExpression_loop fuel' prec lft p = Returns r.
Proof. intros fuel prec lft p. apply (parseExpression_mono_all fuel). Qed.

Lemma prefix_mono : forall fuel p r,
  parsePrefixExpression fuel p = Returns r ->
  forall fuel', fuel <= fuel' -> parsePrefixExpression fuel' p = Returns r.
Proof. intros fuel p. apply (parseExpression_mono_all fuel). Qed.

Lemma infix_mono : forall fuel lft p r,
  parseInfixExpression fuel lft p = Returns r ->
  forall fuel', fuel <= fuel' -> parseInfixExpression fuel' lft p = Returns r.
Proof. intros fuel lft p. apply (parseExpression_mono_all fuel). Qed.

Lemma expression_terminates_all : forall n,
  (forall prec p, good p -> weight p <= n ->
     terminates good p (fun f => parseExpression f prec p)) /\
  (forall prec lft p, good p -> weight p <= n ->
     terminates good p (fun f => parseExpression_loop f prec lft p)).
Proof.
  induction n as [|n (IHe & IHl)].
  - split.
    + intros prec p Hg Hw. exists 1. eexists. rewrite parseExpression_S.
      assert (Hc : Typ (curToken p) = EOF).
      { apply live_zero. unfold weight in Hw. lia. }
      pose proof Hg as (Hinv & (Ht & Ht') & Hi). rewrite Hc, Ht.
      split; [reflexivity|]. cbn [snd]. unfold noPrefixParseFnError.
      split; [apply good_addError; exact Hg|].
      rewrite weight_addError. lia.
    + intros prec lft p Hg Hw. exists 1. eexists. rewrite parseExpression_loop_S.
      assert (Hc : Typ (peekToken p) = EOF).
      { apply live_zero. unfold weight in Hw. lia. }
      pose proof Hg as (Hinv & (Ht & Ht') & Hi). rewrite Hc, Ht'.
      destruct (negb (peekTokenIs p SEMICOLON) && (prec <? peekPrecedence p));
        (split; [reflexivity|]); cbn [snd]; (split; [exact Hg | lia]).
  - assert (Hloop : forall prec lft p, good p -> weight p <= S n ->
              terminates good p (fun f => parseExpression_loop f prec lft p)).
    { intros prec lft p Hg Hw.
      destruct (negb (peekTokenIs p SEMICOLON) && (prec <? peekPrecedence p)) eqn:Hc.
      2:{ exists 1. eexists. rewrite parseExpression_loop_S, Hc.
          split; [reflexivity|]. cbn [snd]. split; [exact Hg | lia]. }
      destruct (lookup (infixParseFns p) (Typ (peekToken p))) as [[]|] eqn:Hi.
      2:{ exists 1. eexists. rewrite parseExpression_loop_S, Hc, Hi.
          split; [reflexivity|]. cbn [snd]. split; [exact Hg | lia]. }
      destruct (good_weight_next p n Hg Hw) as (Hg1 & Hw1).
      destruct (good_weight_next (nextToken p) n Hg1 ltac:(lia)) as (Hg2 & Hw2).
      assert (Hinf : terminates good (nextToken p)
                       (fun f => parseInfixExpression f lft (nextToken p))).
      { apply infix_from_expression.
        - destruct (IHe (curPrecedence (nextToken p)) _ Hg2 Hw2) as (f & r & H & G & W).
          exists f, r. auto.
        - destruct Hg1 as (Hinv1 & _). pose proof (weight_nextToken _ Hinv1). lia. }
      destruct Hinf as (f1 & r1 & H1 & G1 & W1).
      destruct (IHl prec (fst r1) (snd r1) G1 ltac:(lia)) as (f2 & r2 & H2 & G2 & W2).
      exists (S (Nat.max f1 f2)), r2.
      rewrite parseExpression_loop_S, Hc, Hi.
      rewrite (infix_mono _ _ _ _ H1 (Nat.max f1 f2)) by lia. cbn [bind].
      rewrite (loop_mono _ _ _ _ _ H2 (Nat.max f1 f2)) by lia.
      split; [reflexivity|]. split; [exact G2|].
      pose proof (weight_nextToken p (proj1 Hg)). lia. }
    split; [|exact Hloop].
    intros prec p Hg Hw.
    destruct (lookup (prefixParseFns p) (Typ (curToken p))) as [fn|] eqn:Hfn.
    2:{ exists 1. eexists. rewrite parseExpression_S, Hfn.
        split; [reflexivity|]. cbn [snd]. unfold noPrefixParseFnError.
        split; [apply good_addError; exact Hg | rewrite weight_addError; lia]. }
    assert (Hpre : exists f1 r1,
               (forall f, f1 <= f ->
                  match fn with
                  | parseIdentifierFn => Returns (parseIdentifier p)
                  | parseIntegerLiteralFn => Returns (parseIntegerLiteral p)
                  | parsePrefixExpressionFn => parsePrefixExpression f p
                  end = Returns r1) /\
               good (snd r1) /\ weight (snd r1) <= weight p).
    { destruct fn.
      - exists 0. eexists. split; [intros; reflexivity|]. split; [exact Hg | cbn; lia].
      - exists 0. eexists. split; [intros; reflexivity|]. unfold parseIntegerLiteral.
        destruct (strconv.ParseInt (Literal (curToken p))); cbn [snd].
        + split; [exact Hg | lia].
        + split; [apply good_addError; exact Hg | rewrite weight_addError; lia].
      - destruct (good_weight_next p n Hg Hw) as (Hg1 & Hw1).
        assert (Hp : terminates good p (fun f => parsePrefixExpression f p)).
        { apply prefix_from_expression.
          - destruct (IHe PREFIX _ Hg1 Hw1) as (f & r & H & G & W). exists f, r. auto.
          - destruct Hg as (Hinv & _). pose proof (weight_nextToken _ Hinv). lia. }
        destruct Hp as (f1 & r1 & H1 & G1 & W1).
        exists f1, r1. split; [|split; assumption].
        intros f Hf. apply (prefix_mono _ _ _ H1 f Hf). }
    destruct Hpre as (f1 & r1 & H1 & G1 & W1).
    destruct (Hloop prec (fst r1) (snd r1) G1 ltac:(lia)) as (f2 & r2 & H2 & G2 & W2).
    exists (S (Nat.max f1 f2)), r2. rewrite parseExpression_S, Hfn.
    rewrite (H1 (Nat.max f1 f2)) by lia. cbn [bind].
    rewrite (loop_mono _ _ _ _ _ H2 (Nat.max f1 f2)) by lia.
    split; [reflexivity|]. split; [exact G2 | lia].
Qed.

Lemma parseExpression_terminates_good : forall prec p,
  good p -> terminates good p (fun f => parseExpression f prec p).
Proof.
  intros prec p Hg. apply (proj1 (expression_terminates_all (weight p))); [exact Hg | lia].
Qed.

End ExpressionTermination.

Lemma upcoming_nextToken : forall p i, upcoming (nextToken p) i = upcoming p (S i).
Proof.
  intros p [|[|k]]; cbn [upcoming].
  - apply nextToken_cur.
  - rewrite nextToken_peek. reflexivity.
  - rewrite nextToken_l. reflexivity.
Qed.

Lemma keyword_closed_nextToken : forall p, keyword_closed p -> keyword_closed (nextToken p).
Proof.
  intros p H i Hi. rewrite upcoming_nextToken in Hi.
  destruct (H (S i) Hi) as (j & Hj & Hs). destruct j as [|j]; [lia|].
  exists j. split; [lia|]. rewrite upcoming_nextToken. exact Hs.
Qed.

Lemma keyword_closed_addError : forall msg p,
  keyword_closed p -> keyword_closed (addError msg p).
Proof.
  intros msg p H i Hi. assert (E : forall k, upcoming (addError msg p) k = upcoming p k)
    by (intros [|[|k]]; reflexivity).
  rewrite E in Hi. destruct (H i Hi) as (j & Hj & Hs).
  exists j. rewrite E. auto.
Qed.

(** The parser states of the termination argument: a well-formed scanner,
    no rule for EOF, and a semicolon behind every let and return. *)
Definition closed_state (p : Parser) : Prop := good keyword_closed p.

Lemma closed_state_nextToken : forall p, closed_state p -> closed_state (nextToken p).
Proof. apply good_nextToken. apply keyword_closed_nextToken. Qed.

Lemma closed_state_addError : forall msg p, closed_state p -> closed_state (addError msg p).
Proof. apply good_addError. apply keyword_closed_addError. Qed.

Lemma weight_next_le : forall p, closed_state p -> weight (nextToken p) <= weight p.
Proof. intros p (Hinv & _). pose proof (weight_nextToken p Hinv). lia. Qed.

(** The loop that looks for the semicolon returns when there is one. *)
Lemma skipToSemicolon_terminates : forall j p,
  closed_state p -> is_semicolon (upcoming p j) = true ->
  exists fuel q, skipToSemicolon fuel p = Returns q /\
                 closed_state q /\ weight q <= weight p.
Proof.
  induction j as [|j IH]; intros p Hg Hs.
  - exists 1, p. cbn [skipToSemicolon]. unfold curTokenIs.
    cbn [upcoming] in Hs. unfold is_semicolon in Hs. rewrite Hs. auto.
  - destruct (curTokenIs p SEMICOLON) eqn:Hc.
    + exists 1, p. cbn [skipToSemicolon]. rewrite Hc. auto.
    + destruct (IH (nextToken p) (closed_state_nextToken p Hg)) as (fuel & q & H & G & W).
      { rewrite upcoming_nextToken. exact Hs. }
      exists (S fuel), q. cbn [skipToSemicolon]. rewrite Hc.
      split; [exact H|]. split; [exact G|]. pose proof (weight_next_le p Hg). lia.
Qed.

Lemma parseStatement_terminates : forall p,
  closed_state p -> terminates closed_state p (fun f => parseStatement f p).
Proof.
  intros p Hg. unfold terminates, parseStatement.
  pose proof (closed_state_nextToken p Hg) as Hg1.
  pose proof (closed_state_nextToken _ Hg1) as Hg2.
  pose proof (weight_next_le p Hg) as W1. pose proof (weight_next_le _ Hg1) as W2.
  destruct (String.eqb (Typ (curToken p)) LET) eqn:Hlet.
  - assert (Hk : is_keyword_stmt (upcoming p 0) = true).
    { cbn [upcoming]. unfold is_keyword_stmt. rewrite Hlet. reflexivity. }
    destruct (proj2 (proj2 Hg) 0 Hk) as (j & Hj & Hs).
    unfold parseLetStatement, expectPeek.
    destruct (peekTokenIs p IDENT) eqn:Hid; cbn [negb].
    2:{ exists 0. eexists. split; [reflexivity|]. cbn [bind fst snd].
        split; [apply closed_state_addError; exact Hg | unfold peekError; cbn; lia]. }
    destruct (peekTokenIs (nextToken p) ASSIGN) eqn:Has; cbn [negb].
    2:{ exists 0. eexists. split; [reflexivity|]. cbn [bind fst snd].
        split; [apply closed_state_addError; exact Hg1|].
        unfold peekError. rewrite weight_addError. lia. }
    assert (Hj2 : exists k, j = S (S k)).
    { destruct j as [|[|k]]; [lia| |exists k; reflexivity].
      cbn [upcoming] in Hs. unfold is_semicolon in Hs. unfold peekTokenIs in Hid.
      apply String.eqb_eq in Hs, Hid. rewrite Hs in Hid. discriminate Hid. }
    destruct Hj2 as (k & ->).
    destruct (skipToSemicolon_terminates k (nextToken (nextToken p)) Hg2)
      as (fuel & q & H & G & W).
    { rewrite !upcoming_nextToken. exact Hs. }
    exists fuel. eexists. rewrite H. cbn [bind fst snd].
    split; [reflexivity|]. cbn [snd]. split; [exact G | lia].
  - destruct (String.eqb (Typ (curToken p)) RETURN) eqn:Hret.
    + assert (Hk : is_keyword_stmt (upcoming p 0) = true).
      { cbn [upcoming]. unfold is_keyword_stmt. rewrite Hret. apply orb_true_r. }
      destruct (proj2 (proj2 Hg) 0 Hk) as (j & Hj & Hs).
      destruct j as [|j]; [lia|].
      destruct (skipToSemicolon_terminates j (nextToken p) Hg1) as (fuel & q & H & G & W).
      { rewrite upcoming_nextToken. exact Hs. }
      unfold parseReturnStatement. exists fuel. eexists. rewrite H. cbn [bind fst snd].
      split; [reflexivity|]. cbn [snd]. split; [exact G | lia].
    + destruct (parseExpression_terminates_good keyword_closed
                  keyword_closed_nextToken keyword_closed_addError LOWEST p Hg)
        as (fuel & r & H & G & W).
      unfold parseExpressionStatement. exists fuel. eexists. rewrite H. cbn [bind fst snd].
      split; [reflexivity|]. cbn [snd]. destruct (peekTokenIs (snd r) SEMICOLON).
      * split; [apply closed_state_nextToken; exact G|].
        pose proof (weight_next_le _ G). lia.
      * split; [exact G | exact W].
Qed.

Lemma ParseProgram_loop_terminates : forall n stmts p,
  closed_state p -> weight p <= n ->
  exists fuel r, ParseProgram_loop fuel stmts p = Returns r.
Proof.
  induction n as [|n IH]; intros stmts p Hg Hw.
  - exists 1. eexists. rewrite ParseProgram_loop_S. unfold curTokenIs.
    assert (Hc : Typ (curToken p) = EOF) by (apply live_zero; unfold weight in Hw; lia).
    rewrite Hc. reflexivity.
  - destruct (curTokenIs p EOF) eqn:Hc.
    { exists 1. eexists. rewrite ParseProgram_loop_S, Hc. reflexivity. }
    destruct (parseStatement_terminates p Hg) as (f1 & r1 & H1 & G1 & W1).
    assert (Hw' : weight (nextToken (snd r1)) <= n).
    { pose proof (weight_nextToken _ (proj1 G1)). lia. }
    destruct (IH (match fst r1 with
                  | Some stmt => (stmts ++ [stmt])%list
                  | None => stmts
                  end) _ (closed_state_nextToken _ G1) Hw') as (f2 & r2 & H2).
    exists (S (Nat.max f1 f2)), r2. rewrite ParseProgram_loop_S, Hc.
    rewrite (parseStatement_mono _ _ _ H1 (Nat.max f1 f2)) by lia. cbn [bind].
    apply (ParseProgram_loop_mono _ _ _ _ H2). lia.
Qed.

Lemma New_tables_ok : forall lx, tables_ok (parser.New lx).
Proof.
  intros lx. unfold parser.New. cbv zeta.
  apply tables_ok_nextToken, tables_ok_nextToken. split; reflexivity.
Qed.

(** parseExpression returns from every state of a parser that New built:
    for every precedence and whatever tokens are buffered and left to scan,
    some fuel is enough, and the parser is left with no more to read than
    it had. *)
Theorem parseExpression_terminates : forall prec p,
  lexer_inv (l p) -> tables_ok p ->
  exists fuel r, parseExpression fuel prec p = Returns r /\
                 lexer_inv (l (snd r)) /\ tables_ok (snd r) /\
                 weight (snd r) <= weight p.
Proof.
  intros prec p Hinv Ht.
  destruct (parseExpression_terminates_good (fun _ => True) (fun _ _ => I)
              (fun _ _ _ => I) prec p) as (fuel & r & H & (G1 & G2 & _) & W).
  { split; [exact Hinv|]. split; [exact Ht | exact I]. }
  exists fuel, r. auto.
Qed.

Lemma parseExpression_terminates_witness :
  exists fuel r, parseExpression fuel LOWEST (parser.New (lexer.New "a + -b * (")) = Returns r.
Proof.
  destruct (parseExpression_terminates LOWEST (parser.New (lexer.New "a + -b * (")))
    as (fuel & r & H & _).
  - unfold lexer_inv. vm_compute. split; reflexivity.
  - split; reflexivity.
  - exists fuel, r. exact H.
Defined.

Lemma tokens_nth : forall n lx i,
  i < n -> nth_error (fst (tokens n lx)) i = Some (fst (NextToken (after i lx))).
Proof.
  induction n as [|n IH]; intros lx i Hi; [lia|].
  rewrite tokens_S. destruct i as [|i]; [reflexivity|].
  cbn [nth_error after]. apply IH. lia.
Qed.

Lemma tokens_length : forall n lx, List.length (fst (tokens n lx)) = n.
Proof.
  induction n as [|n IH]; intros lx; [reflexivity|].
  rewrite tokens_S. cbn [List.length]. rewrite IH. reflexivity.
Qed.

Lemma keywords_closed_nth : forall ts,
  keywords_closed ts = true ->
  forall i t, nth_error ts i = Some t -> is_keyword_stmt t = true ->
    exists j t', i < j /\ nth_error ts j = Some t' /\ is_semicolon t' = true.
Proof.
  induction ts as [|t0 ts IH]; intros H i t Hi Hk; [destruct i; discriminate Hi|].
  cbn [keywords_closed] in H. apply andb_true_iff in H. destruct H as [H0 Hts].
  destruct i as [|i].
  - injection Hi as ->. rewrite Hk in H0. cbn [negb orb] in H0.
    apply existsb_exists in H0. destruct H0 as (x & Hin & Hx).
    apply In_nth_error in Hin. destruct Hin as (k & Hkk).
    exists (S k), x. split; [lia|]. split; [exact Hkk | exact Hx].
  - destruct (IH Hts i t Hi Hk) as (j & t' & Hj & Hn & Hs).
    exists (S j), t'. split; [lia|]. split; [exact Hn | exact Hs].
Qed.

(** The test on the first tokens of a text, as many as the text has bytes,
    speaks for all its tokens: the later ones are EOF tokens. *)
Lemma keyword_closed_New : forall src,
  keywords_closed (fst (tokens (String.length src) (lexer.New src))) = true ->
  keyword_closed (parser.New (lexer.New src)).
Proof.
  intros src H.
  assert (Hstream : forall i,
            is_keyword_stmt (fst (NextToken (after i (lexer.New src)))) = true ->
            exists j, i < j /\
                      is_semicolon (fst (NextToken (after j (lexer.New src)))) = true).
  { intros i Hk. destruct (Nat.lt_ge_cases i (String.length src)) as [Hi|Hi].
    - destruct (keywords_closed_nth _ H i _ (tokens_nth _ _ _ Hi) Hk)
        as (j & t' & Hj & Hn & Hs).
      assert (Hjn : j < String.length src).
      { rewrite <- (tokens_length (String.length src) (lexer.New src)).
        apply nth_error_Some. rewrite Hn. discriminate. }
      rewrite (tokens_nth _ _ _ Hjn) in Hn. injection Hn as <-.
      exists j. auto.
    - pose proof (eof_from_length src (i - String.length src)) as He.
      replace (String.length src + (i - String.length src)) with i in He by lia.
      rewrite He in Hk. discriminate Hk. }
  unfold parser.New. cbv zeta.
  apply keyword_closed_nextToken, keyword_closed_nextToken.
  intros [|[|k]] Hk; try discriminate Hk.
  cbn [upcoming l registerInfix registerPrefix] in Hk.
  destruct (Hstream k Hk) as (j & Hj & Hs).
  exists (S (S j)). split; [lia | exact Hs].
Qed.

Lemma ParseProgram_loop_ends_at_EOF : forall fuel stmts p r,
  ParseProgram_loop fuel stmts p = Returns r -> Typ (curToken (snd r)) = EOF.
Proof.
  induction fuel as [|fuel IH]; intros stmts p r H; [discriminate H|].
  rewrite ParseProgram_loop_S in H. destruct (curTokenIs p EOF) eqn:Hc.
  - injection H as <-. apply String.eqb_eq. exact Hc.
  - apply bind_Returns in H. destruct H as (a & _ & Hk). apply (IH _ _ _ Hk).
Qed.

(** Parsing returns for every text in which each let and each return
    keyword has a semicolon somewhere behind it (in particular for every
    text without these keywords), and it returns with the whole text read:
    the current token is EOF. *)
Theorem parse_terminates : forall src,
  keywords_closed (fst (tokens (String.length src) (lexer.New src))) = true ->
  exists fuel prog p,
    parse fuel src = Returns (prog, p) /\ Typ (curToken p) = EOF.
Proof.
  intros src H. unfold parse, ParseProgram.
  assert (Hg : closed_state (parser.New (lexer.New src))).
  { split; [apply New_ok|]. split; [apply New_tables_ok | apply keyword_closed_New; exact H]. }
  destruct (ParseProgram_loop_terminates _ [] _ Hg (le_n _)) as (fuel & r & Hr).
  exists fuel. eexists. eexists. rewrite Hr. cbn [bind]. split; [reflexivity|].
  apply (ParseProgram_loop_ends_at_EOF _ _ _ _ Hr).
Qed.

Lemma parse_terminates_witness :
  exists fuel prog p,
    parse fuel "let x = 1 + ; a * -b return y; 7" = Returns (prog, p) /\
    Typ (curToken p) = EOF.
Proof.
  apply parse_terminates. vm_compute. reflexivity.
Defined.

(* ================================================================= *)
(** ** Precedence and associativity, for all operands and operators *)

Lemma New_standard_tables : forall lx, standard_tables (parser.New lx).
Proof.
  intros lx. unfold parser.New. cbv zeta.
  match goal with
  | |- standard_tables (nextToken (nextToken ?q)) =>
      destruct (step_post_nextToken q) as ((A1 & A2) & _);
      destruct (step_post_nextToken (nextToken q)) as ((B1 & B2) & _)
  end.
  split; [rewrite B1, A1 | rewrite B2, A2]; reflexivity.
Qed.

Lemma standard_tables_nextToken : forall p,
  standard_tables p -> standard_tables (nextToken p).
Proof.
  intros p (H1 & H2). destruct (step_post_nextToken p) as ((A1 & A2) & _).
  split; [rewrite A1; exact H1 | rewrite A2; exact H2].
Qed.

Lemma infix_operator_facts : forall t prec p,
  infix_operator t prec -> standard_tables p ->
  2 <= prec /\ prec <= 5 /\ String.eqb (Typ t) SEMICOLON = false /\
  lookup (infixParseFns p) (Typ t) = Some parseInfixExpressionFn.
Proof.
  intros t prec p (Hp & Hin) (_ & Hi). rewrite Hi.
  simpl in Hin.
  repeat match goal with
         | H : _ \/ _ |- _ => destruct H as [H|H]
         end; try contradiction; rewrite <- Hin in *;
    vm_compute in Hp; injection Hp as <-; repeat split; try reflexivity; lia.
Qed.

(** The loop of parseExpression stops in front of a token without
    precedence. *)
Lemma loop_stops : forall fuel prec lft p,
  lookup precedences (Typ (peekToken p)) = None -> 1 <= prec ->
  parseExpression_loop (S fuel) prec lft p = Returns (lft, p).
Proof.
  intros fuel prec lft p H Hp. rewrite parseExpression_loop_S.
  unfold peekPrecedence. rewrite H.
  destruct (Nat.ltb_spec prec LOWEST) as [Hl|Hl]; [unfold LOWEST in Hl; lia|].
  rewrite andb_false_r. reflexivity.
Qed.

(** The loop of parseExpression in front of an infix operator: it goes on
    if and only if the operator binds tighter than the precedence at hand. *)
Lemma loop_on_operator : forall fuel prec lft p q,
  standard_tables p -> infix_operator (peekToken p) q ->
  parseExpression_loop (S fuel) prec lft p
  = if prec <? q
    then r <- parseInfixExpression fuel lft (nextToken p) ;;
         parseExpression_loop fuel prec (fst r) (snd r)
    else Returns (lft, p).
Proof.
  intros fuel prec lft p q Ht Hop.
  destruct (infix_operator_facts _ _ p Hop Ht) as (_ & _ & Hs & Hi).
  rewrite parseExpression_loop_S. unfold peekTokenIs, peekPrecedence.
  rewrite Hs, (proj1 Hop), Hi. reflexivity.
Qed.

Lemma expression_on_identifier : forall fuel prec p,
  standard_tables p -> Typ (curToken p) = IDENT ->
  parseExpression (S fuel) prec p
  = parseExpression_loop fuel prec (Some (identExpr (curToken p))) p.
Proof.
  intros fuel prec p (Hp & _) Hc. rewrite parseExpression_S, Hp, Hc. reflexivity.
Qed.

(** An identifier, an operator, an identifier, a second operator and a
    third identifier, followed by a token without precedence (EOF, a
    semicolon, a parenthesis, ...): when the second operator binds tighter
    than the first, it takes the middle operand and its node becomes the
    right operand of the first operator; otherwise, also at equal
    precedence, the node of the first operator is complete and becomes the
    left operand of the second.  Four tokens are consumed. *)
Theorem precedence_climbing : forall (p : Parser) (q1 q2 fuel : nat),
  standard_tables p ->
  Typ (curToken p) = IDENT ->
  infix_operator (peekToken p) q1 ->
  Typ (peekToken (nextToken p)) = IDENT ->
  infix_operator (peekToken (nextToken (nextToken p))) q2 ->
  Typ (peekToken (nextToken (nextToken (nextToken p)))) = IDENT ->
  lookup precedences
    (Typ (peekToken (nextToken (nextToken (nextToken (nextToken p)))))) = None ->
  let a := identExpr (curToken p) in
  let op1 := peekToken p in
  let b := identExpr (peekToken (nextToken p)) in
  let op2 := peekToken (nextToken (nextToken p)) in
  let c := identExpr (peekToken (nextToken (nextToken (nextToken p)))) in
  parseExpression (8 + fuel) LOWEST p
  = Returns (Some (if q1 <? q2
                   then infixExpr op1 a (infixExpr op2 b c)
                   else infixExpr op2 (infixExpr op1 a b) c),
             nextToken (nextToken (nextToken (nextToken p)))).
Proof.
  intros p q1 q2 fuel Ht Ha Hop1 Hb Hop2 Hc Hend a op1 b op2 c.
  pose proof (standard_tables_nextToken _ Ht) as Ht1.
  pose proof (standard_tables_nextToken _ Ht1) as Ht2.
  pose proof (standard_tables_nextToken _ Ht2) as Ht3.
  pose proof (standard_tables_nextToken _ Ht3) as Ht4.
  destruct (infix_operator_facts _ _ p Hop1 Ht) as (L1 & U1 & _ & _).
  destruct (infix_operator_facts _ _ p Hop2 Ht) as (L2 & U2 & _ & _).
  set (p1 := nextToken p) in *. set (p2 := nextToken p1) in *.
  set (p3 := nextToken p2) in *. set (p4 := nextToken p3) in *.
  assert (C1 : curToken p1 = op1) by apply nextToken_cur.
  assert (C2 : curToken p2 = peekToken p1) by apply nextToken_cur.
  assert (C3 : curToken p3 = op2) by apply nextToken_cur.
  assert (C4 : curToken p4 = peekToken p3) by apply nextToken_cur.
  assert (P1 : curPrecedence p1 = q1).
  { unfold curPrecedence. rewrite C1. unfold op1. rewrite (proj1 Hop1). reflexivity. }
  assert (P3 : curPrecedence p3 = q2).
  { unfold curPrecedence. rewrite C3. unfold op2. rewrite (proj1 Hop2). reflexivity. }
  (* the operand behind the second operator *)
  assert (E4 : forall f prec, 1 <= prec ->
            parseExpression (S (S f)) prec p4 = Returns (Some c, p4)).
  { intros f prec Hprec. rewrite expression_on_identifier; [|exact Ht4|rewrite C4; exact Hc].
    rewrite loop_stops; [|exact Hend|exact Hprec]. rewrite C4. reflexivity. }
  assert (I3 : forall f lft,
            parseInfixExpression (S (S (S f))) lft p3
            = Returns (Some (InfixExpression op2 lft (Literal op2) (Some c)), p4)).
  { intros f lft. rewrite parseInfixExpression_S, P3.
    fold p4. rewrite E4 by lia. cbn [bind fst snd]. rewrite C3. reflexivity. }
  change (8 + fuel) with (S (S (S (S (S (S (S (S fuel)))))))).
  rewrite expression_on_identifier by assumption. fold a.
  rewrite (loop_on_operator _ _ _ p q1 Ht Hop1).
  destruct (Nat.ltb_spec LOWEST q1) as [_|Hx]; [|unfold LOWEST in Hx; lia].
  fold p1. rewrite parseInfixExpression_S, P1. fold p2.
  rewrite expression_on_identifier; [|exact Ht2|rewrite C2; exact Hb].
  rewrite C2. fold b.
  rewrite (loop_on_operator _ _ _ p2 q2 Ht2 Hop2).
  destruct (Nat.ltb_spec q1 q2) as [Hlt|Hge].
  - fold p3. rewrite I3. cbn [bind fst snd].
    rewrite loop_stops; [|exact Hend|lia]. cbn [bind fst snd].
    rewrite loop_stops; [|exact Hend|unfold LOWEST; lia].
    rewrite C1. reflexivity.
  - cbn [bind fst snd]. rewrite C1.
    rewrite (loop_on_operator _ _ _ p2 q2 Ht2 Hop2).
    destruct (Nat.ltb_spec LOWEST q2) as [_|Hx]; [|unfold LOWEST in Hx; lia].
    fold p3. rewrite I3. cbn [bind fst snd].
    rewrite loop_stops; [|exact Hend|unfold LOWEST; lia]. reflexivity.
Qed.

Lemma precedence_climbing_witness :
  parseExpression 8 LOWEST (parser.New (lexer.New "x == y < z)"))
  = Returns (Some (infixExpr {| Typ := EQ; Literal := "==" |}
                     (identExpr {| Typ := IDENT; Literal := "x" |})
                     (infixExpr {| Typ := LT; Literal := "<" |}
                        (identExpr {| Typ := IDENT; Literal := "y" |})
                        (identExpr {| Typ := IDENT; Literal := "z" |}))),
             nextToken (nextToken (nextToken (nextToken
               (parser.New (lexer.New "x == y < z)")))))).
Proof.
  refine (eq_trans
            (precedence_climbing (parser.New (lexer.New "x == y < z)")) 2 3 0
               (New_standard_tables _) _ _ _ _ _ _) _).
  - vm_compute. reflexivity.
  - split; [vm_compute; reflexivity | vm_compute; tauto].
  - vm_compute. reflexivity.
  - split; [vm_compute; reflexivity | vm_compute; tauto].
  - vm_compute. reflexivity.
  - vm_compute. reflexivity.
  - vm_compute. reflexivity.
Defined.

(* ================================================================= *)
(** ** What the nodes of a parsed program carry *)

Lemma parseExpression_tables : forall fuel prec p r,
  parseExpression fuel prec p = Returns r ->
  prefixParseFns (snd r) = prefixParseFns p /\ infixParseFns (snd r) = infixParseFns p.
Proof.
  intros fuel prec p r H.
  destruct (parseExpression_post_all fuel) as (He & _).
  destruct (He _ _ _ H) as (T & _). exact T.
Qed.

Lemma nextToken_tables : forall p,
  prefixParseFns (nextToken p) = prefixParseFns p /\
  infixParseFns (nextToken p) = infixParseFns p.
Proof. intros p. destruct (step_post_nextToken p) as (T & _). exact T. Qed.

Section NodeInvariant.

Variable pf : list (TokenType * prefixParseFn).
Variable inf : list (TokenType * infixParseFn).

Definition has_tables (p : Parser) : Prop :=
  prefixParseFns p = pf /\ infixParseFns p = inf.

Lemma has_tables_nextToken : forall p, has_tables p -> has_tables (nextToken p).
Proof.
  intros p (H1 & H2). destruct (nextToken_tables p) as (A1 & A2).
  split; congruence.
Qed.

Lemma parseExpression_nodes_all : forall fuel,
  (forall prec p r, has_tables p -> parseExpression fuel prec p = Returns r ->
     opt_ok pf inf (fst r) /\ has_tables (snd r)) /\
  (forall prec lft p r, has_tables p -> opt_ok pf inf lft ->
     parseExpression_loop fuel prec lft p = Returns r ->
     opt_ok pf inf (fst r) /\ has_tables (snd r)) /\
  (forall p r, has_tables p ->
     lookup pf (Typ (curToken p)) = Some parsePrefixExpressionFn ->
     parsePrefixExpression fuel p = Returns r ->
     opt_ok pf inf (fst r) /\ has_tables (snd r)) /\
  (forall lft p r, has_tables p -> opt_ok pf inf lft ->
     lookup inf (Typ (curToken p)) = Some parseInfixExpressionFn ->
     parseInfixExpression fuel lft p = Returns r ->
     opt_ok pf inf (fst r) /\ has_tables (snd r)).
Proof.
  induction fuel as [|fuel (IHe & IHl & IHp & IHi)].
  - repeat split; intros; discriminate.
  - split; [|split; [|split]].
    + intros prec p r Ht H. rewrite parseExpression_S in H.
      pose proof Ht as (Hpf & Hinf). rewrite Hpf in H.
      destruct (lookup pf (Typ (curToken p))) as [fn|] eqn:Hfn.
      2:{ injection H as <-. split; [exact I | exact Ht]. }
      apply bind_Returns in H. destruct H as (a & Ha & Hk).
      assert (Hpre : opt_ok pf inf (fst a) /\ has_tables (snd a)).
      { destruct fn.
        - injection Ha as <-. split; [|exact Ht]. split; [reflexivity | exact Hfn].
        - injection Ha as <-. unfold parseIntegerLiteral.
          destruct (strconv.ParseInt (Literal (curToken p))) eqn:Hv;
            (split; [|exact Ht]); [split; assumption | exact I].
        - apply (IHp _ _ Ht Hfn Ha). }
      destruct Hpre as (Hok & Ht'). apply (IHl _ _ _ _ Ht' Hok Hk).
    + intros prec lft p r Ht Hok H. rewrite parseExpression_loop_S in H.
      destruct (negb (peekTokenIs p SEMICOLON) && (prec <? peekPrecedence p)).
      2:{ injection H as <-. split; assumption. }
      pose proof Ht as (Hpf & Hinf). rewrite Hinf in H.
      destruct (lookup inf (Typ (peekToken p))) as [[]|] eqn:Hi.
      2:{ injection H as <-. split; assumption. }
      apply bind_Returns in H. destruct H as (a & Ha & Hk).
      destruct (IHi _ _ _ (has_tables_nextToken p Ht) Hok
                  ltac:(rewrite nextToken_cur; exact Hi) Ha) as (Hok' & Ht').
      apply (IHl _ _ _ _ Ht' Hok' Hk).
    + intros p r Ht Hfn H. rewrite parsePrefixExpression_S in H.
      apply bind_Returns in H. destruct H as (a & Ha & Hk). injection Hk as <-.
      destruct (IHe _ _ _ (has_tables_nextToken p Ht) Ha) as (Hok & Ht').
      cbn [fst snd]. split; [|exact Ht']. cbn [opt_ok node_ok].
      split; [reflexivity|]. split; [exact Hfn | exact Hok].
    + intros lft p r Ht Hl Hfn H. rewrite parseInfixExpression_S in H.
      apply bind_Returns in H. destruct H as (a & Ha & Hk). injection Hk as <-.
      destruct (IHe _ _ _ (has_tables_nextToken p Ht) Ha) as (Hok & Ht').
      cbn [fst snd]. split; [|exact Ht']. cbn [opt_ok node_ok].
      split; [reflexivity|]. split; [exact Hfn|]. split; [exact Hl | exact Hok].
Qed.

End NodeInvariant.

Lemma skipToSemicolon_tables : forall fuel p q,
  skipToSemicolon fuel p = Returns q ->
  prefixParseFns q = prefixParseFns p /\ infixParseFns q = infixParseFns p.
Proof.
  intros fuel p q H. destruct (skipToSemicolon_post _ _ _ H) as (T & _). exact T.
Qed.

(** In a program that ParseProgram returns, every expression was built by
    the rules of the dispatch tables, node by node: an identifier node has
    the literal of its token as value, an integer node the value that
    ParseInt gives for its literal, and a prefix or infix node has the
    literal of its operator token as operator. *)
Theorem parsed_nodes_ok : forall fuel p prog p',
  ParseProgram fuel p = Returns (prog, p') ->
  forall es e,
    In (ExprStmt (Some es)) (Statements prog) -> Expression_ es = Some e ->
    node_ok (prefixParseFns p) (infixParseFns p) e.
Proof.
  intros fuel p prog p' H. unfold ParseProgram in H.
  apply bind_Returns in H. destruct H as ([stmts q] & Ha & Hk). injection Hk as <- _.
  cbn [Statements fst].
  assert (G : forall fuel stmts p stmts' p',
            ParseProgram_loop fuel stmts p = Returns (stmts', p') ->
            forall pf inf, has_tables pf inf p ->
            (forall es e, In (ExprStmt (Some es)) stmts -> Expression_ es = Some e ->
                          node_ok pf inf e) ->
            forall es e, In (ExprStmt (Some es)) stmts' -> Expression_ es = Some e ->
                         node_ok pf inf e).
  { clear. induction fuel as [|fuel IH]; intros stmts p stmts' p' H pf inf Ht Hacc;
      [discriminate H|].
    rewrite ParseProgram_loop_S in H. destruct (curTokenIs p EOF).
    { injection H as <- _. exact Hacc. }
    apply bind_Returns in H. destruct H as ([os q] & Ha & Hk). cbn [fst snd] in Hk.
    destruct (parseStatement_post _ _ _ _ Ha) as ((T1 & T2) & _).
    assert (Ht' : has_tables pf inf (nextToken q)).
    { apply has_tables_nextToken. destruct Ht as (A & B). split; congruence. }
    apply (IH _ _ _ _ Hk pf inf Ht').
    intros es e Hin He. destruct os as [s|]; [|apply (Hacc es e Hin He)].
    apply in_app_or in Hin. destruct Hin as [Hin|[Hin|[]]]; [apply (Hacc es e Hin He)|].
    subst s. unfold parseStatement in Ha.
    destruct (String.eqb (Typ (curToken p)) LET).
    { apply bind_Returns in Ha. destruct Ha as (a & _ & Hk'). discriminate Hk'. }
    destruct (String.eqb (Typ (curToken p)) RETURN).
    { apply bind_Returns in Ha. destruct Ha as (a & _ & Hk'). discriminate Hk'. }
    apply bind_Returns in Ha. destruct Ha as ([oes q'] & Ha & Hk').
    injection Hk' as -> _. unfold parseExpressionStatement in Ha.
    apply bind_Returns in Ha. destruct Ha as (a & Ha & Hk'). injection Hk' as <- _.
    destruct (parseExpression_nodes_all pf inf fuel) as (He' & _).
    destruct (He' _ _ _ Ht Ha) as (Hok & _). cbn [Expression_] in He.
    rewrite He in Hok. exact Hok. }
  apply (G _ _ _ _ _ Ha); [split; reflexivity|]. intros es e [].
Qed.

Lemma parsed_nodes_ok_witness :
  exists prog p' es e,
    ParseProgram 16 (parser.New (lexer.New "-1 + x;")) = Returns (prog, p') /\
    In (ExprStmt (Some es)) (Statements prog) /\ Expression_ es = Some e /\
    node_ok (prefixParseFns (parser.New (lexer.New "-1 + x;")))
            (infixParseFns (parser.New (lexer.New "-1 + x;"))) e.
Proof.
  assert (H : exists prog p' es e,
             ParseProgram 16 (parser.New (lexer.New "-1 + x;")) = Returns (prog, p') /\
             In (ExprStmt (Some es)) (Statements prog) /\ Expression_ es = Some e).
  { eexists. eexists. eexists. eexists. split; [vm_compute; reflexivity|].
    split; [left; reflexivity | reflexivity]. }
  destruct H as (prog & p' & es & e & H & Hin & He).
  exists prog, p', es, e. split; [exact H|]. split; [exact Hin|]. split; [exact He|].
  apply (parsed_nodes_ok _ _ _ _ H es e Hin He).
Defined.

Lemma New_cur : forall src,
  curToken (parser.New (lexer.New src)) = fst (NextToken (lexer.New src)).
Proof.
  intros src. unfold parser.New. cbv zeta. rewrite nextToken_cur, nextToken_peek.
  reflexivity.
Qed.

(** The first statement of a program is the one that starts on the token
    that was current when ParseProgram began. *)
Lemma ParseProgram_loop_first : forall fuel p stmts p',
  ParseProgram_loop fuel [] p = Returns (stmts, p') ->
  (Typ (curToken p) = EOF -> stmts = []) /\
  (Typ (curToken p) <> EOF ->
     (exists s rest, stmts = s :: rest /\
                     Statement_TokenLiteral s = Some (Literal (curToken p))) \/
     (Typ (curToken p) = LET /\ exists rest, stmts = LetStmt None :: rest)).
Proof.
  intros fuel p stmts p' Ha.
  destruct fuel as [|fuel]; [discriminate Ha|]. rewrite ParseProgram_loop_S in Ha.
  unfold curTokenIs in Ha. destruct (String.eqb_spec (Typ (curToken p)) EOF) as [E|E].
  { injection Ha as <- _. split; [auto | contradiction]. }
  split; [contradiction|]. intros _.
  apply bind_Returns in Ha. destruct Ha as ([os q'] & Hs & Hk). cbn [fst snd] in Hk.
  destruct (ParseProgram_loop_prefix _ _ _ _ _ Hk) as (ext & ->).
  unfold parseStatement in Hs.
  destruct (String.eqb_spec (Typ (curToken p)) LET) as [El|El].
  - apply bind_Returns in Hs. destruct Hs as ([ls q2] & Hl & Hk'). injection Hk' as <- _.
    cbn [fst app]. unfold parseLetStatement in Hl.
    destruct (expectPeek IDENT p) as [ok p1]. destruct (negb ok).
    { injection Hl as <- _. right. split; [exact El|]. exists ext. reflexivity. }
    destruct (expectPeek ASSIGN p1) as [ok2 p2]. destruct (negb ok2).
    { injection Hl as <- _. right. split; [exact El|]. exists ext. reflexivity. }
    apply bind_Returns in Hl. destruct Hl as (p3 & _ & Hk'). injection Hk' as <- _.
    left. eexists. eexists. split; reflexivity.
  - destruct (String.eqb (Typ (curToken p)) RETURN).
    + apply bind_Returns in Hs. destruct Hs as ([rs q2] & Hr & Hk'). injection Hk' as <- _.
      unfold parseReturnStatement in Hr.
      apply bind_Returns in Hr. destruct Hr as (p2 & _ & Hk'). injection Hk' as <- _.
      left. eexists. eexists. split; reflexivity.
    + apply bind_Returns in Hs. destruct Hs as ([es q2] & He & Hk'). injection Hk' as <- _.
      unfold parseExpressionStatement in He.
      apply bind_Returns in He. destruct He as (a & _ & Hk'). injection Hk' as <- _.
      left. eexists. eexists. split; reflexivity.
Qed.

(** The TokenLiteral of a program is the literal of the first token of the
    text: ParseProgram starts its first statement on that token.  It is the
    empty string when the text has no token (the first token is EOF and the
    program is empty), and the call panics when the text starts with a let
    statement that failed, whose node is nil. *)
Theorem Program_TokenLiteral_first : forall fuel src prog p,
  parse fuel src = Returns (prog, p) ->
  let first := fst (NextToken (lexer.New src)) in
  (Typ first = EOF -> Statements prog = [] /\ Program_TokenLiteral prog = Some EmptyString) /\
  (Typ first <> EOF ->
     Program_TokenLiteral prog = Some (Literal first) \/
     (Typ first = LET /\ Program_TokenLiteral prog = None /\
      exists rest, Statements prog = LetStmt None :: rest)).
Proof.
  intros fuel src prog p H first. unfold parse, ParseProgram in H.
  apply bind_Returns in H. destruct H as ([stmts q] & Ha & Hk). injection Hk as <- _.
  destruct (ParseProgram_loop_first _ _ _ _ Ha) as (H1 & H2).
  rewrite (New_cur src) in H1, H2. fold first in H1, H2.
  unfold Program_TokenLiteral. cbn [Statements fst]. split.
  - intros E. rewrite (H1 E). auto.
  - intros E. destruct (H2 E) as [(s & rest & -> & Hs)|(El & rest & ->)].
    + left. exact Hs.
    + right. split; [exact El|]. split; [reflexivity|]. exists rest. reflexivity.
Qed.

Lemma Program_TokenLiteral_first_witness :
  exists prog p,
    parse 8 "foo + 1; let x = 2;" = Returns (prog, p) /\
    Program_TokenLiteral prog = Some "foo".
Proof.
  assert (H : exists prog p, parse 8 "foo + 1; let x = 2;" = Returns (prog, p)).
  { eexists. eexists. vm_compute. reflexivity. }
  destruct H as (prog & p & H). exists prog, p. split; [exact H|].
  destruct (Program_TokenLiteral_first _ _ _ _ H) as (_ & H2).
  destruct H2 as [H2|(H2 & _)].
  - vm_compute. discriminate.
  - exact H2.
  - vm_compute in H2. discriminate H2.
Defined.

(* ================================================================= *)
(** ** The earlier snapshot of the parser *)

Lemma parseLetStatement_errors : forall fuel p ols q,
  parseLetStatement fuel p = Returns (ols, q) ->
  exists ext, errors q = (errors p ++ ext)%list /\ Forall is_peek_error ext.
Proof.
  intros fuel p ols q H. unfold parseLetStatement, expectPeek in H.
  destruct (peekTokenIs p IDENT); cbn [negb] in H.
  2:{ injection H as _ <-. eexists. split; [reflexivity|].
      constructor; [|constructor]. eexists. left. reflexivity. }
  destruct (peekTokenIs (nextToken p) ASSIGN); cbn [negb] in H.
  2:{ injection H as _ <-. eexists. split.
      - cbn [peekError addError errors]. rewrite nextToken_errors. reflexivity.
      - constructor; [|constructor]. eexists. right. reflexivity. }
  apply bind_Returns in H. destruct H as (p3 & Hskip & Hk). injection Hk as _ <-.
  exists []. split; [|constructor]. rewrite app_nil_r.
  destruct (skipToSemicolon_post _ _ _ Hskip) as (_ & ext & E & _).
  assert (Hext : forall fuel p q, skipToSemicolon fuel p = Returns q -> errors q = errors p).
  { clear. induction fuel as [|fuel IH]; intros p q H; [discriminate H|].
    simpl in H. destruct (curTokenIs p SEMICOLON).
    - injection H as <-. reflexivity.
    - rewrite (IH _ _ H). apply nextToken_errors. }
  rewrite (Hext _ _ _ Hskip), !nextToken_errors. reflexivity.
Qed.

(** The earlier snapshot of ParseProgram returns let statements only (every
    other token is passed over, one at a time), and the diagnostics it
    appends are those of expectPeek: "expected next token to be IDENT, got
    ... instead" and the same with "=". *)
Theorem parser0_let_only : forall fuel p prog p',
  parser0.ParseProgram fuel p = Returns (prog, p') ->
  Forall (fun s => exists ols, s = LetStmt ols) (Statements prog) /\
  exists ext, Errors p' = (Errors p ++ ext)%list /\ Forall is_peek_error ext.
Proof.
  intros fuel p prog p' H. unfold parser0.ParseProgram in H.
  apply bind_Returns in H. destruct H as ([stmts q] & Ha & Hk). injection Hk as <- <-.
  cbn [Statements fst snd].
  assert (G : forall fuel stmts p stmts' p',
            parser0.ParseProgram_loop fuel stmts p = Returns (stmts', p') ->
            Forall (fun s => exists ols, s = LetStmt ols) stmts ->
            Forall (fun s => exists ols, s = LetStmt ols) stmts' /\
            exists ext, errors p' = (errors p ++ ext)%list /\ Forall is_peek_error ext).
  { clear. induction fuel as [|fuel IH]; intros stmts p stmts' p' H Hacc;
      [discriminate H|].
    cbn [parser0.ParseProgram_loop] in H. destruct (curTokenIs p EOF).
    { injection H as <- <-. split; [exact Hacc|]. exists []. rewrite app_nil_r.
      split; [reflexivity | constructor]. }
    apply bind_Returns in H. destruct H as ([os q] & Ha & Hk). cbn [fst snd] in Hk.
    unfold parser0.parseStatement in Ha.
    destruct (String.eqb (Typ (curToken p)) LET).
    - apply bind_Returns in Ha. destruct Ha as ([ols q'] & Hl & Hk').
      injection Hk' as <- <-. cbn [fst snd] in Hk.
      destruct (parseLetStatement_errors _ _ _ _ Hl) as (e1 & E1 & F1).
      destruct (IH _ _ _ _ Hk) as (Hs & e2 & E2 & F2).
      { apply Forall_app. split; [exact Hacc|]. constructor; [|constructor].
        eexists. reflexivity. }
      split; [exact Hs|]. exists (e1 ++ e2)%list. split.
      + rewrite E2, nextToken_errors, E1, app_assoc. reflexivity.
      + apply Forall_app. split; assumption.
    - injection Ha as <- <-.
      destruct (IH _ _ _ _ Hk Hacc) as (Hs & e2 & E2 & F2).
      split; [exact Hs|]. exists e2. rewrite E2, nextToken_errors. auto. }
  apply (G _ _ _ _ _ Ha). constructor.
Qed.

Lemma parser0_let_only_witness :
  exists prog p',
    parser0.ParseProgram 20 (parser0.New (lexer.New "x + 1; let y 2; let z = 3;"))
    = Returns (prog, p') /\
    Forall (fun s => exists ols, s = LetStmt ols) (Statements prog) /\
    exists ext, Errors p' = ext /\ Forall is_peek_error ext.
Proof.
  assert (H : exists prog p',
             parser0.ParseProgram 20 (parser0.New (lexer.New "x + 1; let y 2; let z = 3;"))
             = Returns (prog, p')).
  { eexists. eexists. vm_compute. reflexivity. }
  destruct H as (prog & p' & H).
  destruct (parser0_let_only _ _ _ _ H) as (H1 & ext & H2 & H3).
  exists prog, p'. split; [exact H|]. split; [exact H1|].
  exists ext. split; [exact H2 | exact H3].
Defined.

(* ================================================================= *)
(** ** The scanner never slices out of bounds *)

(** The slice that readIdentifier or readNumber takes from the input starts
    at the position where the run was entered and ends, not before it, at
    the position where the run was left, which is within the input: the
    bounds check of the slice expression never fails. *)
Theorem slices_in_bounds : forall lx,
  lexer_inv lx ->
  (isLetter (ch lx) = true ->
     position lx <= position (snd (readIdentifier lx)) /\
     position (snd (readIdentifier lx)) <= String.length (input lx)) /\
  (isDigit (ch lx) = true ->
     position lx <= position (snd (readNumber lx)) /\
     position (snd (readNumber lx)) <= String.length (input lx)).
Proof.
  intros lx Hinv. split; intros Hc.
  - destruct (readIdentifier_in_bounds lx Hinv Hc) as [H1 H2].
    unfold readIdentifier in H2. cbn [snd] in H2. rewrite readWhile_input in H2. auto.
  - destruct (readNumber_in_bounds lx Hinv Hc) as [H1 H2].
    unfold readNumber in H2. cbn [snd] in H2. rewrite readWhile_input in H2. auto.
Qed.

Lemma slices_in_bounds_witness :
  position (lexer.New "abc1") <= position (snd (readIdentifier (lexer.New "abc1"))) /\
  position (snd (readIdentifier (lexer.New "abc1"))) <= String.length "abc1".
Proof.
  apply (slices_in_bounds (lexer.New "abc1")).
  - unfold lexer_inv. vm_compute. split; reflexivity.
  - reflexivity.
Defined.

(* ================================================================= *)
(** ** A prefix operator binds tighter than every infix operator *)

(** A prefix operator (! or -), an identifier, an infix operator and a
    second identifier, followed by a token without precedence: the prefix
    node takes the first identifier only and becomes the left operand of the
    infix operator, whatever that operator is.  Three tokens are consumed. *)
Theorem prefix_binds_tighter : forall (p : Parser) (q fuel : nat),
  standard_tables p ->
  Typ (curToken p) = BANG \/ Typ (curToken p) = MINUS ->
  Typ (peekToken p) = IDENT ->
  infix_operator (peekToken (nextToken p)) q ->
  Typ (peekToken (nextToken (nextToken p))) = IDENT ->
  lookup precedences (Typ (peekToken (nextToken (nextToken (nextToken p))))) = None ->
  let a := identExpr (peekToken p) in
  let op := peekToken (nextToken p) in
  let b := identExpr (peekToken (nextToken (nextToken p))) in
  parseExpression (6 + fuel) LOWEST p
  = Returns (Some (infixExpr op
                     (PrefixExpression (curToken p) (Literal (curToken p)) (Some a)) b),
             nextToken (nextToken (nextToken p))).
Proof.
  intros p q fuel Ht Hpre Ha Hop Hb Hend a op b.
  pose proof (standard_tables_nextToken _ Ht) as Ht1.
  pose proof (standard_tables_nextToken _ Ht1) as Ht2.
  pose proof (standard_tables_nextToken _ Ht2) as Ht3.
  destruct (infix_operator_facts _ _ p Hop Ht) as (L1 & U1 & _ & _).
  set (p1 := nextToken p) in *. set (p2 := nextToken p1) in *.
  set (p3 := nextToken p2) in *.
  assert (C1 : curToken p1 = peekToken p) by apply nextToken_cur.
  assert (C2 : curToken p2 = op) by apply nextToken_cur.
  assert (C3 : curToken p3 = peekToken p2) by apply nextToken_cur.
  assert (P2 : curPrecedence p2 = q).
  { unfold curPrecedence. rewrite C2. unfold op. rewrite (proj1 Hop). reflexivity. }
  assert (Hfn : lookup (prefixParseFns p) (Typ (curToken p)) = Some parsePrefixExpressionFn).
  { destruct Ht as (Hp & _). rewrite Hp. destruct Hpre as [E|E]; rewrite E; reflexivity. }
  change (6 + fuel) with (S (S (S (S (S (S fuel)))))).
  rewrite parseExpression_S, Hfn. rewrite parsePrefixExpression_S. fold p1.
  rewrite expression_on_identifier; [|exact Ht1|rewrite C1; exact Ha].
  rewrite (loop_on_operator _ _ _ p1 q Ht1 Hop).
  destruct (Nat.ltb_spec PREFIX q) as [Hx|_]; [unfold PREFIX in Hx; lia|].
  cbn [bind fst snd]. rewrite C1. fold a.
  rewrite (loop_on_operator _ _ _ p1 q Ht1 Hop).
  destruct (Nat.ltb_spec LOWEST q) as [_|Hx]; [|unfold LOWEST in Hx; lia].
  fold p2. rewrite parseInfixExpression_S, P2. fold p3.
  rewrite expression_on_identifier; [|exact Ht3|rewrite C3; exact Hb].
  rewrite loop_stops; [|exact Hend|lia]. cbn [bind fst snd].
  rewrite loop_stops; [|exact Hend|unfold LOWEST; lia].
  rewrite C2, C3. reflexivity.
Qed.

Lemma prefix_binds_tighter_witness :
  parseExpression 6 LOWEST (parser.New (lexer.New "!ok == done"))
  = Returns (Some (infixExpr {| Typ := EQ; Literal := "==" |}
                     (PrefixExpression {| Typ := BANG; Literal := "!" |} "!"
                        (Some (identExpr {| Typ := IDENT; Literal := "ok" |})))
                     (identExpr {| Typ := IDENT; Literal := "done" |})),
             nextToken (nextToken (nextToken (parser.New (lexer.New "!ok == done"))))).
Proof.
  refine (eq_trans
            (prefix_binds_tighter (parser.New (lexer.New "!ok == done")) 2 0
               (New_standard_tables _) _ _ _ _ _) _).
  - left. vm_compute. reflexivity.
  - vm_compute. reflexivity.
  - split; [vm_compute; reflexivity | vm_compute; tauto].
  - vm_compute. reflexivity.
  - vm_compute. reflexivity.
  - vm_compute. reflexivity.
Defined.

(* ================================================================= *)
(** ** Letters and digits do not mix in one token *)

(** A run of letters directly followed by a run of digits is scanned as two
    tokens: the word (a keyword or an identifier) and an integer.  An
    identifier never contains a digit. *)
Theorem letters_then_digits : forall (w d r : string),
  w <> EmptyString -> all_chars isLetter w = true ->
  d <> EmptyString -> all_chars isDigit d = true ->
  isDigit (head0 r) = false ->
  fst (tokens 2 (lexer.New (w ++ d ++ r)))
  = [ {| Typ := LookupIdent w; Literal := w |}; {| Typ := INT; Literal := d |} ].
Proof.
  intros w d r Hw Hlw Hd Hld Hr.
  assert (Hhead : isLetter (head0 (d ++ r)) = false).
  { destruct d as [|c d]; [contradiction|]. simpl in *.
    apply andb_true_iff in Hld. apply isDigit_not_letter. apply Hld. }
  destruct (NextToken_word (lexer.New (w ++ d ++ r)) w (d ++ r) (New_inv _) eq_refl
              Hw Hlw Hhead) as (lx1 & H1 & I1 & V1).
  destruct (NextToken_number lx1 d r I1 V1 Hd Hld Hr) as (lx2 & H2 & _ & _).
  rewrite tokens_S, H1. cbn [fst snd]. rewrite tokens_S, H2. reflexivity.
Qed.

Lemma letters_then_digits_witness :
  fst (tokens 2 (lexer.New "foo42;"))
  = [ {| Typ := IDENT; Literal := "foo" |}; {| Typ := INT; Literal := "42" |} ].
Proof.
  apply (letters_then_digits "foo" "42" ";"); try reflexivity; discriminate.
Defined.

(* ================================================================= *)
(** ** Let and return statements: what is built, and what is read over *)

Lemma parseLetStatement_failed : forall fuel p,
  failed_let p -> exists q, parseLetStatement fuel p = Returns (None, q).
Proof.
  intros fuel p (_ & H). unfold parseLetStatement, expectPeek.
  destruct (peekTokenIs p IDENT); cbn [negb].
  - destruct H as [H|H]; [discriminate H|]. rewrite H. cbn [negb]. eexists. reflexivity.
  - eexists. reflexivity.
Qed.

(** C9.  Whenever ParseProgram is run on a let token that is not followed by
    an identifier and the assignment sign, and returns, the first entry of
    the program is a LetStatement that is a nil pointer: it has no Name, so
    that not every LetStatement of a returned program has one. *)
Theorem C9_nil_let_statement : forall fuel p prog p',
  failed_let p ->
  ParseProgram fuel p = Returns (prog, p') ->
  (exists rest, Statements prog = LetStmt None :: rest) /\
  ~ Forall value_skipped (Statements prog).
Proof.
  intros fuel p prog p' Hf H. unfold ParseProgram in H.
  apply bind_Returns in H. destruct H as ([stmts q] & Ha & Hk).
  injection Hk as <- _. cbn [Statements fst].
  assert (Hhead : exists rest, stmts = LetStmt None :: rest).
  { destruct fuel as [|fuel]; [discriminate Ha|]. rewrite ParseProgram_loop_S in Ha.
    pose proof Hf as (Hlet & _). unfold curTokenIs in Ha. rewrite Hlet in Ha.
    change (String.eqb LET EOF) with false in Ha. cbv iota in Ha.
    unfold parseStatement in Ha. rewrite Hlet in Ha.
    change (String.eqb LET LET) with true in Ha. cbv iota in Ha.
    destruct (parseLetStatement_failed fuel p Hf) as (q0 & E). rewrite E in Ha.
    cbn [bind fst snd app] in Ha.
    destruct (ParseProgram_loop_prefix _ _ _ _ _ Ha) as (ext & ->).
    exists ext. reflexivity. }
  split; [exact Hhead|]. destruct Hhead as (rest & ->).
  intros Hall. apply Forall_inv in Hall. destruct Hall as (x & Hx & _). discriminate Hx.
Qed.

Lemma C9_nil_let_statement_witness :
  exists prog p',
    ParseProgram 5 (parser.New (lexer.New "let = 5;")) = Returns (prog, p') /\
    ~ Forall value_skipped (Statements prog).
Proof.
  assert (H : exists prog p',
             ParseProgram 5 (parser.New (lexer.New "let = 5;")) = Returns (prog, p')).
  { eexists. eexists. vm_compute. reflexivity. }
  destruct H as (prog & p' & H). exists prog, p'. split; [exact H|].
  refine (proj2 (C9_nil_let_statement 5 _ prog p' _ H)).
  split; [reflexivity | left; reflexivity].
Defined.

(** In every program that ParseProgram returns, from whatever parser state
    it is started, an entry is the nil let node of a failed let statement,
    or a let node with its Name and without Value, or a return node without
    ReturnValue, or an expression statement node; no return node and no
    expression statement node is a nil pointer. *)
Theorem program_entries : forall fuel p prog p',
  ParseProgram fuel p = Returns (prog, p') ->
  forall s, In s (Statements prog) ->
    s = LetStmt None \/ (value_skipped s /\ s <> ExprStmt None).
Proof.
  intros fuel p prog p' H s Hin. unfold ParseProgram in H.
  apply bind_Returns in H. destruct H as ([stmts q] & Ha & Hk).
  injection Hk as <- _. cbn [Statements fst] in Hin.
  assert (Hgen : forall fuel stmts p stmts' p',
            Forall (fun s => s = LetStmt None \/ (value_skipped s /\ s <> ExprStmt None)) stmts ->
            ParseProgram_loop fuel stmts p = Returns (stmts', p') ->
            Forall (fun s => s = LetStmt None \/ (value_skipped s /\ s <> ExprStmt None)) stmts').
  { clear. induction fuel as [|fuel IH]; intros stmts p stmts' p' Hall H; [discriminate H|].
    rewrite ParseProgram_loop_S in H. destruct (curTokenIs p EOF).
    { injection H as <- _. exact Hall. }
    apply bind_Returns in H. destruct H as ([os q] & Ha & Hk). cbn [fst snd] in Hk.
    eapply IH; [|exact Hk]. clear Hk IH.
    unfold parseStatement in Ha.
    destruct (String.eqb (Typ (curToken p)) LET).
    - apply bind_Returns in Ha. destruct Ha as ([ls q'] & Hl & Hk). injection Hk as <- _.
      apply Forall_app. split; [exact Hall|]. constructor; [|constructor].
      cbn [fst]. unfold parseLetStatement in Hl.
      destruct (expectPeek IDENT p) as [ok p1]. destruct (negb ok).
      { injection Hl as <- _. left. reflexivity. }
      destruct (expectPeek ASSIGN p1) as [ok2 p2]. destruct (negb ok2).
      { injection Hl as <- _. left. reflexivity. }
      apply bind_Returns in Hl. destruct Hl as (p3 & _ & Hk). injection Hk as <- _.
      right. split; [|discriminate]. eexists. split; [reflexivity|].
      split; [discriminate | reflexivity].
    - destruct (String.eqb (Typ (curToken p)) RETURN).
      + apply bind_Returns in Ha. destruct Ha as ([rs q'] & Hr & Hk). injection Hk as <- _.
        apply Forall_app. split; [exact Hall|]. constructor; [|constructor].
        cbn [fst]. unfold parseReturnStatement in Hr.
        apply bind_Returns in Hr. destruct Hr as (p2 & _ & Hk). injection Hk as <- _.
        right. split; [|discriminate]. eexists. split; reflexivity.
      + apply bind_Returns in Ha. destruct Ha as ([es q'] & He & Hk). injection Hk as <- _.
        apply Forall_app. split; [exact Hall|]. constructor; [|constructor].
        cbn [fst]. unfold parseExpressionStatement in He.
        apply bind_Returns in He. destruct He as (a & _ & Hk). injection Hk as <- _.
        right. split; [exact I | discriminate]. }
  pose proof (Hgen _ _ _ _ _ (Forall_nil _) Ha) as Hall.
  rewrite Forall_forall in Hall. exact (Hall s Hin).
Qed.

Lemma program_entries_witness :
  exists prog p',
    ParseProgram 9 (parser.New (lexer.New "let x = 1 + 2; return x; let 7;"))
    = Returns (prog, p') /\
    List.length (Statements prog) = 4 /\
    forall s, In s (Statements prog) ->
      s = LetStmt None \/ (value_skipped s /\ s <> ExprStmt None).
Proof.
  assert (H : exists prog p',
             ParseProgram 9 (parser.New (lexer.New "let x = 1 + 2; return x; let 7;"))
             = Returns (prog, p') /\
             List.length (Statements prog) = 4).
  { eexists. eexists. split; vm_compute; reflexivity. }
  destruct H as (prog & p' & H & Hlen). exists prog, p'.
  split; [exact H|]. split; [exact Hlen|].
  exact (program_entries _ _ _ _ H).
Defined.

Lemma skipToSemicolon_skipped : forall fuel p q,
  skipToSemicolon fuel p = Returns q ->
  skipped_to_semicolon p q /\ errors q = errors p.
Proof.
  induction fuel as [|fuel IH]; intros p q H; [discriminate H|].
  cbn [skipToSemicolon] in H. destruct (curTokenIs p SEMICOLON) eqn:Hc.
  - injection H as <-. split; [|reflexivity]. exists 0.
    split; [reflexivity|]. split; [exact Hc|]. intros j Hj. lia.
  - destruct (IH _ _ H) as ((k & Hq & Hs & Hbefore) & He).
    split; [|rewrite He; apply nextToken_errors].
    exists (S k). split; [rewrite Nat.iter_succ_r; exact Hq|].
    split; [exact Hs|]. intros [|j] Hj; [exact Hc|].
    rewrite Nat.iter_succ_r. apply Hbefore. lia.
Qed.

(** A let statement that is built, and every return statement, is read over
    up to its first semicolon: from the token behind the assignment sign,
    or behind the return token, the parser takes token after token until the
    current one is a semicolon, stops on the first, parses nothing of what
    it passes and adds no diagnostic. *)
Theorem values_read_over : forall fuel p s q,
  parseStatement fuel p = Returns (Some s, q) ->
  match s with
  | LetStmt (Some ls) =>
      skipped_to_semicolon (nextToken (nextToken p)) q /\
      Value ls = None /\ Errors q = Errors p
  | ReturnStmt rs =>
      skipped_to_semicolon (nextToken p) q /\
      (exists x, rs = Some x /\ ReturnValue x = None) /\ Errors q = Errors p
  | _ => True
  end.
Proof.
  intros fuel p s q H. unfold parseStatement in H.
  destruct (String.eqb (Typ (curToken p)) LET).
  - apply bind_Returns in H. destruct H as ([ls q'] & Hl & Hk). injection Hk as <- <-.
    cbn [fst snd]. unfold parseLetStatement, expectPeek in Hl.
    destruct (peekTokenIs p IDENT); cbn [negb] in Hl.
    2:{ injection Hl as <- _. exact I. }
    destruct (peekTokenIs (nextToken p) ASSIGN); cbn [negb] in Hl.
    2:{ injection Hl as <- _. exact I. }
    apply bind_Returns in Hl. destruct Hl as (p3 & Hskip & Hk). injection Hk as <- <-.
    destruct (skipToSemicolon_skipped _ _ _ Hskip) as (Hs & He).
    split; [exact Hs|]. split; [reflexivity|].
    unfold Errors. rewrite He, !nextToken_errors. reflexivity.
  - destruct (String.eqb (Typ (curToken p)) RETURN).
    + apply bind_Returns in H. destruct H as ([rs q'] & Hr & Hk). injection Hk as <- <-.
      cbn [fst snd]. unfold parseReturnStatement in Hr.
      apply bind_Returns in Hr. destruct Hr as (p2 & Hskip & Hk). injection Hk as <- <-.
      destruct (skipToSemicolon_skipped _ _ _ Hskip) as (Hs & He).
      split; [exact Hs|]. split; [eexists; split; reflexivity|].
      unfold Errors. rewrite He, nextToken_errors. reflexivity.
    + apply bind_Returns in H. destruct H as ([es q'] & He & Hk). injection Hk as <- _.
      exact I.
Qed.

Lemma values_read_over_witness :
  exists q,
    parseStatement 6 (parser.New (lexer.New "return ) + ; 5;"))
    = Returns (Some (ReturnStmt (Some {| ReturnStatement_Token :=
                                           {| Typ := RETURN; Literal := "return" |};
                                         ReturnValue := None |})), q) /\
    skipped_to_semicolon (nextToken (parser.New (lexer.New "return ) + ; 5;"))) q /\
    peekToken q = {| Typ := INT; Literal := "5" |} /\
    Errors q = Errors (parser.New (lexer.New "return ) + ; 5;")).
Proof.
  assert (H : exists q,
             parseStatement 6 (parser.New (lexer.New "return ) + ; 5;"))
             = Returns (Some (ReturnStmt (Some {| ReturnStatement_Token :=
                                                    {| Typ := RETURN; Literal := "return" |};
                                                  ReturnValue := None |})), q) /\
             peekToken q = {| Typ := INT; Literal := "5" |}).
  { eexists. split; vm_compute; reflexivity. }
  destruct H as (q & H & Hpeek). exists q. split; [exact H|].
  destruct (values_read_over _ _ _ _ H) as (Hs & _ & He).
  split; [exact Hs|]. split; [exact Hpeek | exact He].
Defined.
